(** * Record query and bulk mutation pipeline of the Cloudflare DNS MCP server

    A shallow embedding of the TypeScript sources
    [utils/pagination.ts], [formatters/record.ts], [utils/errors.ts],
    [tools/records-read.ts] and [tools/records-bulk.ts], followed by the
    properties of the record pipeline proved over that embedding.

    Conventions of the embedding.
    - A JavaScript value is a term of [JS.value].  Numbers are the integers
      of magnitude below 10^21, which print as their decimal spelling
      (every number the pipeline computes is a length, a counter, an index
      or a field copied from a record); [VNaN] is the one non-integer
      number that the coercions can produce.
    - A JavaScript string is a [string] whose characters are code units
      below 256.
    - An object is the list of its own enumerable properties in property
      order.  Properties inherited from [Object.prototype] are not
      modelled, so record types spelled like a prototype member
      ([constructor], [toString], ...) are outside the embedding.
    - The entry point verifies the API token before any tool is served
      ([validateToken] exits the process on failure), so inside a handler
      [getClient()] returns the cached client; handlers take it as an
      argument.
    - The Directory (the Cloudflare API behind the SDK client) is external:
      it is a state machine given by the caller of each handler.
    - [Math.random()] is an explicit stream of draws from [0,1). *)

From Stdlib Require Import ZArith String Ascii List Lia Bool.
From Stdlib Require Strings.Byte.
From stdpp Require Import base list strings pretty.

Set Warnings "-register-all".

Local Open Scope string_scope.
Local Open Scope list_scope.
Local Open Scope Z_scope.

(** ** JavaScript values and the runtime functions the sources call *)

Module JS.

Inductive value : Type :=
  | VUndefined
  | VNull
  | VBool (b : bool)
  | VNum (z : Z)
  | VNaN
  | VStr (s : string)
  | VArr (elems : list value)
  | VObj (props : list (string * value)).

(** [Record<string, unknown>] *)
Definition obj : Type := list (string * value).

Definition nl : string := String (ascii_of_nat 10) EmptyString.

(** [v === z] for a number literal [z] *)
Definition strict_equals_number (v : value) (z : Z) : bool :=
  match v with
  | VNum x => x =? z
  | _ => false
  end.

(** [v ?? d] *)
Definition nullish (v d : value) : value :=
  match v with
  | VUndefined | VNull => d
  | _ => v
  end.

(** ToBoolean: truthiness of a value in a condition, [Boolean(v)]. *)
Definition truthy (v : value) : bool :=
  match v with
  | VUndefined | VNull | VNaN => false
  | VBool b => b
  | VNum z => negb (z =? 0)
  | VStr s => negb (String.eqb s "")
  | VArr _ | VObj _ => true
  end.

Fixpoint join (sep : string) (parts : list string) : string :=
  match parts with
  | [] => ""
  | [p] => p
  | p :: rest => p +:+ sep +:+ join sep rest
  end.

(** Number::toString on an integer: its decimal spelling. *)
Definition number_to_string (z : Z) : string := pretty z.

(** ToString, [String(v)].  An array is joined with commas, [null] and
    [undefined] elements rendering as the empty string. *)
Fixpoint String_ (v : value) : string :=
  match v with
  | VUndefined => "undefined"
  | VNull => "null"
  | VBool true => "true"
  | VBool false => "false"
  | VNum z => number_to_string z
  | VNaN => "NaN"
  | VStr s => s
  | VArr elems =>
      join ","
        ((fix elems_str (l : list value) : list string :=
            match l with
            | [] => []
            | VUndefined :: r | VNull :: r => "" :: elems_str r
            | x :: r => String_ x :: elems_str r
            end) elems)
  | VObj _ => "[object Object]"
  end.

(** *** ToNumber *)

Definition is_digit (c : ascii) : bool :=
  let n := nat_of_ascii c in ((48 <=? n) && (n <=? 57))%nat.

(** WhiteSpace and LineTerminator code units below 256. *)
Definition is_space (c : ascii) : bool :=
  let n := nat_of_ascii c in
  ((9 <=? n) && (n <=? 13) || (n =? 32) || (n =? 160))%nat.

Fixpoint ltrim (s : string) : string :=
  match s with
  | String c r => if is_space c then ltrim r else s
  | EmptyString => EmptyString
  end.

Fixpoint rtrim (s : string) : string :=
  match s with
  | String c r =>
      match rtrim r with
      | EmptyString => if is_space c then EmptyString else String c EmptyString
      | r' => String c r'
      end
  | EmptyString => EmptyString
  end.

Fixpoint digits_value (s : string) (acc : Z) : option Z :=
  match s with
  | EmptyString => Some acc
  | String c r =>
      if is_digit c
      then digits_value r (10 * acc + Z.of_nat (nat_of_ascii c) - 48)
      else None
  end.

Definition unsigned_literal (s : string) : option Z :=
  match s with
  | EmptyString => None
  | _ => digits_value s 0
  end.

(** StringToNumber on the integers: surrounding white space is dropped,
    the empty string is 0, a signed run of decimal digits is its value.
    Literals with a fraction, an exponent or a radix prefix denote numbers
    outside the integers; they (and every other text) yield [VNaN] here. *)
Definition StringToNumber (s : string) : value :=
  match rtrim (ltrim s) with
  | EmptyString => VNum 0
  | String "-" r => match unsigned_literal r with Some z => VNum (- z) | None => VNaN end
  | String "+" r => match unsigned_literal r with Some z => VNum z | None => VNaN end
  | t => match unsigned_literal t with Some z => VNum z | None => VNaN end
  end.

(** ToNumber, [Number(v)]; an array or object goes through its string. *)
Definition Number_ (v : value) : value :=
  match v with
  | VUndefined => VNaN
  | VNull => VNum 0
  | VBool true => VNum 1
  | VBool false => VNum 0
  | VNum z => VNum z
  | VNaN => VNaN
  | VStr s => StringToNumber s
  | VArr _ | VObj _ => StringToNumber (String_ v)
  end.

(** *** Property order and assignment *)

(** A key is an array index when it is the canonical decimal spelling of
    an integer below 2^32 - 1. *)
Definition array_index (k : string) : option Z :=
  match k with
  | EmptyString => None
  | String "0" EmptyString => Some 0
  | String "0" _ => None
  | _ => match digits_value k 0 with
         | Some z => if z <? 4294967295 then Some z else None
         | None => None
         end
  end.

Section Props.
Context {V : Type}.

Definition has_key (o : list (string * V)) (k : string) : bool :=
  existsb (fun p => String.eqb (fst p) k) o.

Fixpoint lookup_prop (o : list (string * V)) (k : string) : option V :=
  match o with
  | [] => None
  | (k', v) :: rest => if String.eqb k' k then Some v else lookup_prop rest k
  end.

Fixpoint update_prop (o : list (string * V)) (k : string) (v : V) : list (string * V) :=
  match o with
  | [] => []
  | (k', v') :: rest =>
      if String.eqb k' k then (k', v) :: rest else (k', v') :: update_prop rest k v
  end.

(** A new array-index key goes before the first key that is not a
    smaller array index. *)
Fixpoint insert_index (o : list (string * V)) (n : Z) (k : string) (v : V)
  : list (string * V) :=
  match o with
  | [] => [(k, v)]
  | (k', v') :: rest =>
      match array_index k' with
      | Some m => if m <? n then (k', v') :: insert_index rest n k v else (k, v) :: o
      | None => (k, v) :: o
      end
  end.

(** [o[k] = v]: an existing property keeps its place; a new one is
    enumerated after the array-index keys (in ascending order) when it
    is one, and last otherwise. *)
Definition set_prop (o : list (string * V)) (k : string) (v : V) : list (string * V) :=
  if has_key o k then update_prop o k v
  else match array_index k with
       | Some n => insert_index o n k v
       | None => o ++ [(k, v)]
       end.
End Props.

(** [o[k]] on own properties; [undefined] when absent. *)
Definition get (o : obj) (k : string) : value :=
  default VUndefined (lookup_prop o k).

(** *** JSON.stringify(value, null, 2) *)

Definition dquote : string := String (ascii_of_nat 34) EmptyString.

Definition hex_digit (n : nat) : ascii :=
  match n with
  | 0 => "0" | 1 => "1" | 2 => "2" | 3 => "3" | 4 => "4" | 5 => "5"
  | 6 => "6" | 7 => "7" | 8 => "8" | 9 => "9" | 10 => "a" | 11 => "b"
  | 12 => "c" | 13 => "d" | 14 => "e" | _ => "f"
  end%nat%char.

Definition escape_char (c : ascii) : string :=
  let n := nat_of_ascii c in
  if (n =? 8)%nat then "\b"
  else if (n =? 9)%nat then "\t"
  else if (n =? 10)%nat then "\n"
  else if (n =? 12)%nat then "\f"
  else if (n =? 13)%nat then "\r"
  else if (n =? 34)%nat then "\" +:+ dquote
  else if (n =? 92)%nat then "\\"
  else if (n <? 32)%nat
       then "\u00" +:+ String (hex_digit (n / 16)) (String (hex_digit (n mod 16)) EmptyString)
  else String c EmptyString.

Fixpoint escape (s : string) : string :=
  match s with
  | EmptyString => EmptyString
  | String c r => escape_char c +:+ escape r
  end.

(** QuoteJSONString *)
Definition quote (s : string) : string := dquote +:+ escape s +:+ dquote.

Definition gap : string := "  ".

(** SerializeJSONProperty with the two-space gap; [None] is the
    [undefined] result, which drops an object member and prints as [null]
    inside an array. *)
Fixpoint serialize (indent : string) (v : value) {struct v} : option string :=
  match v with
  | VUndefined => None
  | VNull => Some "null"
  | VBool true => Some "true"
  | VBool false => Some "false"
  | VNum z => Some (number_to_string z)
  | VNaN => Some "null"
  | VStr s => Some (quote s)
  | VArr elems =>
      let inner := indent +:+ gap in
      let parts :=
        (fix items (l : list value) : list string :=
           match l with
           | [] => []
           | x :: r => default "null" (serialize inner x) :: items r
           end) elems in
      Some (match parts with
            | [] => "[]"
            | _ => "[" +:+ nl +:+ inner +:+ join ("," +:+ nl +:+ inner) parts
                   +:+ nl +:+ indent +:+ "]"
            end)
  | VObj props =>
      let inner := indent +:+ gap in
      let parts :=
        (fix members (l : list (string * value)) : list string :=
           match l with
           | [] => []
           | (k, x) :: r =>
               match serialize inner x with
               | Some s => (quote k +:+ ": " +:+ s) :: members r
               | None => members r
               end
           end) props in
      Some (match parts with
            | [] => "{}"
            | _ => "{" +:+ nl +:+ inner +:+ join ("," +:+ nl +:+ inner) parts
                   +:+ nl +:+ indent +:+ "}"
            end)
  end.

(** [JSON.stringify(o, null, 2)] for an object [o]: always a string. *)
Definition stringify (o : obj) : string :=
  default "" (serialize "" (VObj o)).

(** *** Array.prototype.slice, String.prototype.slice, lastIndexOf *)

(** The relative index of [slice]: negative counts from the end, and
    the result is clamped to [0 .. len]. *)
Definition relative_index (len i : Z) : Z :=
  if i <? 0 then Z.max (len + i) 0 else Z.min i len.

Definition slice {A : Type} (a : list A) (start fin : Z) : list A :=
  let len := Z.of_nat (length a) in
  let k := relative_index len start in
  let final := relative_index len fin in
  take (Z.to_nat (final - k)) (drop (Z.to_nat k) a).

Fixpoint str_take (n : nat) (s : string) : string :=
  match n, s with
  | S n', String c r => String c (str_take n' r)
  | _, _ => EmptyString
  end.

Fixpoint str_drop (n : nat) (s : string) : string :=
  match n, s with
  | S n', String _ r => str_drop n' r
  | _, _ => s
  end.

Definition str_length (s : string) : Z := Z.of_nat (String.length s).

Definition str_slice (s : string) (start fin : Z) : string :=
  let len := str_length s in
  let k := relative_index len start in
  let final := relative_index len fin in
  str_take (Z.to_nat (final - k)) (str_drop (Z.to_nat k) s).

Fixpoint lastIndexOf_from (s : string) (c : ascii) (i found : Z) : Z :=
  match s with
  | EmptyString => found
  | String x r => lastIndexOf_from r c (i + 1) (if Ascii.eqb x c then i else found)
  end.

(** [s.lastIndexOf(c)] for a one-character search string: the greatest
    index holding [c], or -1. *)
Definition lastIndexOf (s : string) (c : ascii) : Z := lastIndexOf_from s c 0 (-1).

End JS.

Import JS.

(** ** constants.ts *)

Module Constants.
(** Maximum characters in a single tool response before truncation. *)
Definition CHARACTER_LIMIT : Z := 25000.
(** Default number of records per page. *)
Definition DEFAULT_PER_PAGE : Z := 50.
(** Default random sample size. *)
Definition DEFAULT_SAMPLE_SIZE : Z := 5.
End Constants.

(** ** utils/pagination.ts *)

Module Pagination.
Import Constants.

Record PaginationMeta : Type := {
  total : Z;
  count : Z;
  page : Z;
  per_page : Z;
  has_more : bool;
}.

Definition buildPaginationMeta {A : Type}
    (total : Z) (items : list A) (page perPage : Z) : PaginationMeta :=
  {| total := total;
     count := Z.of_nat (length items);
     page := page;
     per_page := perPage;
     has_more := page * perPage <? total |}.

Definition newline : ascii := ascii_of_nat 10.

Definition TRUNCATION_NOTICE : string :=
  nl +:+ nl +:+ "--- TRUNCATED ---" +:+ nl +:+
  "Response exceeded token limit. Use `page`, `per_page`, or filter parameters (filter_type, filter_name) to narrow results.".

(** The test [lastNewline > CHARACTER_LIMIT * 0.8] is taken over the
    rationals, as [10 * lastNewline > 8 * CHARACTER_LIMIT]; in doubles the
    product 25000 * 0.8 is 20000 exactly. *)
Definition truncateIfNeeded (text : string) : string :=
  if str_length text <=? CHARACTER_LIMIT then text
  else
    let truncated := str_slice text 0 CHARACTER_LIMIT in
    let lastNewline := lastIndexOf truncated newline in
    let cleanCut :=
      if 8 * CHARACTER_LIMIT <? 10 * lastNewline
      then str_slice truncated 0 lastNewline
      else truncated in
    cleanCut +:+ TRUNCATION_NOTICE.

(** One result of [Math.random()]: the rational
    [numer / (numer + slack + 1)], which lies in [0,1) whatever the two
    components are. *)
Record draw : Type := Draw { numer : nat; slack : nat }.

(** [Math.floor(u * m)], the product taken exactly. *)
Definition floor_times (u : draw) (m : nat) : nat :=
  (numer u * m / (numer u + slack u + 1))%nat.

(** [[a[i], a[j]] = [a[j], a[i]]]: both reads first, then the write to
    [i], then the write to [j].  The loop only passes positions inside
    the array ([0 <= j <= i < a.length]); outside, where JavaScript would
    read [undefined] and grow the array, the list is left as it is. *)
Definition swap {A : Type} (a : list A) (i j : nat) : list A :=
  match a !! j, a !! i with
  | Some aj, Some ai => <[j := ai]> (<[i := aj]> a)
  | _, _ => a
  end.

(** The loop [for (let i = ...; i > 0; i--)] entered at [i], the next
    call of [Math.random()] being number [k] of the stream [rand]. *)
Fixpoint shuffle_loop {A : Type} (rand : nat → draw) (i k : nat) (shuffled : list A)
  : list A :=
  match i with
  | O => shuffled
  | S i' =>
      let j := floor_times (rand k) (i + 1) in
      shuffle_loop rand i' (S k) (swap shuffled i j)
  end.

(** The value returned by [randomSample(items, n)]. *)
Definition randomSample {A : Type} (rand : nat → draw) (items : list A) (n : Z) : list A :=
  if Z.of_nat (length items) <=? n then items
  else
    let shuffled := items in
    let shuffled := shuffle_loop rand (length shuffled - 1) 0 shuffled in
    slice shuffled 0 n.

(** *** The same function over a store of arrays

    Arrays are objects: [items] is a reference, [[...items]] and [slice]
    allocate, and the swaps write through the reference [shuffled]. *)
Section Store.
Context {A : Type}.

(** A store is the list of its arrays; a reference is an index. *)
Local Abbreviation store := (list (list A)).
Local Abbreviation ref := nat.

Definition deref (h : store) (r : ref) : list A := default [] (h !! r).

Definition alloc (h : store) (a : list A) : store * ref := (h ++ [a], length h).

Definition swap_in (h : store) (r : ref) (i j : nat) : store :=
  <[r := swap (deref h r) i j]> h.

Fixpoint shuffle_loop_in (rand : nat → draw) (i k : nat) (h : store) (shuffled : ref)
  : store :=
  match i with
  | O => h
  | S i' =>
      let j := floor_times (rand k) (i + 1) in
      shuffle_loop_in rand i' (S k) (swap_in h shuffled i j) shuffled
  end.

Definition randomSample_in (rand : nat → draw) (h : store) (items : ref) (n : Z)
  : store * ref :=
  if Z.of_nat (length (deref h items)) <=? n then (h, items)
  else
    let (h, shuffled) := alloc h (deref h items) in
    let h := shuffle_loop_in rand (length (deref h shuffled) - 1) 0 h shuffled in
    alloc h (slice (deref h shuffled) 0 n).
End Store.

End Pagination.

(** ** formatters/record.ts *)

Module RecordFormatter.

Definition includes (l : list string) (s : string) : bool :=
  existsb (String.eqb s) l.

(** [v.k] for a value that need not be an object. *)
Definition member (v : value) (k : string) : value :=
  match v with
  | VObj o => get o k
  | _ => VUndefined
  end.

Definition is_undefined (v : value) : bool :=
  match v with VUndefined => true | _ => false end.

(** [result.type] as the formatter computes it. *)
Definition type_of (record : obj) : string :=
  String_ (nullish (get record "type") (VStr "")).

Definition formatRecord (record : obj) (concise : bool) : obj :=
  if negb concise then record
  else
    let result : obj :=
      [ ("id", VStr (String_ (nullish (get record "id") (VStr ""))));
        ("type", VStr (type_of record));
        ("name", VStr (String_ (nullish (get record "name") (VStr ""))));
        ("content", VStr (String_ (nullish (get record "content") (VStr ""))));
        ("ttl", if strict_equals_number (get record "ttl") 1
                then VStr "auto"
                else Number_ (nullish (get record "ttl") (VNum 0))) ] in
    let type := String_ (get result "type") in
    let result :=
      if includes ["A"; "AAAA"; "CNAME"] type
      then set_prop result "proxied" (VBool (truthy (get record "proxied")))
      else result in
    let result :=
      if truthy (get record "comment")
      then set_prop result "comment" (VStr (String_ (get record "comment")))
      else result in
    let result :=
      if truthy (get record "created_on")
      then set_prop result "created_on" (VStr (String_ (get record "created_on")))
      else result in
    let result :=
      if truthy (get record "modified_on")
      then set_prop result "modified_on" (VStr (String_ (get record "modified_on")))
      else result in
    let result :=
      if String.eqb type "MX" && negb (is_undefined (get record "priority"))
      then set_prop result "priority" (Number_ (get record "priority"))
      else result in
    let result :=
      if String.eqb type "SRV" && truthy (get record "data")
      then
        let data := get record "data" in
        let result := set_prop result "priority" (member data "priority") in
        let result := set_prop result "weight" (member data "weight") in
        set_prop result "port" (member data "port")
      else result in
    result.

Definition formatRecords (records : list obj) (concise : bool) : list obj :=
  map (fun r => formatRecord r concise) records.

(** *** The histogram [byType], a plain object

    [byType] is created by [{}]: besides the properties the loop gives
    it, it has those of [Object.prototype], which are eleven native
    functions and the accessor [__proto__]. *)

(** The names under which [Object.prototype] holds a native function,
    each with the name of that function. *)
Definition Object_prototype_functions : list (string * string) :=
  [ ("constructor", "Object");
    ("__defineGetter__", "__defineGetter__");
    ("__defineSetter__", "__defineSetter__");
    ("hasOwnProperty", "hasOwnProperty");
    ("__lookupGetter__", "__lookupGetter__");
    ("__lookupSetter__", "__lookupSetter__");
    ("isPrototypeOf", "isPrototypeOf");
    ("propertyIsEnumerable", "propertyIsEnumerable");
    ("toString", "toString");
    ("valueOf", "valueOf");
    ("toLocaleString", "toLocaleString") ].

(** [String(f)] for the native function called [name], as V8 prints
    it. *)
Definition native_code (name : string) : string :=
  "function " +:+ name +:+ "() { [native code] }".

(** What [byType[type]] evaluates to: a property of [byType] itself, a
    function of [Object.prototype], [Object.prototype] itself (the value
    of [__proto__]), or [undefined]. *)
Inductive reading : Type :=
  | Own (v : value)
  | NativeFunction (name : string)
  | Prototype
  | Missing.

Definition read (byType : obj) (type : string) : reading :=
  match lookup_prop byType type with
  | Some v => Own v
  | None =>
      if String.eqb type "__proto__" then Prototype
      else match lookup_prop Object_prototype_functions type with
           | Some name => NativeFunction name
           | None => Missing
           end
  end.

(** [v + 1] *)
Definition plus_one (v : value) : value :=
  match v with
  | VNum z => VNum (z + 1)
  | VStr s => VStr (s +:+ "1")
  | VUndefined | VNaN => VNaN
  | VNull | VBool false => VNum 1
  | VBool true => VNum 2
  | VArr _ | VObj _ => VStr (String_ v +:+ "1")
  end.

(** [(byType[type] ?? 0) + 1]: a function or [Object.prototype] is
    turned into its text by [+]. *)
Definition next_count (m : reading) : value :=
  match m with
  | Own v => plus_one (nullish v (VNum 0))
  | NativeFunction name => VStr (native_code name +:+ "1")
  | Prototype => VStr "[object Object]1"
  | Missing => VNum 1
  end.

(** [byType[type] = v].  Under [__proto__] the assignment goes to the
    setter of [Object.prototype], which does nothing with a value that is
    neither an object nor [null]; the loop gives it a string. *)
Definition write (byType : obj) (type : string) (v : value) : obj :=
  if String.eqb type "__proto__" then byType else set_prop byType type v.

(** [{ total, by_type, by_proxied: { proxied, dns_only } }], the two
    counters of [by_proxied] being fields of their own here. *)
Record RecordSummary : Type := {
  total : Z;
  by_type : obj;
  proxied : Z;
  dns_only : Z;
}.

(** The bucket a record is counted under. *)
Definition bucket (r : obj) : string :=
  String_ (nullish (get r "type") (VStr "UNKNOWN")).

(** One iteration of the loop over [records], on the three counters. *)
Definition summary_step (acc : obj * Z * Z) (r : obj) : obj * Z * Z :=
  let '(byType, proxied, dnsOnly) := acc in
  let type := bucket r in
  let byType := write byType type (next_count (read byType type)) in
  if truthy (get r "proxied")
  then (byType, proxied + 1, dnsOnly)
  else (byType, proxied, dnsOnly + 1).

Definition buildRecordSummary (records : list obj) : RecordSummary :=
  let '(byType, proxied, dnsOnly) := fold_left summary_step records ([], 0, 0) in
  {| total := Z.of_nat (length records);
     by_type := byType;
     proxied := proxied;
     dns_only := dnsOnly |}.

(** The summary as the object literal the source returns. *)
Definition summary_value (s : RecordSummary) : value :=
  VObj [ ("total", VNum (total s));
         ("by_type", VObj (by_type s));
         ("by_proxied", VObj [ ("proxied", VNum (proxied s));
                               ("dns_only", VNum (dns_only s)) ]) ].

End RecordFormatter.

(** ** utils/errors.ts *)

Module Errors.

(** A thrown value, as far as [handleApiError] inspects it: the outcome
    of each [instanceof] test, and the [status] and [message] fields.
    [as_string] is [String(error)]. *)
Record thrown : Type := {
  is_APIError : bool;
  is_APIConnectionError : bool;
  is_RateLimitError : bool;
  is_AuthenticationError : bool;
  is_Error : bool;
  status : value;
  message : string;
  as_string : string;
}.

(** The [case] labels of the [switch (status)]. *)
Definition status_is (error : thrown) (code : Z) : bool :=
  strict_equals_number (status error) code.

(** The dash of the first message is kept as its UTF-8 bytes. *)
Definition handleApiError (error : thrown) : string :=
  if is_APIError error then
    if status_is error 400 then
      "Error (400 Bad Request): " +:+ message error +:+
      ". Check your parameters — a required field may be missing or malformed."
    else if status_is error 401 then
      "Error (401 Unauthorized): Invalid or expired API token. Verify CLOUDFLARE_API_TOKEN is set and has Zone:Read + DNS:Edit permissions."
    else if status_is error 403 then
      "Error (403 Forbidden): Token lacks required permissions. Ensure it has Zone:Read and DNS:Edit scopes for the target zone."
    else if status_is error 404 then
      "Error (404 Not Found): The requested resource does not exist. Double-check the zone_id and record_id."
    else if status_is error 409 then
      "Error (409 Conflict): A record with this name and type may already exist. Use cf_dns_list_records to check."
    else if status_is error 429 then
      "Error (429 Rate Limited): Cloudflare API rate limit hit (1,200 req / 5 min). Wait a moment and retry."
    else
      "Error (" +:+ String_ (status error) +:+ "): " +:+ message error
  else if is_APIConnectionError error then
    "Error: Could not connect to Cloudflare API. Check network connectivity."
  else if is_RateLimitError error then
    "Error: Rate limit exceeded. Cloudflare allows 1,200 requests per 5-minute window. Wait and retry."
  else if is_AuthenticationError error then
    "Error: Authentication failed. Verify your CLOUDFLARE_API_TOKEN is valid and not expired."
  else if is_Error error then
    "Error: " +:+ message error
  else
    "Error: An unexpected error occurred: " +:+ as_string error.

End Errors.

(** ** The Directory behind the SDK client, and tool responses *)

Module Directory.
Import Errors.

(** What [for await (const record of page)] sees: the records the
    iterator yields, then either the end of the listing or the exception
    raised by the request for a further page. *)
Record PageIterator : Type := {
  yielded : list obj;
  failure : option thrown;
}.

(** The four calls the tools make on [client.dns.records], over a
    Directory in state [D].  An [inl] reply is a rejected promise. *)
Record Client (D : Type) : Type := {
  records_list : D → obj → thrown + PageIterator;
  records_get : D → string → obj → thrown + obj;
  records_create : D → obj → D * (thrown + obj);
  records_edit : D → string → obj → D * (thrown + obj);
}.
Arguments records_list {D}.
Arguments records_get {D}.
Arguments records_create {D}.
Arguments records_edit {D}.

(** [{ content: [{ type: "text", text }], isError }] *)
Record ToolResponse : Type := {
  text : string;
  isError : bool;
}.

Definition ok (text : string) : ToolResponse :=
  {| text := text; isError := false |}.

(** The [catch] clause shared by all handlers. *)
Definition caught (error : thrown) : ToolResponse :=
  {| text := handleApiError error; isError := true |}.

End Directory.

(** ** tools/records-read.ts *)

Module RecordsRead.
Import Errors Directory RecordFormatter.

Record ListRecordsInput : Type := {
  zone_id : string;
  concise : bool;
  include_details : bool;
  page : Z;
  per_page : Z;
  random_sample : bool;
  sample_size : Z;
  filter_type : option string;
  filter_name : option string;
  filter_content : option string;
  filter_proxied : option bool;
  filter_comment : option string;
  filter_tag : option string;
  order : option string;
  summary_only : bool;
}.

(** [if (s) o[k] = s] for an optional string parameter. *)
Definition with_string (o : obj) (k : string) (s : option string) : obj :=
  match s with
  | Some t => if String.eqb t "" then o else set_prop o k (VStr t)
  | None => o
  end.

Definition queryParams (params : ListRecordsInput) : obj :=
  let q : obj := [ ("page", VNum (page params)); ("per_page", VNum (per_page params)) ] in
  let q := with_string q "type" (filter_type params) in
  let q := with_string q "name.contains" (filter_name params) in
  let q := with_string q "content.contains" (filter_content params) in
  let q := match filter_proxied params with
           | Some b => set_prop q "proxied" (VBool b)
           | None => q
           end in
  let q := with_string q "comment.contains" (filter_comment params) in
  let q := with_string q "tag" (filter_tag params) in
  with_string q "order" (order params).

(** [params.include_details ? false : params.concise] *)
Definition resolve_concise (include_details concise : bool) : bool :=
  if include_details then false else concise.

(** The collecting loop, entered with [records] gathered so far and
    [rest] still to be yielded. *)
Fixpoint collect (params : ListRecordsInput) (records rest : list obj)
    (failure : option thrown) : thrown + list obj :=
  match rest with
  | [] => match failure with
          | Some error => inl error
          | None => inr records
          end
  | record :: rest' =>
      let records := records ++ [record] in
      if (per_page params * 10 <=? Z.of_nat (length records))
         && negb (summary_only params) && negb (random_sample params)
      then inr records
      else collect params records rest' failure
  end.

Definition array (records : list obj) : value := VArr (map VObj records).

Definition summary_output (records : list obj) : obj :=
  [ ("summary", summary_value (buildRecordSummary records)) ].

Definition sample_output (rand : nat → Pagination.draw) (params : ListRecordsInput)
    (concise : bool) (records : list obj) : obj :=
  let total := Z.of_nat (length records) in
  let sampled := Pagination.randomSample rand records (sample_size params) in
  let formatted := formatRecords sampled concise in
  [ ("sample", VObj [ ("total_in_zone", VNum total);
                      ("sample_size", VNum (Z.of_nat (length formatted))) ]);
    ("records", array formatted) ].

Definition pagination_value (m : Pagination.PaginationMeta) : value :=
  VObj [ ("total", VNum (Pagination.total m));
         ("count", VNum (Pagination.count m));
         ("page", VNum (Pagination.page m));
         ("per_page", VNum (Pagination.per_page m));
         ("has_more", VBool (Pagination.has_more m)) ].

(** The page of [records] the paginated mode formats. *)
Definition paged (params : ListRecordsInput) (records : list obj) : list obj :=
  let start := (page params - 1) * per_page params in
  slice records start (start + per_page params).

Definition paginated_output (params : ListRecordsInput) (concise : bool)
    (records : list obj) : obj :=
  let total := Z.of_nat (length records) in
  let formatted := formatRecords (paged params records) concise in
  let pagination :=
    Pagination.buildPaginationMeta total formatted (page params) (per_page params) in
  let summary := if 20 <? total then Some (buildRecordSummary records) else None in
  [ ("pagination", pagination_value pagination) ]
  ++ match summary with
     | Some summary => [ ("summary", summary_value summary) ]
     | None => []
     end
  ++ [ ("records", array formatted) ].

(** The records gathered from the Directory for a request. *)
Definition fetch {D : Type} (client : Client D) (d : D) (params : ListRecordsInput)
  : thrown + list obj :=
  match records_list client d (("zone_id", VStr (zone_id params)) :: queryParams params) with
  | inl error => inl error
  | inr page => collect params [] (yielded page) (failure page)
  end.

Definition cf_dns_list_records {D : Type} (client : Client D) (d : D)
    (rand : nat → Pagination.draw) (params : ListRecordsInput) : ToolResponse :=
  let concise := resolve_concise (include_details params) (concise params) in
  match fetch client d params with
  | inl error => caught error
  | inr records =>
      if summary_only params then
        ok (stringify (summary_output records))
      else if random_sample params then
        ok (Pagination.truncateIfNeeded
              (stringify (sample_output rand params concise records)))
      else
        ok (Pagination.truncateIfNeeded
              (stringify (paginated_output params concise records)))
  end.

Record GetRecordInput : Type := {
  get_zone_id : string;
  record_id : string;
  get_concise : bool;
  get_include_details : bool;
}.

Definition record_output (concise : bool) (record : obj) : obj :=
  [ ("record", VObj (formatRecord record concise)) ].

Definition cf_dns_get_record {D : Type} (client : Client D) (d : D)
    (params : GetRecordInput) : ToolResponse :=
  let concise := resolve_concise (get_include_details params) (get_concise params) in
  match records_get client d (record_id params) [ ("zone_id", VStr (get_zone_id params)) ] with
  | inl error => caught error
  | inr record => ok (stringify (record_output concise record))
  end.

End RecordsRead.

(** ** tools/records-bulk.ts *)

Module RecordsBulk.
Import Errors Directory RecordFormatter.

Definition strings (l : list string) : value := VArr (map VStr l).

(** What one run of a bulk loop leaves behind. *)
Record Tally : Type := {
  results : list obj;
  succeeded : Z;
  failed : Z;
}.

Module Create.

Record Item : Type := {
  type : string;
  name : string;
  content : string;
  ttl : Z;
  proxied : option bool;
  priority : option Z;
  comment : option string;
  tags : option (list string);
  data : option obj;
}.

Record BulkCreateInput : Type := {
  zone_id : string;
  records : list Item;
}.

Definition payload (rec : Item) : obj :=
  let payload : obj :=
    [ ("type", VStr (type rec)); ("name", VStr (name rec));
      ("content", VStr (content rec)); ("ttl", VNum (ttl rec)) ] in
  let payload := match proxied rec with
                 | Some b => set_prop payload "proxied" (VBool b)
                 | None => payload
                 end in
  let payload := match priority rec with
                 | Some z => set_prop payload "priority" (VNum z)
                 | None => payload
                 end in
  let payload := match comment rec with
                 | Some c => if String.eqb c "" then payload
                             else set_prop payload "comment" (VStr c)
                 | None => payload
                 end in
  let payload := match tags rec with
                 | Some t => set_prop payload "tags" (strings t)
                 | None => payload
                 end in
  match data rec with
  | Some o => set_prop payload "data" (VObj o)
  | None => payload
  end.

(** [{ zone_id: params.zone_id, ...payload }]; no payload is keyed
    [zone_id]. *)
Definition request (zone : string) (rec : Item) : obj :=
  ("zone_id", VStr zone) :: payload rec.

Definition success_entry (i : Z) (record : obj) : obj :=
  [ ("index", VNum i); ("success", VBool true);
    ("record", VObj (formatRecord record true)) ].

Definition failure_entry (i : Z) (error : thrown) : obj :=
  [ ("index", VNum i); ("success", VBool false);
    ("error", VStr (handleApiError error)) ].

(** The loop [for (let i = ...; i < params.records.length; i++)] entered at
    index [i] with [recs] the operations from [i] on. *)
Fixpoint loop {D : Type} (client : Client D) (zone : string) (recs : list Item)
    (i : Z) (d : D) (t : Tally) : D * Tally :=
  match recs with
  | [] => (d, t)
  | rec :: rest =>
      let (d, reply) := records_create client d (request zone rec) in
      match reply with
      | inr record =>
          loop client zone rest (i + 1) d
            {| results := results t ++ [success_entry i record];
               succeeded := succeeded t + 1;
               failed := failed t |}
      | inl error =>
          loop client zone rest (i + 1) d
            {| results := results t ++ [failure_entry i error];
               succeeded := succeeded t;
               failed := failed t + 1 |}
      end
  end.

Definition run {D : Type} (client : Client D) (d : D) (params : BulkCreateInput)
  : D * Tally :=
  loop client (zone_id params) (records params) 0 d
    {| results := []; succeeded := 0; failed := 0 |}.

Definition output (params : BulkCreateInput) (t : Tally) : obj :=
  [ ("created", VNum (succeeded t)); ("failed", VNum (failed t));
    ("total", VNum (Z.of_nat (length (records params))));
    ("results", VArr (map VObj (results t))) ].

Definition cf_dns_bulk_create {D : Type} (client : Client D) (d : D)
    (params : BulkCreateInput) : D * ToolResponse :=
  let (d, t) := run client d params in
  (d, ok (stringify (output params t))).

End Create.

Module Update.

Record Item : Type := {
  record_id : string;
  content : option string;
  name : option string;
  ttl : option Z;
  proxied : option bool;
  comment : option string;
  tags : option (list string);
  data : option obj;
}.

Record BulkUpdateInput : Type := {
  zone_id : string;
  records : list Item;
}.

(** [if (x !== undefined) payload[k] = x] *)
Definition with_defined {X : Type} (o : obj) (k : string) (inj : X → value)
    (x : option X) : obj :=
  match x with
  | Some v => set_prop o k (inj v)
  | None => o
  end.

Definition payload (rec : Item) : obj :=
  let payload : obj := [] in
  let payload := with_defined payload "content" VStr (content rec) in
  let payload := with_defined payload "name" VStr (name rec) in
  let payload := with_defined payload "ttl" VNum (ttl rec) in
  let payload := with_defined payload "proxied" VBool (proxied rec) in
  let payload := with_defined payload "comment" VStr (comment rec) in
  let payload := with_defined payload "tags" strings (tags rec) in
  with_defined payload "data" VObj (data rec).

Definition request (zone : string) (rec : Item) : obj :=
  ("zone_id", VStr zone) :: payload rec.

Definition success_entry (i : Z) (rec : Item) (record : obj) : obj :=
  [ ("index", VNum i); ("record_id", VStr (record_id rec)); ("success", VBool true);
    ("record", VObj (formatRecord record true)) ].

Definition failure_entry (i : Z) (rec : Item) (error : thrown) : obj :=
  [ ("index", VNum i); ("record_id", VStr (record_id rec)); ("success", VBool false);
    ("error", VStr (handleApiError error)) ].

Fixpoint loop {D : Type} (client : Client D) (zone : string) (recs : list Item)
    (i : Z) (d : D) (t : Tally) : D * Tally :=
  match recs with
  | [] => (d, t)
  | rec :: rest =>
      let (d, reply) := records_edit client d (record_id rec) (request zone rec) in
      match reply with
      | inr record =>
          loop client zone rest (i + 1) d
            {| results := results t ++ [success_entry i rec record];
               succeeded := succeeded t + 1;
               failed := failed t |}
      | inl error =>
          loop client zone rest (i + 1) d
            {| results := results t ++ [failure_entry i rec error];
               succeeded := succeeded t;
               failed := failed t + 1 |}
      end
  end.

Definition run {D : Type} (client : Client D) (d : D) (params : BulkUpdateInput)
  : D * Tally :=
  loop client (zone_id params) (records params) 0 d
    {| results := []; succeeded := 0; failed := 0 |}.

Definition output (params : BulkUpdateInput) (t : Tally) : obj :=
  [ ("updated", VNum (succeeded t)); ("failed", VNum (failed t));
    ("total", VNum (Z.of_nat (length (records params))));
    ("results", VArr (map VObj (results t))) ].

Definition cf_dns_bulk_update {D : Type} (client : Client D) (d : D)
    (params : BulkUpdateInput) : D * ToolResponse :=
  let (d, t) := run client d params in
  (d, ok (stringify (output params t))).

End Update.

End RecordsBulk.

(** ** tools/records-read.ts: the export tool *)

Module RecordsExport.
Import Errors Directory.

(** [JSON.stringify(value)], without a gap. *)
Fixpoint serialize_compact (v : value) {struct v} : option string :=
  match v with
  | VUndefined => None
  | VNull => Some "null"
  | VBool true => Some "true"
  | VBool false => Some "false"
  | VNum z => Some (number_to_string z)
  | VNaN => Some "null"
  | VStr s => Some (quote s)
  | VArr elems =>
      let parts :=
        (fix items (l : list value) : list string :=
           match l with
           | [] => []
           | x :: r => default "null" (serialize_compact x) :: items r
           end) elems in
      Some ("[" +:+ join "," parts +:+ "]")
  | VObj props =>
      let parts :=
        (fix members (l : list (string * value)) : list string :=
           match l with
           | [] => []
           | (k, x) :: r =>
               match serialize_compact x with
               | Some s => (quote k +:+ ":" +:+ s) :: members r
               | None => members r
               end
           end) props in
      Some ("{" +:+ join "," parts +:+ "}")
  end.

(** The TypeError raised by [text.length] when [text] is [undefined],
    with the message of V8. *)
Definition length_of_undefined : thrown :=
  {| is_APIError := false; is_APIConnectionError := false;
     is_RateLimitError := false; is_AuthenticationError := false;
     is_Error := true; status := VUndefined;
     message := "Cannot read properties of undefined (reading 'length')";
     as_string := "TypeError: Cannot read properties of undefined (reading 'length')" |}.

(** The handler of [cf_dns_export_records]; [records_export] is the call
    [client.dns.records.export] on the Directory. *)
Definition cf_dns_export_records {D : Type} (records_export : D → obj → thrown + value)
    (d : D) (zone_id : string) : ToolResponse :=
  match records_export d [ ("zone_id", VStr zone_id) ] with
  | inl error => caught error
  | inr result =>
      let text := match result with
                  | VStr s => Some s
                  | _ => serialize_compact result
                  end in
      match text with
      | Some text => ok (Pagination.truncateIfNeeded text)
      | None => caught length_of_undefined
      end
  end.

End RecordsExport.

(** ** tools/records-write.ts *)

Module RecordsWrite.
Import Errors Directory RecordFormatter.

(** The client of the write tools: the calls of [Client] and
    [client.dns.records.delete]. *)
Record WriteClient (D : Type) : Type := {
  records : Client D;
  records_delete : D → string → obj → D * (thrown + value);
}.
Arguments records {D}.
Arguments records_delete {D}.

Record CreateRecordInput : Type := {
  create_zone_id : string;
  type : string;
  name : string;
  content : string;
  ttl : Z;
  proxied : option bool;
  priority : option Z;
  comment : option string;
  tags : option (list string);
  data : option obj;
}.

Definition create_payload (params : CreateRecordInput) : obj :=
  let payload : obj :=
    [ ("type", VStr (type params)); ("name", VStr (name params));
      ("content", VStr (content params)); ("ttl", VNum (ttl params)) ] in
  let payload := match proxied params with
                 | Some b => set_prop payload "proxied" (VBool b)
                 | None => payload
                 end in
  let payload := match priority params with
                 | Some z => set_prop payload "priority" (VNum z)
                 | None => payload
                 end in
  let payload := match comment params with
                 | Some c => if String.eqb c "" then payload
                             else set_prop payload "comment" (VStr c)
                 | None => payload
                 end in
  let payload := match tags params with
                 | Some t => set_prop payload "tags" (RecordsBulk.strings t)
                 | None => payload
                 end in
  match data params with
  | Some o => set_prop payload "data" (VObj o)
  | None => payload
  end.

Definition cf_dns_create_record {D : Type} (client : Client D) (d : D)
    (params : CreateRecordInput) : D * ToolResponse :=
  let (d, reply) :=
    records_create client d
      (("zone_id", VStr (create_zone_id params)) :: create_payload params) in
  match reply with
  | inr record =>
      (d, ok (stringify [ ("created", VBool true);
                          ("record", VObj (formatRecord record true)) ]))
  | inl error => (d, caught error)
  end.

Record UpdateRecordInput : Type := {
  update_zone_id : string;
  update_record_id : string;
  new_content : option string;
  new_name : option string;
  new_ttl : option Z;
  new_proxied : option bool;
  new_comment : option string;
  new_tags : option (list string);
  new_data : option obj;
}.

Definition update_payload (params : UpdateRecordInput) : obj :=
  let payload : obj := [] in
  let payload := RecordsBulk.Update.with_defined payload "content" VStr (new_content params) in
  let payload := RecordsBulk.Update.with_defined payload "name" VStr (new_name params) in
  let payload := RecordsBulk.Update.with_defined payload "ttl" VNum (new_ttl params) in
  let payload := RecordsBulk.Update.with_defined payload "proxied" VBool (new_proxied params) in
  let payload := RecordsBulk.Update.with_defined payload "comment" VStr (new_comment params) in
  let payload :=
    RecordsBulk.Update.with_defined payload "tags" RecordsBulk.strings (new_tags params) in
  RecordsBulk.Update.with_defined payload "data" VObj (new_data params).

Definition NO_FIELDS : string :=
  "No fields to update. Provide at least one of: content, name, ttl, proxied, comment, tags, data.".

Definition cf_dns_update_record {D : Type} (client : Client D) (d : D)
    (params : UpdateRecordInput) : D * ToolResponse :=
  let payload := update_payload params in
  if (length payload =? 0)%nat then
    (d, {| text := NO_FIELDS; isError := true |})
  else
    let (d, reply) :=
      records_edit client d (update_record_id params)
        (("zone_id", VStr (update_zone_id params)) :: payload) in
    match reply with
    | inr record =>
        (d, ok (stringify [ ("updated", VBool true);
                            ("record", VObj (formatRecord record true)) ]))
    | inl error => (d, caught error)
    end.

Record DeleteRecordInput : Type := {
  delete_zone_id : string;
  delete_record_id : string;
  confirm : bool;
}.

Definition DELETE_ABORTED : string :=
  "Delete aborted. You must set confirm=true to permanently delete a DNS record.".

(** [`${r.type} ${r.name} → ${r.content}`]; the arrow is kept as its UTF-8
    bytes. *)
Definition record_info (r : obj) : string :=
  String_ (get r "type") +:+ " " +:+ String_ (get r "name") +:+ " → "
  +:+ String_ (get r "content").

Definition cf_dns_delete_record {D : Type} (client : WriteClient D) (d : D)
    (params : DeleteRecordInput) : D * ToolResponse :=
  if negb (confirm params) then
    (d, {| text := DELETE_ABORTED; isError := true |})
  else
    let recordInfo :=
      match records_get (records client) d (delete_record_id params)
              [ ("zone_id", VStr (delete_zone_id params)) ] with
      | inr existing => record_info existing
      | inl _ => delete_record_id params
      end in
    let (d, reply) :=
      records_delete client d (delete_record_id params)
        [ ("zone_id", VStr (delete_zone_id params)) ] in
    match reply with
    | inr _ =>
        (d, ok (stringify [ ("deleted", VBool true);
                            ("record_id", VStr (delete_record_id params));
                            ("was", VStr recordInfo) ]))
    | inl error => (d, caught error)
    end.

End RecordsWrite.

(** ** formatters/zone.ts *)

Module ZoneFormatter.

Definition is_array (v : value) : bool :=
  match v with VArr _ => true | _ => false end.

(** [...(v ? { k: String(v) } : {})] *)
Definition spread_if_truthy (k : string) (v : value) : obj :=
  if truthy v then [ (k, VStr (String_ v)) ] else [].

Definition formatZone (zone : obj) (concise : bool) : obj :=
  if negb concise then zone
  else
    [ ("id", VStr (String_ (nullish (get zone "id") (VStr ""))));
      ("name", VStr (String_ (nullish (get zone "name") (VStr ""))));
      ("status", VStr (String_ (nullish (get zone "status") (VStr ""))));
      ("name_servers", if is_array (get zone "name_servers")
                       then get zone "name_servers"
                       else VArr []) ]
    ++ spread_if_truthy "created_on" (get zone "created_on")
    ++ spread_if_truthy "modified_on" (get zone "modified_on").

Definition formatZones (zones : list obj) (concise : bool) : list obj :=
  map (fun z => formatZone z concise) zones.

End ZoneFormatter.

(** ** tools/zones.ts *)

Module Zones.
Import Errors Directory ZoneFormatter.

(** The two calls the zone tools make on [client.zones]. *)
Record ZoneClient (D : Type) : Type := {
  zones_list : D → obj → thrown + PageIterator;
  zones_get : D → obj → thrown + obj;
}.
Arguments zones_list {D}.
Arguments zones_get {D}.

Record ListZonesInput : Type := {
  concise : bool;
  include_details : bool;
  page : Z;
  per_page : Z;
  filter_name : option string;
  filter_status : option string;
  filter_account_id : option string;
}.

Definition queryParams (params : ListZonesInput) : obj :=
  let q : obj := [ ("page", VNum (page params)); ("per_page", VNum (per_page params)) ] in
  let q := RecordsRead.with_string q "name" (filter_name params) in
  let q := RecordsRead.with_string q "status" (filter_status params) in
  RecordsRead.with_string q "account.id" (filter_account_id params).

(** The loop [for await (const zone of response) zones.push(zone)],
    entered with [zones] gathered so far. *)
Fixpoint gather (zones rest : list obj) (failure : option thrown) : thrown + list obj :=
  match rest with
  | [] => match failure with
          | Some error => inl error
          | None => inr zones
          end
  | zone :: rest' => gather (zones ++ [zone]) rest' failure
  end.

Definition pagination_props (m : Pagination.PaginationMeta) : obj :=
  [ ("total", VNum (Pagination.total m));
    ("count", VNum (Pagination.count m));
    ("page", VNum (Pagination.page m));
    ("per_page", VNum (Pagination.per_page m));
    ("has_more", VBool (Pagination.has_more m)) ].

Definition zones_output (params : ListZonesInput) (zones : list obj) : obj :=
  let concise := RecordsRead.resolve_concise (include_details params) (concise params) in
  let total := Z.of_nat (length zones) in
  let formatted := formatZones zones concise in
  let pagination :=
    Pagination.buildPaginationMeta total formatted (page params) (per_page params) in
  let start := (page params - 1) * per_page params in
  let paged := slice formatted start (start + per_page params) in
  [ ("pagination",
     VObj (set_prop (pagination_props pagination) "count"
             (VNum (Z.of_nat (length paged)))));
    ("zones", RecordsRead.array paged) ].

Definition cf_dns_list_zones {D : Type} (client : ZoneClient D) (d : D)
    (params : ListZonesInput) : ToolResponse :=
  match zones_list client d (queryParams params) with
  | inl error => caught error
  | inr response =>
      match gather [] (yielded response) (failure response) with
      | inl error => caught error
      | inr zones =>
          ok (Pagination.truncateIfNeeded (stringify (zones_output params zones)))
      end
  end.

Record GetZoneInput : Type := {
  zone_id : option string;
  zone_name : option string;
  get_concise : bool;
  get_include_details : bool;
}.

(** A string parameter that is present and not empty. *)
Definition given (s : option string) : bool :=
  match s with
  | Some t => negb (String.eqb t "")
  | None => false
  end.

Definition not_found (zone_name : string) : string :=
  "No zone found for domain '" +:+ zone_name +:+ "'.".

Definition NO_IDENTIFIER : string := "Provide either zone_id or zone_name.".

(** The part of the handler after [zoneId] is settled. *)
Definition get_by_id {D : Type} (client : ZoneClient D) (d : D) (concise : bool)
    (zoneId : option string) : ToolResponse :=
  if negb (given zoneId) then {| text := NO_IDENTIFIER; isError := true |}
  else
    match zones_get client d [ ("zone_id", VStr (default "" zoneId)) ] with
    | inl error => caught error
    | inr zone => ok (stringify [ ("zone", VObj (formatZone zone concise)) ])
    end.

Definition cf_dns_get_zone {D : Type} (client : ZoneClient D) (d : D)
    (params : GetZoneInput) : ToolResponse :=
  let concise :=
    RecordsRead.resolve_concise (get_include_details params) (get_concise params) in
  if negb (given (zone_id params)) && given (zone_name params) then
    match zones_list client d [ ("name", VStr (default "" (zone_name params))) ] with
    | inl error => caught error
    | inr search =>
        match gather [] (yielded search) (failure search) with
        | inl error => caught error
        | inr [] =>
            {| text := not_found (default "" (zone_name params)); isError := true |}
        | inr (first :: _) =>
            get_by_id client d concise (Some (String_ (get first "id")))
        end
    end
  else get_by_id client d concise (zone_id params).

End Zones.

(** ** services/auth.ts: the API key of the HTTP transport

    The cached key [_apiKey] and the environment variable
    [CLOUDFLARE_DNS_MCP_API_KEY] are arguments; [randomBytes] is the
    generator of [node:crypto].  The warning written to the error stream
    is left out. *)

Module Auth.

(** A string that is neither [null], [undefined] nor empty. *)
Definition present (s : option string) : bool :=
  match s with
  | Some t => negb (String.eqb t "")
  | None => false
  end.

Definition hex_of_byte (b : Byte.byte) : string :=
  let n := N.to_nat (Byte.to_N b) in
  String (hex_digit (n / 16)) (String (hex_digit (n mod 16)) EmptyString).

(** [buffer.toString("hex")] *)
Fixpoint to_hex (bytes : list Byte.byte) : string :=
  match bytes with
  | [] => EmptyString
  | b :: rest => hex_of_byte b +:+ to_hex rest
  end.

(** Returns the new value of [_apiKey] and the key. *)
Definition getOrCreateApiKey (randomBytes : nat → list Byte.byte)
    (_apiKey envKey : option string) : option string * string :=
  if present _apiKey then (_apiKey, default "" _apiKey)
  else if present envKey && (16 <=? str_length (default "" envKey)) then
    (Some (default "" envKey), default "" envKey)
  else
    let key := to_hex (randomBytes 32%nat) in
    (Some key, key).

(** [s.charCodeAt(i)]; past the end it is [NaN], which the bit operators
    read as 0. *)
Definition charCodeAt (s : string) (i : nat) : Z :=
  match String.get i s with
  | Some c => Z.of_nat (nat_of_ascii c)
  | None => 0
  end.

(** The comparison loop entered at index [i] with [steps] iterations to
    go. *)
Fixpoint mismatch_loop (provided expected : string) (i steps : nat) (mismatch : Z) : Z :=
  match steps with
  | O => mismatch
  | S steps' =>
      mismatch_loop provided expected (S i) steps'
        (Z.lor mismatch (Z.lxor (charCodeAt provided i) (charCodeAt expected i)))
  end.

(** [a || b] on optional strings. *)
Definition or_else (a b : option string) : option string :=
  if present a then a else b.

Definition validateApiKey (randomBytes : nat → list Byte.byte)
    (_apiKey envKey headerValue queryValue : option string) : option string * bool :=
  let (_apiKey, expected) := getOrCreateApiKey randomBytes _apiKey envKey in
  let provided := or_else headerValue queryValue in
  if negb (present provided) then (_apiKey, false)
  else
    let provided := default "" provided in
    if negb (String.length provided =? String.length expected)%nat then (_apiKey, false)
    else
      (_apiKey,
       mismatch_loop provided expected 0 (String.length provided) 0 =? 0).

End Auth.

(** ** The bearer-token authentication (second unit of
    services/cloudflare.ts)

    [_bearerToken] is [None] while unchecked, [Some None] for [null]. *)

Module BearerAuth.

Definition trim (s : string) : string := rtrim (ltrim s).

Definition getBearerToken (_bearerToken : option (option string))
    (MCP_API_TOKEN : option string) : option (option string) * option string :=
  match _bearerToken with
  | Some cached => (_bearerToken, cached)
  | None =>
      let token := trim (default "" MCP_API_TOKEN) in
      let value := if String.eqb token "" then None else Some token in
      (Some value, value)
  end.

(** *** The match of [/^Bearer\s+(.+)$/i] *)

Definition lower (c : ascii) : ascii :=
  let n := nat_of_ascii c in
  if ((65 <=? n) && (n <=? 90))%nat then ascii_of_nat (n + 32) else c.

(** The letters of [pattern] (given in lower case) at the start of [s],
    in either case; the rest of [s]. *)
Fixpoint letters (pattern s : string) : option string :=
  match pattern with
  | EmptyString => Some s
  | String p pattern' =>
      match s with
      | String c s' => if Ascii.eqb (lower c) p then letters pattern' s' else None
      | EmptyString => None
      end
  end.

(** The characters [.] does not match. *)
Definition is_line_terminator (c : ascii) : bool :=
  let n := nat_of_ascii c in ((n =? 10) || (n =? 13))%nat.

Fixpoint no_line_terminator (s : string) : bool :=
  match s with
  | EmptyString => true
  | String c r => negb (is_line_terminator c) && no_line_terminator r
  end.

(** [(.+)$] matches all of [s]. *)
Definition dot_plus (s : string) : bool :=
  negb (String.eqb s "") && no_line_terminator s.

(** The length of the longest run of [\s] at the start of [s]. *)
Fixpoint space_run (s : string) : nat :=
  match s with
  | String c r => if is_space c then S (space_run r) else O
  | EmptyString => O
  end.

(** [\s+(.+)$] with [\s+] taking [k] characters, then fewer: the greedy
    quantifier gives characters back one at a time, down to one. *)
Fixpoint spaces_then_rest (k : nat) (s : string) : option string :=
  match k with
  | O => None
  | S k' =>
      let group := str_drop k s in
      if dot_plus group then Some group else spaces_then_rest k' s
  end.

(** [authHeader.match(...)]: the captured group, when the header
    matches. *)
Definition match_bearer (authHeader : string) : option string :=
  match letters "bearer" authHeader with
  | Some rest => spaces_then_rest (space_run rest) rest
  | None => None
  end.

(** *** safeCompare *)

(** [Buffer.from(s)]: the UTF-8 encoding, one byte below 128 and two
    bytes from there to 255. *)
Fixpoint utf8 (s : string) : list nat :=
  match s with
  | EmptyString => []
  | String c r =>
      let n := nat_of_ascii c in
      if (n <? 128)%nat then n :: utf8 r
      else (192 + n / 64)%nat :: (128 + n mod 64)%nat :: utf8 r
  end.

Fixpoint bytes_equal (a b : list nat) : bool :=
  match a, b with
  | [], [] => true
  | x :: a', y :: b' => (x =? y)%nat && bytes_equal a' b'
  | _, _ => false
  end.

(** [crypto.timingSafeEqual]: [None] is the RangeError for buffers of
    different lengths. *)
Definition timingSafeEqual (a b : list nat) : option bool :=
  if (length a =? length b)%nat then Some (bytes_equal a b) else None.

Definition safeCompare (a b : string) : bool :=
  if negb (String.length a =? String.length b)%nat then false
  else
    match timingSafeEqual (utf8 a) (utf8 b) with
    | Some result => result
    | None => false
    end.

(** [None] is the [null] result: bearer authentication is not
    configured. *)
Definition validateBearerToken (_bearerToken : option (option string))
    (MCP_API_TOKEN authHeader : option string)
  : option (option string) * option bool :=
  let (_bearerToken, expected) := getBearerToken _bearerToken MCP_API_TOKEN in
  if negb (Auth.present expected) then (_bearerToken, None)
  else if negb (Auth.present authHeader) then (_bearerToken, Some false)
  else
    match match_bearer (default "" authHeader) with
    | None => (_bearerToken, Some false)
    | Some provided => (_bearerToken, Some (safeCompare provided (default "" expected)))
    end.

(** The X-API-Key check of this unit; the key is the one
    [getOrCreateApiKey] returns. *)
Definition validateApiKey (randomBytes : nat → list Byte.byte)
    (_apiKey envKey headerValue queryValue : option string) : option string * bool :=
  let (_apiKey, expected) := Auth.getOrCreateApiKey randomBytes _apiKey envKey in
  let provided := Auth.or_else headerValue queryValue in
  if negb (Auth.present provided) then (_apiKey, false)
  else (_apiKey, safeCompare (default "" provided) expected).

End BearerAuth.

(** ** services/cloudflare.ts: the client singleton

    A client is identified by the token it was built with; [_client] is
    the cached client and [apiToken] the environment variable
    [CLOUDFLARE_API_TOKEN]. *)

Module CloudflareService.
Import Errors.

(** [new Error(message)] *)
Definition Error_ (message : string) : thrown :=
  {| is_APIError := false; is_APIConnectionError := false;
     is_RateLimitError := false; is_AuthenticationError := false;
     is_Error := true; status := VUndefined; message := message;
     as_string := "Error: " +:+ message |}.

Definition TOKEN_REQUIRED : string :=
  "CLOUDFLARE_API_TOKEN environment variable is required. " +:+
  "Create a token at https://dash.cloudflare.com/profile/api-tokens with Zone:Read and DNS:Edit permissions.".

(** Returns the new value of [_client] and the client, or the error
    thrown. *)
Definition getClient (_client apiToken : option string)
  : option string * (thrown + string) :=
  match _client with
  | Some client => (_client, inr client)
  | None =>
      if Auth.present apiToken then
        (Some (default "" apiToken), inr (default "" apiToken))
      else (None, inl (Error_ TOKEN_REQUIRED))
  end.

Definition resetClient (_client : option string) : option string := None.

(** [s.includes(sub)] *)
Fixpoint includes (s sub : string) : bool :=
  String.prefix sub s
  || match s with
     | String _ r => includes r sub
     | EmptyString => false
     end.

Definition not_active (status : value) : string :=
  "API token is not active (status: " +:+ String_ status +:+
  "). Create a new token at https://dash.cloudflare.com/profile/api-tokens".

Definition failed_to_verify (error : thrown) : string :=
  "Failed to verify API token: "
  +:+ (if is_Error error then message error else as_string error)
  +:+ ". Ensure CLOUDFLARE_API_TOKEN is a valid API token (not a global API key).".

(** [v === s] for a string [s]. *)
Definition strict_equals_string (v : value) (s : string) : bool :=
  match v with
  | VStr t => String.eqb t s
  | _ => false
  end.

(** The [catch] clause of [validateToken]. *)
Definition rethrow (error : thrown) : thrown :=
  if is_Error error && includes (message error) "not active" then error
  else Error_ (failed_to_verify error).

(** [verify] is the call [client.user.tokens.verify()] made with the
    given client. *)
Definition validateToken (verify : string → thrown + obj)
    (_client apiToken : option string) : option string * (thrown + obj) :=
  let (_client, client) := getClient _client apiToken in
  match client with
  | inl error => (_client, inl error)
  | inr client =>
      match verify client with
      | inr result =>
          if negb (strict_equals_string (get result "status") "active") then
            (_client, inl (rethrow (Error_ (not_active (get result "status")))))
          else
            (_client, inr [ ("status", get result "status"); ("id", get result "id") ])
      | inl error => (_client, inl (rethrow error))
      end
  end.

End CloudflareService.

(** ** The entry point: access to the HTTP transport

    The state is the cached bearer token with the cached API key; the
    environment gives [MCP_API_TOKEN] and [CLOUDFLARE_DNS_MCP_API_KEY].
    A request is read through its [Authorization] and [X-API-Key] headers
    and its [api_key] query parameter, each [None] when absent.  What the
    route does once access is granted is left out: [Served] stands for
    it.  The checks are those of the unit that has all three of
    [getBearerToken], [validateBearerToken] and [validateApiKey]. *)

Module EntryPoint.

Record AuthState : Type := {
  _bearerToken : option (option string);
  _apiKey : option string;
}.

Record Environment : Type := {
  MCP_API_TOKEN : option string;
  CLOUDFLARE_DNS_MCP_API_KEY : option string;
}.

Record Request : Type := {
  authorization : option string;
  x_api_key : option string;
  api_key : option string;
}.

(** [c.json({ error }, status)], or the request going on to the MCP
    transport. *)
Inductive Response : Type :=
  | Served
  | Json (status : Z) (error : string).

(** The middleware [app.use("/*", ...)]; [None] is [next()]. *)
Definition bearer_middleware (env : Environment) (st : AuthState) (req : Request)
  : AuthState * option Response :=
  let (cached, result) :=
    BearerAuth.validateBearerToken (_bearerToken st) (MCP_API_TOKEN env)
      (authorization req) in
  let st := {| _bearerToken := cached; _apiKey := _apiKey st |} in
  match result with
  | None => (st, None)
  | Some valid =>
      if negb valid then (st, Some (Json 401 "Unauthorized")) else (st, None)
  end.

(** The route [app.post("/mcp", ...)], up to the creation of the server. *)
Definition mcp_route (randomBytes : nat → list Byte.byte) (env : Environment)
    (st : AuthState) (req : Request) : AuthState * Response :=
  let (cached, token) :=
    BearerAuth.getBearerToken (_bearerToken st) (MCP_API_TOKEN env) in
  if negb (Auth.present token) then
    let (key, valid) :=
      BearerAuth.validateApiKey randomBytes (_apiKey st)
        (CLOUDFLARE_DNS_MCP_API_KEY env) (x_api_key req) (api_key req) in
    let st := {| _bearerToken := cached; _apiKey := key |} in
    if negb valid then
      (st, Json 401 "Unauthorized. Provide X-API-Key header or ?api_key= query parameter.")
    else (st, Served)
  else ({| _bearerToken := cached; _apiKey := _apiKey st |}, Served).

(** A [POST /mcp]: the middleware, then the route. *)
Definition post_mcp (randomBytes : nat → list Byte.byte) (env : Environment)
    (st : AuthState) (req : Request) : AuthState * Response :=
  let (st, early) := bearer_middleware env st req in
  match early with
  | Some response => (st, response)
  | None => mcp_route randomBytes env st req
  end.

End EntryPoint.

(** * Specifications *)

(** ** Size Guard *)

Module SizeGuardSpec.
Import Constants Pagination.

(** [p] is the offset of the last newline among the first [bound]
    characters of [t]. *)
Definition last_newline_within (t : string) (bound p : Z) : Prop :=
  0 <= p < bound
  ∧ String.get (Z.to_nat p) t = Some newline
  ∧ ∀ q, p < q < bound → String.get (Z.to_nat q) t ≠ Some newline.

Definition no_newline_within (t : string) (bound : Z) : Prop :=
  ∀ q, 0 <= q < bound → String.get (Z.to_nat q) t ≠ Some newline.

(** [n] copies of a character, for sample texts. *)
Fixpoint filler (n : nat) (c : ascii) : string :=
  match n with
  | O => EmptyString
  | S n' => String c (filler n' c)
  end.

End SizeGuardSpec.

(** A text of 30,000 characters whose only newline is at offset 24,500. *)
Definition sample_text : string :=
  SizeGuardSpec.filler (Z.to_nat 24500) "a"
  +:+ String Pagination.newline (SizeGuardSpec.filler (Z.to_nat 5499) "a").

(** ** Summarizer *)

Module SummarySpec.
Import RecordFormatter.

(** The count that a value of the histogram stands for; a value that is
    not a number stands for none. *)
Definition count_of (v : value) : Z :=
  match v with
  | VNum z => z
  | _ => 0
  end.

(** The sum of all bucket counts of a type histogram. *)
Definition sum_counts (h : obj) : Z :=
  fold_right (fun kv acc => count_of (snd kv) + acc) 0 h.

(** A name that a plain object inherits from [Object.prototype]. *)
Definition inherited (k : string) : bool :=
  String.eqb k "__proto__" || has_key Object_prototype_functions k.

(** No record of [R] has the name of a member of [Object.prototype] for
    its type. *)
Definition plain_types (R : list obj) : Prop :=
  ∀ r, r ∈ R → inherited (bucket r) = false.

(** How many records of [R] fall in bucket [k]. *)
Definition count_bucket (k : string) (R : list obj) : Z :=
  Z.of_nat (length (List.filter (fun r => String.eqb (bucket r) k) R)).

(** How many records of [R] have a truthy [proxied] field. *)
Definition count_proxied (R : list obj) : Z :=
  Z.of_nat (length (List.filter (fun r => truthy (get r "proxied")) R)).

(** A record whose [type] field is absent or null. *)
Definition type_missing (r : obj) : Prop :=
  get r "type" = VUndefined ∨ get r "type" = VNull.

(** What the three counters of the loop hold once the records [R] have
    been seen. *)
Definition counted (acc : obj * Z * Z) (R : list obj) : Prop :=
  let '(byType, proxied, dnsOnly) := acc in
  NoDup (map fst byType)
  ∧ (∀ k, lookup_prop byType k
          = if count_bucket k R =? 0 then None else Some (VNum (count_bucket k R)))
  ∧ sum_counts byType = Z.of_nat (length R)
  ∧ proxied = count_proxied R
  ∧ dnsOnly = Z.of_nat (length R) - count_proxied R.

End SummarySpec.

(** ** Query Engine *)

Module QuerySpec.
Import Directory RecordsRead.

(** The three forms of a list-records response. *)
Inductive form : Type := SummaryForm | SampleForm | PaginatedForm.

(** The mode a request selects: summary before sample before paginated. *)
Definition selected_mode (params : ListRecordsInput) : form :=
  if summary_only params then SummaryForm
  else if random_sample params then SampleForm
  else PaginatedForm.

(** The form of an output object, read off its top-level fields: a
    summary alone; a sample header with records; or pagination metadata
    with records, which carries the attached summary of large zones. *)
(** The same request with another value of the [concise] flag. *)
Definition with_concise (b : bool) (params : ListRecordsInput) : ListRecordsInput :=
  {| zone_id := zone_id params; concise := b;
     include_details := include_details params;
     page := page params; per_page := per_page params;
     random_sample := random_sample params; sample_size := sample_size params;
     filter_type := filter_type params; filter_name := filter_name params;
     filter_content := filter_content params;
     filter_proxied := filter_proxied params;
     filter_comment := filter_comment params; filter_tag := filter_tag params;
     order := order params; summary_only := summary_only params |}.

Definition with_get_concise (b : bool) (params : GetRecordInput) : GetRecordInput :=
  {| get_zone_id := get_zone_id params; record_id := record_id params;
     get_concise := b; get_include_details := get_include_details params |}.

Fixpoint same_keys (ks expected : list string) : bool :=
  match ks, expected with
  | [], [] => true
  | k :: ks', e :: expected' => String.eqb k e && same_keys ks' expected'
  | _, _ => false
  end.

Definition form_of (o : obj) : option form :=
  let keys := map fst o in
  if same_keys keys ["summary"] then Some SummaryForm
  else if same_keys keys ["sample"; "records"] then Some SampleForm
  else if same_keys keys ["pagination"; "records"] then Some PaginatedForm
  else if same_keys keys ["pagination"; "summary"; "records"] then Some PaginatedForm
  else None.

End QuerySpec.

(** ** A sample Directory

    An in-memory zone, used to run the handlers on concrete requests. *)

Module SampleDirectory.
Import Errors Directory.

Definition api_error (code : Z) (msg : string) : thrown :=
  {| is_APIError := true; is_APIConnectionError := false;
     is_RateLimitError := false; is_AuthenticationError := false;
     is_Error := true; status := VNum code; message := msg;
     as_string := "Error: " +:+ msg |}.

Definition has_id (id : string) (record : obj) : bool :=
  match get record "id" with
  | VStr s => String.eqb s id
  | _ => false
  end.

(** Stores the request under a fresh identifier; an empty content is a
    bad request. *)
Definition sample_create (d : list obj) (req : obj) : list obj * (thrown + obj) :=
  match get req "content" with
  | VStr "" => (d, inl (api_error 400 "content must not be empty"))
  | _ =>
      let record :=
        ("id", VStr ("rec" +:+ number_to_string (Z.of_nat (length d)))) :: req in
      (d ++ [record], inr record)
  end.

(** Overwrites the fields of the request in the stored record. *)
Definition sample_edit (d : list obj) (id : string) (req : obj)
  : list obj * (thrown + obj) :=
  match List.find (has_id id) d with
  | Some old =>
      let record := fold_left (fun o kv => set_prop o (fst kv) (snd kv)) req old in
      (map (fun r => if has_id id r then record else r) d, inr record)
  | None => (d, inl (api_error 404 "record not found"))
  end.

Definition sample_client : Client (list obj) :=
  {| records_list := fun d _ => inr {| yielded := d; failure := None |};
     records_get := fun d id _ =>
       match List.find (has_id id) d with
       | Some r => inr r
       | None => inl (api_error 404 "record not found")
       end;
     records_create := sample_create;
     records_edit := sample_edit |}.

Definition stored (id type name content : string) (ttl : Z) (proxied : bool) : obj :=
  [ ("id", VStr id); ("zone_id", VStr "zone1"); ("type", VStr type);
    ("name", VStr name); ("content", VStr content); ("ttl", VNum ttl);
    ("proxied", VBool proxied) ].

Definition address_record : obj :=
  stored "rec0" "A" "www.example.com" "192.0.2.1" 1 true.

Definition mail_record : obj :=
  stored "rec1" "MX" "example.com" "mail.example.com" 300 false
  ++ [ ("priority", VNum 10) ].

Definition text_record : obj :=
  stored "rec2" "TXT" "example.com" "v=spf1 -all" 1 false.

Definition sample_zone : list obj := [ address_record; mail_record; text_record ].

End SampleDirectory.

(** ** Sample requests *)

Module SampleRequests.
Import RecordsRead RecordsBulk SampleDirectory.

(** A stream of draws that are all zero. *)
Definition zeros : nat → Pagination.draw := fun _ => Pagination.Draw 0 0.

Definition list_request (page per_page : Z) (summary_only random_sample : bool)
  : ListRecordsInput :=
  {| zone_id := "zone1"; concise := true; include_details := false;
     page := page; per_page := per_page;
     random_sample := random_sample; sample_size := 5;
     filter_type := None; filter_name := None; filter_content := None;
     filter_proxied := None; filter_comment := None; filter_tag := None;
     order := None; summary_only := summary_only |}.

Definition get_request (id : string) (concise details : bool) : GetRecordInput :=
  {| get_zone_id := "zone1"; record_id := id;
     get_concise := concise; get_include_details := details |}.

Definition txt_item (content : string) : Create.Item :=
  {| Create.type := "TXT"; Create.name := "bulk.example.com";
     Create.content := content; Create.ttl := 1;
     Create.proxied := None; Create.priority := None; Create.comment := None;
     Create.tags := None; Create.data := None |}.

(** One hundred text records of 300 characters each. *)
Definition large_batch : Create.BulkCreateInput :=
  {| Create.zone_id := "zone1";
     Create.records := repeat (txt_item (SizeGuardSpec.filler 300 "x")) 100 |}.

(** Five operations, the one at index 3 with an empty content. *)
Definition batch_of_five : Create.BulkCreateInput :=
  {| Create.zone_id := "zone1";
     Create.records :=
       [ txt_item "a"; txt_item "b"; txt_item "c"; txt_item ""; txt_item "e" ] |}.

End SampleRequests.

(** ** Bulk Mutation Engine *)

Module BulkSpec.
Import Errors Directory RecordsBulk.

Section Replay.
Context {D X : Type}.
(** One Directory call per operation. *)
Variable call : D → X → D * (thrown + obj).

(** What the Directory answers when the operations are issued one
    after the other, each in the state the previous one left. *)
Fixpoint replies (d : D) (ops : list X) : list (thrown + obj) :=
  match ops with
  | [] => []
  | op :: rest => let (d', reply) := call d op in reply :: replies d' rest
  end.

(** The state of the Directory after all of them. *)
Fixpoint final_state (d : D) (ops : list X) : D :=
  match ops with
  | [] => d
  | op :: rest => final_state (fst (call d op)) rest
  end.

(** The outcome entries of the operations, numbered from [i]. *)
Fixpoint outcomes (entry : Z → X → thrown + obj → obj) (i : Z) (d : D) (ops : list X)
  : list obj :=
  match ops with
  | [] => []
  | op :: rest =>
      let (d', reply) := call d op in
      entry i op reply :: outcomes entry (i + 1) d' rest
  end.
End Replay.

Definition is_failure (reply : thrown + obj) : bool :=
  match reply with inl _ => true | inr _ => false end.

(** The number of failed calls among the replies. *)
Definition failures (rs : list (thrown + obj)) : Z :=
  Z.of_nat (length (List.filter is_failure rs)).

Definition create_call {D : Type} (client : Client D) (zone : string)
  : D → Create.Item → D * (thrown + obj) :=
  fun d rec => records_create client d (Create.request zone rec).

Definition update_call {D : Type} (client : Client D) (zone : string)
  : D → Update.Item → D * (thrown + obj) :=
  fun d rec => records_edit client d (Update.record_id rec) (Update.request zone rec).

Definition create_entry (i : Z) (rec : Create.Item) (reply : thrown + obj) : obj :=
  match reply with
  | inr record => Create.success_entry i record
  | inl error => Create.failure_entry i error
  end.

Definition update_entry (i : Z) (rec : Update.Item) (reply : thrown + obj) : obj :=
  match reply with
  | inr record => Update.success_entry i rec record
  | inl error => Update.failure_entry i rec error
  end.

(** What a BulkOutcome entry must say about operation [i] and its reply. *)
Definition describes (entry : obj) (i : nat) (reply : thrown + obj) : Prop :=
  get entry "index" = VNum (Z.of_nat i)
  ∧ match reply with
    | inr record =>
        get entry "success" = VBool true
        ∧ get entry "record" = VObj (RecordFormatter.formatRecord record true)
    | inl error =>
        get entry "success" = VBool false
        ∧ get entry "error" = VStr (handleApiError error)
    end.

End BulkSpec.

(** ** Sampler *)

Module SamplerSpec.
Import Pagination.

Section Procedure.
Context {A : Type}.

(** Step [k] of the backward pass over a working copy of length [len]
    (the first step is step 0): the position [len - 1 - k] is swapped
    with the position drawn among itself and the earlier ones. *)
Definition swap_step (rand : nat → draw) (len : nat) (a : list A) (k : nat) : list A :=
  let i := (len - 1 - k)%nat in
  swap a i (floor_times (rand k) (i + 1)).

(** The working copy of [R] after the first [count] swaps. *)
Definition after_swaps (rand : nat → draw) (R : list A) (count : nat) : list A :=
  fold_left (swap_step rand (length R)) (seq 0 count) R.

(** The procedure in the words of the specification: stop after [n]
    swaps and return the last [n] positions of the working copy. *)
Definition partial_fisher_yates (rand : nat → draw) (R : list A) (n : nat) : list A :=
  drop (length R - n) (after_swaps rand R n).
End Procedure.

End SamplerSpec.

(** ** Further specifications *)

Module ExtraSpec.
Import Errors Directory RecordsBulk RecordsWrite.

(** The fields every concise record has, and those it may have. *)
Definition CONCISE_CORE : list string := [ "id"; "type"; "name"; "content"; "ttl" ].

Definition CONCISE_OPTIONAL : list string :=
  [ "proxied"; "comment"; "created_on"; "modified_on"; "priority"; "weight"; "port" ].

Definition ZONE_CORE : list string := [ "id"; "name"; "status"; "name_servers" ].

Definition ZONE_OPTIONAL : list string := [ "created_on"; "modified_on" ].

(** The operation of a bulk creation that says what a single creation
    says. *)
Definition as_item (params : CreateRecordInput) : Create.Item :=
  {| Create.type := type params; Create.name := name params;
     Create.content := content params; Create.ttl := ttl params;
     Create.proxied := proxied params; Create.priority := priority params;
     Create.comment := comment params; Create.tags := tags params;
     Create.data := data params |}.

Definition as_update_item (params : UpdateRecordInput) : Update.Item :=
  {| Update.record_id := update_record_id params;
     Update.content := new_content params; Update.name := new_name params;
     Update.ttl := new_ttl params; Update.proxied := new_proxied params;
     Update.comment := new_comment params; Update.tags := new_tags params;
     Update.data := new_data params |}.

Definition absent {X : Type} (x : option X) : bool :=
  match x with Some _ => false | None => true end.

(** No field to change is given. *)
Definition no_fields (params : UpdateRecordInput) : bool :=
  absent (new_content params) && absent (new_name params) && absent (new_ttl params)
  && absent (new_proxied params) && absent (new_comment params)
  && absent (new_tags params) && absent (new_data params).

(** The answer of a single write tool for the outcome that an entry of a
    bulk result records; [verb] is [created] or [updated]. *)
Definition single_response (verb : string) (entry : obj) : ToolResponse :=
  match get entry "success" with
  | VBool true =>
      ok (stringify [ (verb, VBool true); ("record", get entry "record") ])
  | _ => {| text := String_ (get entry "error"); isError := true |}
  end.

(** What a filter given as an optional string puts in a request:
    nothing when it is absent or empty. *)
Definition filter_value (s : option string) : value :=
  match s with
  | Some t => if String.eqb t "" then VUndefined else VStr t
  | None => VUndefined
  end.

(** A string of white space only. *)
Fixpoint all_space (s : string) : bool :=
  match s with
  | EmptyString => true
  | String c r => is_space c && all_space r
  end.

(** [header] is the word [bearer], in any case, then white space, then
    [token]. *)
Definition bearer_header (header token : string) : Prop :=
  ∃ word ws,
    header = word +:+ ws +:+ token
    ∧ BearerAuth.letters "bearer" word = Some ""
    ∧ ws ≠ "" ∧ all_space ws = true.

(** The answer of the bearer check for the token [token], once the
    check is configured. *)
Definition header_check (token : string) (authHeader : option string) : bool :=
  if negb (Auth.present authHeader) then false
  else match BearerAuth.match_bearer (default "" authHeader) with
       | None => false
       | Some provided => BearerAuth.safeCompare provided token
       end.

(** The key that a request gives: the one of the header when there is
    one, and else the one of the query. *)
Definition given_key (headerValue queryValue : option string) : option string :=
  if Auth.present headerValue then headerValue else queryValue.

(** A reply of the Directory is a rejection. *)
Definition rejected {X : Type} (reply : thrown + X) : bool :=
  match reply with inl _ => true | inr _ => false end.

End ExtraSpec.

(** ** Sample clients of the write and zone tools *)

Module SampleClients.
Import Errors Directory RecordsWrite Zones SampleDirectory.

Definition sample_delete (d : list obj) (id : string) (req : obj)
  : list obj * (thrown + value) :=
  match List.find (has_id id) d with
  | Some _ => (List.filter (fun r => negb (has_id id r)) d, inr (VObj [ ("id", VStr id) ]))
  | None => (d, inl (api_error 404 "record not found"))
  end.

Definition sample_write_client : WriteClient (list obj) :=
  {| records := sample_client; records_delete := sample_delete |}.

Definition example_zone : obj :=
  [ ("id", VStr "zone1"); ("name", VStr "example.com"); ("status", VStr "active");
    ("name_servers", VArr [ VStr "ns1.example.net"; VStr "ns2.example.net" ]);
    ("account", VObj [ ("id", VStr "acct1") ]);
    ("created_on", VStr "2024-01-01T00:00:00Z") ].

Definition has_name (name : value) (zone : obj) : bool :=
  match name, get zone "name" with
  | VStr n, VStr m => String.eqb n m
  | _, _ => false
  end.

(** The zones of an account held as a list; a listing by name returns
    the zones of that name. *)
Definition sample_zone_client : ZoneClient (list obj) :=
  {| zones_list := fun d query =>
       inr {| yielded := match get query "name" with
                         | VUndefined => d
                         | name => List.filter (has_name name) d
                         end;
              failure := None |};
     zones_get := fun d query =>
       match List.find (fun z => match get query "zone_id", get z "id" with
                                 | VStr a, VStr b => String.eqb a b
                                 | _, _ => false
                                 end) d with
       | Some z => inr z
       | None => inl (api_error 404 "zone not found")
       end |}.

Definition other_zone : obj :=
  [ ("id", VStr "zone2"); ("name", VStr "example.org"); ("status", VStr "pending");
    ("name_servers", VNull) ].

Definition sample_zones : list obj := [ example_zone; other_zone ].

Definition list_zones_request (page per_page : Z) : ListZonesInput :=
  {| Zones.concise := true; Zones.include_details := false;
     Zones.page := page; Zones.per_page := per_page;
     Zones.filter_name := None; Zones.filter_status := None;
     Zones.filter_account_id := None |}.

Definition get_zone_request (id name : option string) : GetZoneInput :=
  {| Zones.zone_id := id; Zones.zone_name := name;
     Zones.get_concise := true; Zones.get_include_details := false |}.

(** An export that writes one line for each record of the Directory. *)
Definition sample_export (d : list obj) (query : obj) : thrown + value :=
  inr (VStr (fold_right (fun r text => record_info r +:+ nl +:+ text) "" d)).

Definition update_request (id : string) (content : option string) : UpdateRecordInput :=
  {| update_zone_id := "zone1"; update_record_id := id;
     new_content := content; new_name := None; new_ttl := None;
     new_proxied := None; new_comment := None; new_tags := None;
     new_data := None |}.

Definition delete_request (id : string) (confirm : bool) : DeleteRecordInput :=
  {| delete_zone_id := "zone1"; delete_record_id := id; confirm := confirm |}.

End SampleClients.

(** * Proofs *)

(** ** Strings *)

Section StringFacts.

Lemma str_app_nil (t : string) : "" +:+ t = t.
Proof. reflexivity. Qed.

Lemma str_app_cons (c : ascii) (s t : string) :
String c s +:+ t = String c (s +:+ t).
Proof. reflexivity. Qed.

Lemma str_length_app (s t : string) :
str_length (s +:+ t) = str_length s + str_length t.
Proof.
unfold str_length. induction s as [|c s IH].
- rewrite str_app_nil. simpl. lia.
- rewrite str_app_cons. simpl String.length. lia.
Qed.

Lemma str_take_length (n : nat) (s : string) :
String.length (str_take n s) = Nat.min n (String.length s).
Proof.
revert s. induction n as [|n IH]; intros [|c s]; simpl; auto.
Qed.

Lemma str_take_drop (n : nat) (s : string) : str_take n s +:+ str_drop n s = s.
Proof.
revert s. induction n as [|n IH]; intros [|c s]; simpl; auto.
rewrite str_app_cons. now rewrite IH.
Qed.

Lemma str_take_take (n m : nat) (s : string) :
(n <= m)%nat → str_take n (str_take m s) = str_take n s.
Proof.
revert m s. induction n as [|n IH]; intros [|m] [|c s] Hle; simpl; auto; try lia.
f_equal. apply IH. lia.
Qed.

Lemma str_take_all (n : nat) (s : string) :
(String.length s <= n)%nat → str_take n s = s.
Proof.
revert s. induction n as [|n IH]; intros [|c s] Hle; simpl in *; auto; try lia.
f_equal. apply IH. lia.
Qed.

Lemma str_get_take (q n : nat) (s : string) :
(q < n)%nat → String.get q (str_take n s) = String.get q s.
Proof.
revert n s. induction q as [|q IH]; intros [|n] [|c s] Hlt; simpl; auto; try lia.
apply IH. lia.
Qed.

Lemma str_get_Some_lt (q : nat) (s : string) (c : ascii) :
String.get q s = Some c → (q < String.length s)%nat.
Proof.
revert s. induction q as [|q IH]; intros [|x s] H; simpl in *; try discriminate; try lia.
apply IH in H. lia.
Qed.

Lemma str_slice_prefix (s : string) (n : Z) :
0 <= n <= str_length s → str_slice s 0 n = str_take (Z.to_nat n) s.
Proof.
intros Hn. unfold str_slice, relative_index.
destruct (Z.ltb_spec 0 0); [lia|].
destruct (Z.ltb_spec n 0); [lia|].
rewrite Z.min_l by lia. rewrite Z.min_l by lia.
change (Z.to_nat 0) with 0%nat.
replace (str_drop 0 s) with s by (destruct s; reflexivity).
f_equal. lia.
Qed.

(** [lastIndexOf] finds the last occurrence, or keeps [found]. *)
Lemma lastIndexOf_from_spec (s : string) (c : ascii) (i found : Z) :
(lastIndexOf_from s c i found = found
 ∧ ∀ q, String.get q s ≠ Some c)
∨ ∃ q : nat,
    lastIndexOf_from s c i found = i + Z.of_nat q
    ∧ String.get q s = Some c
    ∧ ∀ q' : nat, (q < q')%nat → String.get q' s ≠ Some c.
Proof.
revert i found. induction s as [|x s IH]; intros i found; simpl.
- left. split; [reflexivity|]. intros [|q]; discriminate.
- destruct (IH (i + 1) (if Ascii.eqb x c then i else found))
    as [[Hr Hnone] | (q & Hr & Hq & Hlast)].
  + destruct (Ascii.eqb_spec x c) as [->|Hne].
    * right. exists 0%nat. rewrite Hr. split; [lia|]. split; [reflexivity|].
      intros [|q'] Hlt; [lia|]. simpl. apply Hnone.
    * left. split; [exact Hr|]. intros [|q]; simpl; [congruence|apply Hnone].
  + right. exists (S q). rewrite Hr. split; [lia|]. split; [exact Hq|].
    intros [|q'] Hlt; [lia|]. simpl. apply Hlast. lia.
Qed.

Lemma lastIndexOf_spec (s : string) (c : ascii) :
(lastIndexOf s c = -1 ∧ ∀ q, String.get q s ≠ Some c)
∨ ∃ q : nat,
    lastIndexOf s c = Z.of_nat q
    ∧ String.get q s = Some c
    ∧ ∀ q' : nat, (q < q')%nat → String.get q' s ≠ Some c.
Proof.
unfold lastIndexOf.
destruct (lastIndexOf_from_spec s c 0 (-1)) as [H | (q & Hr & H)]; [left; exact H|].
right. exists q. rewrite Hr. split; [lia | exact H].
Qed.

End StringFacts.

(** ** Size Guard *)

Module SizeGuardProofs.
Import Constants Pagination SizeGuardSpec.

Lemma truncate_short (t : string) :
  str_length t <= CHARACTER_LIMIT → truncateIfNeeded t = t.
Proof.
  intros H. unfold truncateIfNeeded.
  destruct (Z.leb_spec (str_length t) CHARACTER_LIMIT); [reflexivity | lia].
Qed.

(** The value computed on a text over the budget, with the two slices
    written as prefixes of the text itself. *)
Lemma truncate_long (t : string) :
  CHARACTER_LIMIT < str_length t →
  truncateIfNeeded t =
    (if 8 * CHARACTER_LIMIT
        <? 10 * lastIndexOf (str_take (Z.to_nat CHARACTER_LIMIT) t) newline
     then str_take (Z.to_nat (lastIndexOf (str_take (Z.to_nat CHARACTER_LIMIT) t) newline)) t
     else str_take (Z.to_nat CHARACTER_LIMIT) t)
    +:+ TRUNCATION_NOTICE.
Proof.
  intros Hlong. unfold truncateIfNeeded.
  destruct (Z.leb_spec (str_length t) CHARACTER_LIMIT) as [Hle|_]; [lia|].
  assert (HL : 0 <= CHARACTER_LIMIT) by (unfold CHARACTER_LIMIT; lia).
  rewrite (str_slice_prefix t CHARACTER_LIMIT) by lia.
  set (cut := str_take (Z.to_nat CHARACTER_LIMIT) t).
  destruct (Z.ltb_spec (8 * CHARACTER_LIMIT) (10 * lastIndexOf cut newline)) as [Hpast|Hnot];
    [|reflexivity].
  f_equal.
  destruct (lastIndexOf_spec cut newline) as [[Hr _] | (q & Hr & Hq & _)].
  - rewrite Hr in Hpast. lia.
  - apply str_get_Some_lt in Hq.
    assert (Hlen : String.length cut = Z.to_nat CHARACTER_LIMIT).
    { unfold cut. rewrite str_take_length. unfold str_length in Hlong. lia. }
    rewrite str_slice_prefix by (unfold str_length; lia).
    rewrite Hr, Nat2Z.id. unfold cut. apply str_take_take. lia.
Qed.

(** The index [lastIndexOf] finds in the cut is the last newline before
    the boundary, when there is one. *)
Lemma lastIndexOf_cut (t : string) (bound p : Z) :
  last_newline_within t bound p →
  lastIndexOf (str_take (Z.to_nat bound) t) newline = p.
Proof.
  intros (Hp & Hat & Hafter).
  set (cut := str_take (Z.to_nat bound) t).
  assert (Hcut : ∀ q : nat, Z.of_nat q < bound → String.get q cut = String.get q t).
  { intros q Hq. unfold cut. apply str_get_take. lia. }
  assert (Hin : ∀ q c, String.get q cut = Some c → Z.of_nat q < bound).
  { intros q c Hq. apply str_get_Some_lt in Hq. unfold cut in Hq.
    rewrite str_take_length in Hq. lia. }
  destruct (lastIndexOf_spec cut newline) as [[_ Hnone] | (q & Hr & Hq & Hlast)].
  - exfalso. apply (Hnone (Z.to_nat p)). rewrite Hcut by lia. exact Hat.
  - rewrite Hr. pose proof (Hin _ _ Hq) as Hqb.
    destruct (Z.lt_trichotomy (Z.of_nat q) p) as [Hlt | [Heq | Hgt]]; [|exact Heq|].
    + exfalso. apply (Hlast (Z.to_nat p)); [lia|]. rewrite Hcut by lia. exact Hat.
    + exfalso. apply (Hafter (Z.of_nat q)); [lia|].
      rewrite Nat2Z.id. rewrite <- Hcut by lia. exact Hq.
Qed.

Lemma lastIndexOf_cut_none (t : string) (bound : Z) :
  no_newline_within t bound →
  lastIndexOf (str_take (Z.to_nat bound) t) newline = -1.
Proof.
  intros Hnone.
  destruct (lastIndexOf_spec (str_take (Z.to_nat bound) t) newline)
    as [[Hr _] | (q & _ & Hq & _)]; [exact Hr|].
  exfalso. pose proof (str_get_Some_lt _ _ _ Hq) as Hlt.
  rewrite str_take_length in Hlt.
  apply (Hnone (Z.of_nat q)); [lia|].
  rewrite Nat2Z.id. rewrite <- (str_get_take q (Z.to_nat bound)) by lia. exact Hq.
Qed.

(** The guard never adds more than the notice to the budget. *)
Lemma truncate_bound (t : string) :
  str_length (truncateIfNeeded t) <= CHARACTER_LIMIT + str_length TRUNCATION_NOTICE.
Proof.
  destruct (Z.le_gt_cases (str_length t) CHARACTER_LIMIT) as [Hle|Hgt].
  - rewrite truncate_short by exact Hle.
    assert (0 <= str_length TRUNCATION_NOTICE) by (unfold str_length; lia). lia.
  - rewrite truncate_long by lia. rewrite str_length_app.
    set (cut := str_take (Z.to_nat CHARACTER_LIMIT) t).
    assert (Hlen : String.length cut = Z.to_nat CHARACTER_LIMIT).
    { unfold cut. rewrite str_take_length. unfold str_length in Hgt. lia. }
    assert (HL : 0 <= CHARACTER_LIMIT) by (unfold CHARACTER_LIMIT; lia).
    destruct (8 * CHARACTER_LIMIT <? 10 * lastIndexOf cut newline).
    + destruct (lastIndexOf_spec cut newline) as [[Hr _] | (q & Hr & Hq & _)].
      * rewrite Hr. unfold str_length. rewrite str_take_length. simpl Z.to_nat. lia.
      * apply str_get_Some_lt in Hq. rewrite Hr.
        unfold str_length. rewrite str_take_length. lia.
    + unfold str_length. rewrite Hlen. lia.
Qed.

(** C6.  A text within the budget of 25,000 characters is returned
    unchanged.  A longer text becomes a prefix of itself, of at most
    25,000 characters, followed by the fixed notice.  The prefix ends at
    the last newline before the budget boundary exactly when the offset of
    that newline is past 80% of the budget; with a newline at or below
    80%, or with no newline, it is the hard cut at the boundary. *)
Theorem truncateIfNeeded_spec (t : string) :
  (str_length t <= CHARACTER_LIMIT → truncateIfNeeded t = t)
  ∧ (CHARACTER_LIMIT < str_length t →
       (∀ p, last_newline_within t CHARACTER_LIMIT p →
             8 * CHARACTER_LIMIT < 10 * p →
             truncateIfNeeded t = str_take (Z.to_nat p) t +:+ TRUNCATION_NOTICE)
       ∧ (∀ p, last_newline_within t CHARACTER_LIMIT p →
               10 * p <= 8 * CHARACTER_LIMIT →
               truncateIfNeeded t
               = str_take (Z.to_nat CHARACTER_LIMIT) t +:+ TRUNCATION_NOTICE)
       ∧ (no_newline_within t CHARACTER_LIMIT →
            truncateIfNeeded t
            = str_take (Z.to_nat CHARACTER_LIMIT) t +:+ TRUNCATION_NOTICE)
       ∧ ∃ prefix rest,
           truncateIfNeeded t = prefix +:+ TRUNCATION_NOTICE
           ∧ t = prefix +:+ rest
           ∧ str_length prefix <= CHARACTER_LIMIT).
Proof.
  split; [apply truncate_short|].
  intros Hlong. pose proof (truncate_long t Hlong) as Heq.
  repeat split.
  - intros p Hp Hpast. rewrite Heq, (lastIndexOf_cut t _ p Hp).
    destruct (Z.ltb_spec (8 * CHARACTER_LIMIT) (10 * p)); [reflexivity | lia].
  - intros p Hp Hnot. rewrite Heq, (lastIndexOf_cut t _ p Hp).
    destruct (Z.ltb_spec (8 * CHARACTER_LIMIT) (10 * p)); [lia | reflexivity].
  - intros Hnone. rewrite Heq, (lastIndexOf_cut_none t _ Hnone).
    destruct (Z.ltb_spec (8 * CHARACTER_LIMIT) (10 * -1)) as [H|_]; [|reflexivity].
    exfalso. unfold CHARACTER_LIMIT in H. lia.
  - set (cut := str_take (Z.to_nat CHARACTER_LIMIT) t) in Heq.
    assert (HL : 0 <= CHARACTER_LIMIT) by (unfold CHARACTER_LIMIT; lia).
    assert (Hlen : String.length cut = Z.to_nat CHARACTER_LIMIT).
    { unfold cut. rewrite str_take_length. unfold str_length in Hlong. lia. }
    destruct (Z.ltb_spec (8 * CHARACTER_LIMIT) (10 * lastIndexOf cut newline))
      as [Hpast|Hnot].
    + exists (str_take (Z.to_nat (lastIndexOf cut newline)) t),
             (str_drop (Z.to_nat (lastIndexOf cut newline)) t).
      split; [exact Heq|]. split; [symmetry; apply str_take_drop|].
      destruct (lastIndexOf_spec cut newline) as [[Hr _] | (q & Hr & Hq & _)].
      * rewrite Hr in Hpast. lia.
      * apply str_get_Some_lt in Hq. rewrite Hr.
        unfold str_length. rewrite str_take_length. lia.
    + exists cut, (str_drop (Z.to_nat CHARACTER_LIMIT) t).
      split; [exact Heq|]. split; [symmetry; apply str_take_drop|].
      unfold str_length. rewrite Hlen. lia.
Qed.

End SizeGuardProofs.

Module SizeGuardExample.
Import Constants Pagination SizeGuardSpec SizeGuardProofs.

Lemma get_filler (n q : nat) (c x : ascii) :
  String.get q (filler n c) = Some x → x = c.
Proof.
  revert q. induction n as [|n IH]; intros [|q] H; simpl in H; try discriminate.
  - congruence.
  - eauto.
Qed.

Lemma get_after_filler (a b q : nat) (c : ascii) :
  c ≠ newline → (a < q)%nat →
  String.get q (filler a c +:+ String newline (filler b c)) ≠ Some newline.
Proof.
  intros Hc. revert q. induction a as [|a IH]; intros [|q] Hlt; try lia.
  - rewrite str_app_nil. simpl. intros H. apply get_filler in H. congruence.
  - simpl filler. rewrite str_app_cons. simpl. apply IH. lia.
Qed.

Lemma get_at_filler (a b : nat) (c : ascii) :
  String.get a (filler a c +:+ String newline (filler b c)) = Some newline.
Proof.
  induction a as [|a IH]; [reflexivity|].
  simpl filler. rewrite str_app_cons. simpl. exact IH.
Qed.

Lemma sample_text_last_newline :
  last_newline_within sample_text CHARACTER_LIMIT 24500.
Proof.
  unfold last_newline_within, sample_text, CHARACTER_LIMIT.
  split; [lia|]. split; [apply get_at_filler|].
  intros q Hq. apply get_after_filler; [discriminate | lia].
Qed.

Lemma truncateIfNeeded_spec_witness :
  CHARACTER_LIMIT < str_length sample_text
  ∧ truncateIfNeeded sample_text
    = str_take (Z.to_nat 24500) sample_text +:+ TRUNCATION_NOTICE.
Proof.
  assert (Hlong : CHARACTER_LIMIT < str_length sample_text)
    by (vm_compute; reflexivity).
  split; [exact Hlong|].
  destruct (truncateIfNeeded_spec sample_text) as [_ Hspec].
  destruct (Hspec Hlong) as [Hcut _].
  apply Hcut; [apply sample_text_last_newline | unfold CHARACTER_LIMIT; lia].
Defined.

End SizeGuardExample.

(** ** Objects *)

Section PropFacts.
Context {V : Type}.
Implicit Types (o : list (string * V)) (k : string) (v : V).

Lemma has_key_lookup o k :
  has_key o k = match lookup_prop o k with Some _ => true | None => false end.
Proof.
  induction o as [|[k' v'] o IH]; simpl; [reflexivity|].
  destruct (String.eqb k' k); simpl; auto.
Qed.

Lemma has_key_false_lookup o k : has_key o k = false → lookup_prop o k = None.
Proof. rewrite has_key_lookup. destruct (lookup_prop o k); [discriminate | reflexivity]. Qed.

Lemma has_key_elem o k : has_key o k = true ↔ k ∈ map fst o.
Proof.
  induction o as [|[k' v'] o IH]; simpl.
  - split; [discriminate | intros H; inversion H].
  - rewrite elem_of_cons, <- IH. destruct (String.eqb_spec k' k); simpl.
    + split; auto.
    + split; [auto | intros [->|H]; [congruence | exact H]].
Qed.

Lemma lookup_update_prop o k v k' :
  lookup_prop (update_prop o k v) k'
  = if String.eqb k k' then (if has_key o k then Some v else None)
    else lookup_prop o k'.
Proof.
  induction o as [|[k0 v0] o IH]; simpl.
  - destruct (String.eqb k k'); reflexivity.
  - destruct (String.eqb_spec k0 k) as [->|Hne]; simpl.
    + destruct (String.eqb k k'); reflexivity.
    + rewrite IH. destruct (String.eqb_spec k k') as [Heq|Hne'].
      * subst k'. destruct (String.eqb_spec k0 k); [congruence | reflexivity].
      * reflexivity.
Qed.

Lemma lookup_insert_index o n k v k' :
  has_key o k = false →
  lookup_prop (insert_index o n k v) k'
  = if String.eqb k k' then Some v else lookup_prop o k'.
Proof.
  induction o as [|[k0 v0] o IH]; simpl; intros Hfresh.
  - reflexivity.
  - apply orb_false_elim in Hfresh as [Hk0 Ho].
    destruct (array_index k0) as [m|]; [destruct (m <? n)|]; simpl.
    + rewrite IH by exact Ho.
      destruct (String.eqb_spec k k') as [Heq|Hne]; [|reflexivity].
      subst k'. now rewrite Hk0.
    + reflexivity.
    + reflexivity.
Qed.

Lemma lookup_app_fresh o k v k' :
  has_key o k = false →
  lookup_prop (o ++ [(k, v)]) k'
  = if String.eqb k k' then Some v else lookup_prop o k'.
Proof.
  induction o as [|[k0 v0] o IH]; simpl; intros Hfresh.
  - reflexivity.
  - apply orb_false_elim in Hfresh as [Hk0 Ho]. rewrite IH by exact Ho.
    destruct (String.eqb_spec k k') as [Heq|Hne]; [|reflexivity].
    subst k'. now rewrite Hk0.
Qed.

(** Reading back after an assignment. *)
Lemma lookup_set_prop o k v k' :
  lookup_prop (set_prop o k v) k'
  = if String.eqb k k' then Some v else lookup_prop o k'.
Proof.
  unfold set_prop. destruct (has_key o k) eqn:Hk.
  - rewrite lookup_update_prop, Hk. reflexivity.
  - destruct (array_index k).
    + now apply lookup_insert_index.
    + now apply lookup_app_fresh.
Qed.

Lemma has_key_set_prop o k v k' :
  has_key (set_prop o k v) k' = String.eqb k k' || has_key o k'.
Proof.
  rewrite !has_key_lookup, lookup_set_prop.
  destruct (String.eqb k k'); reflexivity.
Qed.

Lemma keys_update_prop o k v : map fst (update_prop o k v) = map fst o.
Proof.
  induction o as [|[k0 v0] o IH]; simpl; [reflexivity|].
  destruct (String.eqb k0 k); simpl; congruence.
Qed.

Lemma keys_insert_index o n k v :
  map fst (insert_index o n k v) ≡ₚ k :: map fst o.
Proof.
  induction o as [|[k0 v0] o IH]; simpl; [reflexivity|].
  destruct (array_index k0) as [m|]; [destruct (m <? n)|]; simpl; try reflexivity.
  rewrite IH. apply Permutation_swap.
Qed.

(** Assignment keeps the keys of an object distinct. *)
Lemma keys_set_prop_NoDup o k v :
  NoDup (map fst o) → NoDup (map fst (set_prop o k v)).
Proof.
  intros Hnd. unfold set_prop. destruct (has_key o k) eqn:Hk.
  - now rewrite keys_update_prop.
  - assert (Hnot : k ∉ map fst o).
    { intros Hin. apply has_key_elem in Hin. congruence. }
    destruct (array_index k).
    + rewrite keys_insert_index. now constructor.
    + rewrite map_app. simpl. apply NoDup_app. split; [exact Hnd|].
      split; [|apply NoDup_singleton].
      intros x Hx Hx'. apply list_elem_of_singleton in Hx'. subst. contradiction.
Qed.
End PropFacts.

Lemma get_set_prop (o : obj) (k k' : string) (v : value) :
  get (set_prop o k v) k' = if String.eqb k k' then v else get o k'.
Proof.
  unfold get. rewrite lookup_set_prop. destruct (String.eqb k k'); reflexivity.
Qed.

(** ** Summarizer *)

Module SummaryProofs.
Import RecordFormatter SummarySpec.

Lemma sum_counts_update (h : obj) (k : string) (v : value) :
  sum_counts (update_prop h k v)
  = sum_counts h - count_of (default (VNum 0) (lookup_prop h k))
    + (if has_key h k then count_of v else 0).
Proof.
  induction h as [|[k0 v0] h IH]; simpl; [lia|].
  destruct (String.eqb k0 k); simpl; [lia|]. rewrite IH. lia.
Qed.

Lemma sum_counts_insert_index (h : obj) (n : Z) (k : string) (v : value) :
  sum_counts (insert_index h n k v) = sum_counts h + count_of v.
Proof.
  induction h as [|[k0 v0] h IH]; simpl; [lia|].
  destruct (array_index k0) as [m|]; [destruct (m <? n)|]; simpl; lia.
Qed.

Lemma sum_counts_app (h1 h2 : obj) :
  sum_counts (h1 ++ h2) = sum_counts h1 + sum_counts h2.
Proof. induction h1 as [|[k0 v0] h1 IH]; simpl; lia. Qed.

(** Raising one bucket by one raises the sum by one. *)
Lemma sum_counts_bump (h : obj) (k : string) (c : Z) :
  count_of (default (VNum 0) (lookup_prop h k)) = c →
  sum_counts (set_prop h k (VNum (c + 1))) = sum_counts h + 1.
Proof.
  intros Hc. unfold set_prop. destruct (has_key h k) eqn:Hk.
  - rewrite sum_counts_update, Hk, Hc. simpl. lia.
  - rewrite (has_key_false_lookup _ _ Hk) in Hc. simpl in Hc. subst c.
    destruct (array_index k).
    + rewrite sum_counts_insert_index. simpl. lia.
    + rewrite sum_counts_app. simpl. lia.
Qed.

Lemma count_bucket_snoc (k : string) (R : list obj) (r : obj) :
  count_bucket k (R ++ [r])
  = count_bucket k R + (if String.eqb (bucket r) k then 1 else 0).
Proof.
  unfold count_bucket. rewrite List.filter_app, length_app. simpl.
  destruct (String.eqb (bucket r) k); simpl; lia.
Qed.

Lemma count_proxied_snoc (R : list obj) (r : obj) :
  count_proxied (R ++ [r])
  = count_proxied R + (if truthy (get r "proxied") then 1 else 0).
Proof.
  unfold count_proxied. rewrite List.filter_app, length_app. simpl.
  destruct (truthy (get r "proxied")); simpl; lia.
Qed.

Lemma count_bucket_nonneg (k : string) (R : list obj) : 0 <= count_bucket k R.
Proof. unfold count_bucket. lia. Qed.

(** Under a name that is not inherited, the loop reads the count it
    stored, or nothing, and stores the next count. *)
Lemma step_plain (byType : obj) (k : string) (c : Z) :
  inherited k = false →
  lookup_prop byType k = (if c =? 0 then None else Some (VNum c)) →
  write byType k (next_count (read byType k)) = set_prop byType k (VNum (c + 1)).
Proof.
  unfold inherited, write, read. intros Hk Hlook.
  apply orb_false_iff in Hk as [Hproto Hfun]. rewrite Hproto, Hlook.
  destruct (Z.eqb_spec c 0) as [->|Hc]; [|reflexivity].
  rewrite (has_key_false_lookup _ _ Hfun). reflexivity.
Qed.

Lemma counted_step (acc : obj * Z * Z) (R : list obj) (r : obj) :
  inherited (bucket r) = false →
  counted acc R → counted (summary_step acc r) (R ++ [r]).
Proof.
  destruct acc as [[byType p] d]. intros Hplain (Hnd & Hlook & Hsum & Hp & Hd).
  assert (Hold : count_of (default (VNum 0) (lookup_prop byType (bucket r)))
                 = count_bucket (bucket r) R).
  { rewrite Hlook. destruct (Z.eqb_spec (count_bucket (bucket r) R) 0) as [->|]; reflexivity. }
  assert (Hacc :
    NoDup (map fst (set_prop byType (bucket r) (VNum (count_bucket (bucket r) R + 1))))
    ∧ (∀ k, lookup_prop (set_prop byType (bucket r)
                           (VNum (count_bucket (bucket r) R + 1))) k
            = if count_bucket k (R ++ [r]) =? 0 then None
              else Some (VNum (count_bucket k (R ++ [r]))))
    ∧ sum_counts (set_prop byType (bucket r) (VNum (count_bucket (bucket r) R + 1)))
      = Z.of_nat (length (R ++ [r]))).
  { split; [now apply keys_set_prop_NoDup|]. split.
    - intros k. rewrite lookup_set_prop, count_bucket_snoc.
      pose proof (count_bucket_nonneg k R) as Hk.
      destruct (String.eqb_spec (bucket r) k) as [<-|Hne].
      + destruct (Z.eqb_spec (count_bucket (bucket r) R + 1) 0); [lia | reflexivity].
      + rewrite Z.add_0_r. apply Hlook.
    - rewrite (sum_counts_bump _ _ _ Hold), Hsum, length_app. simpl. lia. }
  destruct Hacc as (Hnd' & Hlook' & Hsum').
  unfold summary_step.
  rewrite (step_plain byType (bucket r) (count_bucket (bucket r) R) Hplain (Hlook _)).
  rewrite length_app in Hsum'. simpl in Hsum'.
  destruct (truthy (get r "proxied")) eqn:Ht; unfold counted;
    rewrite count_proxied_snoc, Ht, length_app; simpl;
    (split; [exact Hnd'|]); (split; [exact Hlook'|]); (split; [exact Hsum'|]);
    split; lia.
Qed.

Lemma counted_fold (records : list obj) :
  plain_types records →
  ∀ acc R, counted acc R → counted (fold_left summary_step records acc) (R ++ records).
Proof.
  induction records as [|r records IH]; intros Hplain acc R Hacc; simpl.
  - now rewrite app_nil_r.
  - replace (R ++ r :: records) with ((R ++ [r]) ++ records)
      by (rewrite <- app_assoc; reflexivity).
    apply IH.
    + intros r' Hr'. apply Hplain. now apply list_elem_of_further.
    + apply counted_step; [|exact Hacc]. apply Hplain. apply list_elem_of_here.
Qed.

Lemma counted_init : counted ([], 0, 0) [].
Proof.
  unfold counted. split; [constructor|]. split; [intros k; reflexivity|].
  repeat split; reflexivity.
Qed.

Lemma bucket_missing (r : obj) : type_missing r → bucket r = "UNKNOWN".
Proof. unfold bucket. intros [-> | ->]; reflexivity. Qed.

(** C7.  The histogram is a plain object, and the loop does not tell
    its own properties from those of [Object.prototype].  For the one
    record of type [constructor] it reads the function [Object], and what
    it stores under [constructor] is a text, not a count: the counts of
    [by_type] then add up to 0 while [total] is 1.  For the one record of
    type [__proto__] the assignment is ignored, and [by_type] is empty:
    the record is dropped from the histogram. *)
Theorem buildRecordSummary_inherited_type :
  total (buildRecordSummary [ [ ("type", VStr "constructor") ] ]) = 1
  ∧ by_type (buildRecordSummary [ [ ("type", VStr "constructor") ] ])
    = [ ("constructor", VStr "function Object() { [native code] }1") ]
  ∧ sum_counts (by_type (buildRecordSummary [ [ ("type", VStr "constructor") ] ])) = 0
  ∧ total (buildRecordSummary [ [ ("type", VStr "__proto__") ] ]) = 1
  ∧ by_type (buildRecordSummary [ [ ("type", VStr "__proto__") ] ]) = [].
Proof. split; [|split; [|split; [|split]]]; reflexivity. Qed.

(** X24.  For every record list [R] in which no type is the name of a
    member of [Object.prototype], the summary has [total = len(R)]; its
    bucket counts add up to [total]; [proxied + dns_only = total]; each
    bucket is listed once and holds the number of records of [R] whose
    type names it, a record with a missing type being counted under
    [UNKNOWN]; so every record is counted exactly once. *)
Theorem buildRecordSummary_counts (R : list obj) :
  plain_types R →
  let s := buildRecordSummary R in
  total s = Z.of_nat (length R)
  ∧ sum_counts (by_type s) = total s
  ∧ proxied s + dns_only s = total s
  ∧ NoDup (map fst (by_type s))
  ∧ (∀ k, lookup_prop (by_type s) k
          = if count_bucket k R =? 0 then None else Some (VNum (count_bucket k R)))
  ∧ (∀ r, r ∈ R → type_missing r →
          bucket r = "UNKNOWN"
          ∧ ∃ c, lookup_prop (by_type s) "UNKNOWN" = Some (VNum c) ∧ 1 <= c)
  ∧ proxied s = count_proxied R.
Proof.
  intros Hplain.
  pose proof (counted_fold R Hplain _ [] counted_init) as H. simpl in H.
  unfold buildRecordSummary.
  destruct (fold_left summary_step R ([], 0, 0)) as [[byType p] d].
  destruct H as (Hnd & Hlook & Hsum & Hp & Hd). simpl.
  split; [reflexivity|]. split; [exact Hsum|]. split; [lia|].
  split; [exact Hnd|]. split; [exact Hlook|]. split; [|exact Hp].
  intros r Hin Hmiss. pose proof (bucket_missing r Hmiss) as Hb.
  split; [exact Hb|]. rewrite Hlook.
  assert (Hpos : 1 <= count_bucket "UNKNOWN" R).
  { unfold count_bucket.
    assert (Hf : r ∈ List.filter (fun r => String.eqb (bucket r) "UNKNOWN") R).
    { apply list_elem_of_In, List.filter_In. split; [now apply list_elem_of_In|].
      rewrite Hb. reflexivity. }
    destruct (List.filter _ R); [inversion Hf | simpl; lia]. }
  destruct (Z.eqb_spec (count_bucket "UNKNOWN" R) 0); [lia|].
  eexists. split; [reflexivity | exact Hpos].
Qed.

End SummaryProofs.

(** ** Record Formatter *)

Module FormatterProofs.
Import RecordFormatter.

Lemma formatRecord_full (r : obj) : formatRecord r false = r.
Proof. reflexivity. Qed.

Lemma formatRecords_full (rs : list obj) : formatRecords rs false = rs.
Proof.
  unfold formatRecords. induction rs as [|r rs IH]; simpl; [reflexivity|].
  now rewrite IH.
Qed.

Lemma formatRecords_length (rs : list obj) (concise : bool) :
  length (formatRecords rs concise) = length rs.
Proof. unfold formatRecords. apply length_map. Qed.

(** [result.type], read back from the object under construction. *)
Lemma result_type (r : obj) (a b c d : value) :
  String_ (get [ ("id", a); ("type", VStr (type_of r)); ("name", b);
                 ("content", c); ("ttl", d) ] "type")
  = type_of r.
Proof. reflexivity. Qed.

Ltac open_formatRecord r :=
  unfold formatRecord; simpl negb; cbv iota; rewrite result_type.

Ltac split_conditions r :=
  destruct (includes ["A"; "AAAA"; "CNAME"] (type_of r)) eqn:Hproxy;
  destruct (truthy (get r "comment"));
  destruct (truthy (get r "created_on"));
  destruct (truthy (get r "modified_on"));
  destruct (String.eqb (type_of r) "MX" && negb (is_undefined (get r "priority")))
    eqn:Hmx;
  destruct (String.eqb (type_of r) "SRV" && truthy (get r "data")) eqn:Hsrv.

Lemma concise_has_proxied (r : obj) :
  has_key (formatRecord r true) "proxied"
  = includes ["A"; "AAAA"; "CNAME"] (type_of r).
Proof.
  open_formatRecord r. split_conditions r; rewrite ?has_key_set_prop; reflexivity.
Qed.

Lemma concise_proxied_value (r : obj) :
  includes ["A"; "AAAA"; "CNAME"] (type_of r) = true →
  get (formatRecord r true) "proxied" = VBool (truthy (get r "proxied")).
Proof.
  intros Hin. open_formatRecord r. rewrite Hin.
  split_conditions r; rewrite ?get_set_prop; reflexivity.
Qed.

Lemma concise_priority_mx (r : obj) :
  type_of r = "MX" → get r "priority" ≠ VUndefined →
  has_key (formatRecord r true) "priority" = true
  ∧ get (formatRecord r true) "priority" = Number_ (get r "priority").
Proof.
  intros Hmx Hprio. open_formatRecord r. rewrite Hmx. simpl includes.
  assert (Hdef : is_undefined (get r "priority") = false)
    by (destruct (get r "priority"); simpl; congruence).
  rewrite Hdef. simpl andb.
  destruct (truthy (get r "comment")), (truthy (get r "created_on")),
    (truthy (get r "modified_on"));
    rewrite ?has_key_set_prop, ?get_set_prop; split; reflexivity.
Qed.

Lemma concise_lift_srv (r d : obj) :
  type_of r = "SRV" → get r "data" = VObj d →
  let f := formatRecord r true in
  get f "priority" = get d "priority"
  ∧ get f "weight" = get d "weight"
  ∧ get f "port" = get d "port"
  ∧ has_key f "priority" = true ∧ has_key f "weight" = true
  ∧ has_key f "port" = true.
Proof.
  intros Hsrv Hdata. open_formatRecord r. rewrite Hsrv, Hdata. simpl.
  destruct (truthy (get r "comment")), (truthy (get r "created_on")),
    (truthy (get r "modified_on"));
    rewrite ?has_key_set_prop, ?get_set_prop; repeat split; reflexivity.
Qed.

Lemma concise_ttl_auto (r : obj) :
  get r "ttl" = VNum 1 → get (formatRecord r true) "ttl" = VStr "auto".
Proof.
  intros Httl. open_formatRecord r. rewrite Httl. simpl strict_equals_number.
  split_conditions r; rewrite ?get_set_prop; reflexivity.
Qed.

(** C9.  In the concise projection of a record [r]: the [proxied] field
    is present exactly when the type of [r] is [A], [AAAA] or [CNAME]
    (so never for [MX] or [TXT]), and then holds the proxy flag of [r];
    [priority] is present whenever the type is [MX] and [r] has a
    priority; for an [SRV] record with a data payload, [priority],
    [weight] and [port] of the payload are top-level fields; and a
    [ttl] of 1 is rendered as the string [auto]. *)
Theorem formatRecord_concise_fields (r : obj) :
  let f := formatRecord r true in
  (has_key f "proxied" = true
   ↔ type_of r = "A" ∨ type_of r = "AAAA" ∨ type_of r = "CNAME")
  ∧ (has_key f "proxied" = true →
       get f "proxied" = VBool (truthy (get r "proxied")))
  ∧ (type_of r = "MX" ∨ type_of r = "TXT" → has_key f "proxied" = false)
  ∧ (type_of r = "MX" → get r "priority" ≠ VUndefined →
       has_key f "priority" = true
       ∧ get f "priority" = Number_ (get r "priority"))
  ∧ (∀ d, type_of r = "SRV" → get r "data" = VObj d →
       get f "priority" = get d "priority"
       ∧ get f "weight" = get d "weight"
       ∧ get f "port" = get d "port"
       ∧ has_key f "priority" = true ∧ has_key f "weight" = true
       ∧ has_key f "port" = true)
  ∧ (get r "ttl" = VNum 1 → get f "ttl" = VStr "auto").
Proof.
  intros f. unfold f. rewrite concise_has_proxied.
  assert (Hinc : includes ["A"; "AAAA"; "CNAME"] (type_of r) = true
                 ↔ type_of r = "A" ∨ type_of r = "AAAA" ∨ type_of r = "CNAME").
  { unfold includes. simpl. rewrite !orb_true_iff, !String.eqb_eq.
    split.
    - intros [?|[?|[?|?]]]; [auto | auto | auto | discriminate].
    - intros [?|[?|?]]; auto. }
  split; [exact Hinc|].
  split; [apply concise_proxied_value|].
  split; [intros [H|H]; rewrite H; reflexivity|].
  split; [apply concise_priority_mx|].
  split; [intros d; apply concise_lift_srv|].
  apply concise_ttl_auto.
Qed.

End FormatterProofs.

(** ** Query Engine *)

Module QueryProofs.
Import Constants Directory RecordFormatter RecordsRead QuerySpec FormatterProofs.

Lemma form_of_summary (records : list obj) :
  form_of (summary_output records) = Some SummaryForm.
Proof. reflexivity. Qed.

Lemma form_of_sample (rand : nat → Pagination.draw) (params : ListRecordsInput)
    (concise : bool) (records : list obj) :
  form_of (sample_output rand params concise records) = Some SampleForm.
Proof. reflexivity. Qed.

Lemma form_of_paginated (params : ListRecordsInput) (concise : bool)
    (records : list obj) :
  form_of (paginated_output params concise records) = Some PaginatedForm.
Proof.
  unfold paginated_output.
  destruct (20 <? Z.of_nat (length records)); reflexivity.
Qed.

(** C4.  A list-records request whose records were fetched is answered
    in exactly one form, chosen by the precedence summary, then sample,
    then paginated: with [summary_only] the summary form, whatever
    [random_sample] is; without it and with [random_sample] the sample
    form; otherwise the paginated form (which carries the attached
    summary of a zone of more than 20 records). *)
Theorem list_records_mode {D : Type} (client : Client D) (d : D)
    (rand : nat → Pagination.draw) (params : ListRecordsInput) (records : list obj) :
  fetch client d params = inr records →
  let concise := resolve_concise (include_details params) (RecordsRead.concise params) in
  ∃ o,
    form_of o = Some (selected_mode params)
    ∧ (∀ other, form_of o = Some other → other = selected_mode params)
    ∧ match selected_mode params with
      | SummaryForm =>
          o = summary_output records
          ∧ cf_dns_list_records client d rand params = ok (stringify o)
      | SampleForm =>
          o = sample_output rand params concise records
          ∧ cf_dns_list_records client d rand params
            = ok (Pagination.truncateIfNeeded (stringify o))
      | PaginatedForm =>
          o = paginated_output params concise records
          ∧ cf_dns_list_records client d rand params
            = ok (Pagination.truncateIfNeeded (stringify o))
      end
    ∧ (summary_only params = true → selected_mode params = SummaryForm)
    ∧ (summary_only params = false → random_sample params = true →
         selected_mode params = SampleForm)
    ∧ (summary_only params = false → random_sample params = false →
         selected_mode params = PaginatedForm).
Proof.
  intros Hfetch concise.
  unfold cf_dns_list_records. rewrite Hfetch. fold concise. unfold selected_mode.
  destruct (summary_only params) eqn:Hs; [|destruct (random_sample params) eqn:Hr].
  - exists (summary_output records). rewrite form_of_summary.
    repeat split; intros; congruence.
  - exists (sample_output rand params concise records). rewrite form_of_sample.
    repeat split; intros; congruence.
  - exists (paginated_output params concise records). rewrite form_of_paginated.
    repeat split; intros; congruence.
Qed.

(** *** Paginator *)

Lemma slice_window {A : Type} (a : list A) (start size : Z) :
  0 <= start → 0 <= size →
  slice a start (start + size) = take (Z.to_nat size) (drop (Z.to_nat start) a).
Proof.
  intros Hstart Hsize. unfold slice, relative_index.
  destruct (Z.ltb_spec start 0); [lia|].
  destruct (Z.ltb_spec (start + size) 0); [lia|].
  destruct (Z.le_gt_cases (Z.of_nat (length a)) start) as [Hout|Hin].
  - rewrite (drop_ge a (Z.to_nat start)) by lia.
    rewrite (drop_ge a) by lia. now rewrite !take_nil.
  - rewrite (Z.min_l start) by lia.
    destruct (Z.le_gt_cases (start + size) (Z.of_nat (length a))) as [Hfit|Hover].
    + rewrite Z.min_l by lia. f_equal. lia.
    + rewrite Z.min_r by lia.
      rewrite !take_ge; [reflexivity | |]; rewrite length_drop; lia.
Qed.

Lemma paged_window (params : ListRecordsInput) (records : list obj) :
  1 <= page params → 1 <= per_page params →
  paged params records
  = take (Z.to_nat (per_page params))
      (drop (Z.to_nat ((page params - 1) * per_page params)) records).
Proof.
  intros Hpage Hper. unfold paged. apply slice_window; nia.
Qed.

Lemma paginated_fields (params : ListRecordsInput) (concise : bool)
    (records : list obj) :
  let o := paginated_output params concise records in
  let formatted := formatRecords (paged params records) concise in
  get o "pagination"
  = pagination_value
      (Pagination.buildPaginationMeta (Z.of_nat (length records)) formatted
         (page params) (per_page params))
  ∧ get o "records" = array formatted.
Proof.
  unfold paginated_output.
  destruct (20 <? Z.of_nat (length records)); split; reflexivity.
Qed.

(** C8.  In paginated mode over a fetched record set of size [total],
    with [page >= 1] and [per_page >= 1]: the page is the slice of the
    record set from offset [(page-1)*per_page] up to [page*per_page]
    (exclusive), each record formatted; [has_more] is
    [page*per_page < total]; [count] is the number of records on the
    page; and a page starting at or beyond the end is an empty page with
    [count = 0], returned as an ordinary response. *)
Theorem paginated_page {D : Type} (client : Client D) (d : D)
    (rand : nat → Pagination.draw) (params : ListRecordsInput) (records : list obj) :
  fetch client d params = inr records →
  summary_only params = false → random_sample params = false →
  1 <= page params → 1 <= per_page params →
  let concise := resolve_concise (include_details params) (RecordsRead.concise params) in
  let total := Z.of_nat (length records) in
  let start := (page params - 1) * per_page params in
  let window := take (Z.to_nat (per_page params)) (drop (Z.to_nat start) records) in
  let o := paginated_output params concise records in
  cf_dns_list_records client d rand params
  = ok (Pagination.truncateIfNeeded (stringify o))
  ∧ isError (cf_dns_list_records client d rand params) = false
  ∧ get o "records" = array (formatRecords window concise)
  ∧ (∀ i : nat, (i < Z.to_nat (per_page params))%nat →
       window !! i = records !! (Z.to_nat start + i)%nat)
  ∧ get o "pagination"
    = VObj [ ("total", VNum total);
             ("count", VNum (Z.of_nat (length window)));
             ("page", VNum (page params));
             ("per_page", VNum (per_page params));
             ("has_more", VBool (page params * per_page params <? total)) ]
  ∧ (total <= start →
       window = [] ∧ get o "records" = VArr []
       ∧ Pagination.count
           (Pagination.buildPaginationMeta total
              (formatRecords (paged params records) concise)
              (page params) (per_page params)) = 0).
Proof.
  intros Hfetch Hsum Hsample Hpage Hper concise total start window o.
  assert (Hresp : cf_dns_list_records client d rand params
                  = ok (Pagination.truncateIfNeeded (stringify o))).
  { unfold cf_dns_list_records. rewrite Hfetch, Hsum, Hsample. reflexivity. }
  destruct (paginated_fields params concise records) as [Hmeta Hrecs].
  fold o in Hmeta, Hrecs.
  assert (Hwin : paged params records = window) by now apply paged_window.
  rewrite Hwin in Hmeta, Hrecs.
  split; [exact Hresp|]. split; [rewrite Hresp; reflexivity|].
  split; [exact Hrecs|]. split.
  { intros i Hi. unfold window. rewrite lookup_take_lt by lia. apply lookup_drop. }
  split.
  { rewrite Hmeta. unfold pagination_value, Pagination.buildPaginationMeta. simpl.
    now rewrite formatRecords_length. }
  intros Hbeyond.
  assert (Hempty : window = []).
  { unfold window. rewrite drop_ge by (unfold total in Hbeyond; lia).
    apply take_nil. }
  split; [exact Hempty|]. rewrite Hwin, Hrecs, Hempty. split; reflexivity.
Qed.

(** *** Output flags *)

Lemma collect_with_concise (b : bool) (params : ListRecordsInput)
    (rest : list obj) (failure : option Errors.thrown) :
  ∀ records, collect (with_concise b params) records rest failure
             = collect params records rest failure.
Proof.
  induction rest as [|record rest IH]; intros records; simpl; [reflexivity|].
  now rewrite IH.
Qed.

Lemma fetch_with_concise {D : Type} (client : Client D) (d : D) (b : bool)
    (params : ListRecordsInput) :
  fetch client d (with_concise b params) = fetch client d params.
Proof.
  unfold fetch.
  change (queryParams (with_concise b params)) with (queryParams params).
  simpl zone_id.
  destruct (records_list client d _); [reflexivity|]. apply collect_with_concise.
Qed.

(** C10.  [include_details] overrides [concise]: the formatter runs in
    concise mode exactly when [include_details] is false and [concise]
    is true.  With [include_details] set, the response of list-records
    and of get-record is the same whatever [concise] is, and the sampled
    records, the records of the page and the single record of get-record
    are returned as the Directory gave them. *)
Theorem include_details_overrides :
  (∀ details concise : bool,
     resolve_concise details concise = true ↔ details = false ∧ concise = true)
  ∧ (∀ {D : Type} (client : Client D) (d : D) (rand : nat → Pagination.draw)
       (params : ListRecordsInput) (b : bool),
       include_details params = true →
       cf_dns_list_records client d rand (with_concise b params)
       = cf_dns_list_records client d rand params)
  ∧ (∀ (rand : nat → Pagination.draw) (params : ListRecordsInput) (records : list obj),
       include_details params = true →
       let concise :=
         resolve_concise (include_details params) (RecordsRead.concise params) in
       get (sample_output rand params concise records) "records"
       = array (Pagination.randomSample rand records (sample_size params))
       ∧ get (paginated_output params concise records) "records"
         = array (paged params records))
  ∧ (∀ {D : Type} (client : Client D) (d : D) (params : GetRecordInput) (b : bool),
       get_include_details params = true →
       cf_dns_get_record client d (with_get_concise b params)
       = cf_dns_get_record client d params)
  ∧ (∀ {D : Type} (client : Client D) (d : D) (params : GetRecordInput) (record : obj),
       get_include_details params = true →
       records_get client d (record_id params) [ ("zone_id", VStr (get_zone_id params)) ]
       = inr record →
       cf_dns_get_record client d params = ok (stringify [ ("record", VObj record) ]))
  ∧ (∀ (records : list obj) (details concise : bool),
       formatRecords records (resolve_concise details concise)
       = if negb details && concise
         then map (fun r => formatRecord r true) records
         else records).
Proof.
  split.
  { intros [] []; simpl; split; try tauto; try discriminate; intros [? ?]; discriminate. }
  split.
  { intros D client d rand params b Hdetails.
    unfold cf_dns_list_records. rewrite fetch_with_concise.
    simpl include_details. simpl summary_only. simpl random_sample.
    rewrite Hdetails. reflexivity. }
  split.
  { intros rand params records Hdetails concise. unfold concise. rewrite Hdetails.
    simpl resolve_concise. split.
    - unfold sample_output. now rewrite formatRecords_full.
    - destruct (paginated_fields params false records) as [_ Hrecs].
      rewrite Hrecs. now rewrite formatRecords_full. }
  split.
  { intros D client d params b Hdetails.
    unfold cf_dns_get_record. simpl. rewrite Hdetails. reflexivity. }
  split.
  { intros D client d params record Hdetails Hget.
    unfold cf_dns_get_record. rewrite Hget, Hdetails. reflexivity. }
  intros records [] []; simpl; try apply formatRecords_full; reflexivity.
Qed.

End QueryProofs.

(** ** Where the Size Guard runs *)

Module SizeGuardPlacement.
Import Constants Directory RecordFormatter RecordsRead RecordsBulk.
Import SizeGuardProofs SampleDirectory SampleRequests.

(** The claim that every payload goes through the Size Guard fails on a
    bulk creation of one hundred text records: the response is the
    serialized result as it is, longer than the budget, and differs from
    what the Size Guard makes of that payload. *)
Lemma size_guard_everywhere_counterexample :
  let resp := snd (Create.cf_dns_bulk_create sample_client [] large_batch) in
  isError resp = false
  ∧ CHARACTER_LIMIT < str_length (text resp)
  ∧ text resp
    ≠ Pagination.truncateIfNeeded
        (stringify (Create.output large_batch
                      (snd (Create.run sample_client [] large_batch)))).
Proof.
  split; [vm_compute; reflexivity|]. split; [vm_compute; reflexivity|].
  intros Heq.
  pose proof (truncate_bound
    (stringify (Create.output large_batch
                  (snd (Create.run sample_client [] large_batch))))) as Hbound.
  rewrite <- Heq in Hbound. apply Z.leb_le in Hbound.
  vm_compute in Hbound. discriminate.
Qed.

(** C1, as the code has it.  The Size Guard is the last step of a
    list-records response in sample mode and in paginated mode, whose
    text therefore never exceeds the budget by more than the notice.  A
    summary-mode response, a get-record response and the result of a
    bulk creation or update are the serialized payload itself. *)
Theorem size_guard_placement :
  (∀ {D : Type} (client : Client D) (d : D) (rand : nat → Pagination.draw)
     (params : ListRecordsInput) (records : list obj),
     fetch client d params = inr records →
     let concise := resolve_concise (include_details params) (RecordsRead.concise params) in
     let resp := cf_dns_list_records client d rand params in
     (summary_only params = true →
        text resp = stringify (summary_output records))
     ∧ (summary_only params = false → random_sample params = true →
          text resp
          = Pagination.truncateIfNeeded
              (stringify (sample_output rand params concise records)))
     ∧ (summary_only params = false → random_sample params = false →
          text resp
          = Pagination.truncateIfNeeded
              (stringify (paginated_output params concise records)))
     ∧ (summary_only params = false →
          str_length (text resp)
          <= CHARACTER_LIMIT + str_length Pagination.TRUNCATION_NOTICE))
  ∧ (∀ {D : Type} (client : Client D) (d : D) (params : GetRecordInput) (record : obj),
       records_get client d (record_id params) [ ("zone_id", VStr (get_zone_id params)) ]
       = inr record →
       text (cf_dns_get_record client d params)
       = stringify
           (record_output
              (resolve_concise (get_include_details params) (get_concise params))
              record))
  ∧ (∀ {D : Type} (client : Client D) (d : D) (params : Create.BulkCreateInput),
       text (snd (Create.cf_dns_bulk_create client d params))
       = stringify (Create.output params (snd (Create.run client d params))))
  ∧ (∀ {D : Type} (client : Client D) (d : D) (params : Update.BulkUpdateInput),
       text (snd (Update.cf_dns_bulk_update client d params))
       = stringify (Update.output params (snd (Update.run client d params)))).
Proof.
  split.
  { intros D client d rand params records Hfetch concise resp.
    unfold resp, cf_dns_list_records. rewrite Hfetch. fold concise.
    split; [|split; [|split]].
    - intros ->. reflexivity.
    - intros -> ->. reflexivity.
    - intros -> ->. reflexivity.
    - intros ->. destruct (random_sample params); apply truncate_bound. }
  split.
  { intros D client d params record Hget.
    unfold cf_dns_get_record. rewrite Hget. reflexivity. }
  split.
  - intros D client d params. unfold Create.cf_dns_bulk_create.
    destruct (Create.run client d params). reflexivity.
  - intros D client d params. unfold Update.cf_dns_bulk_update.
    destruct (Update.run client d params). reflexivity.
Qed.

Lemma size_guard_placement_witness :
  text (cf_dns_list_records sample_client sample_zone zeros
          (list_request 1 50 true false))
  = stringify (summary_output sample_zone)
  ∧ text (cf_dns_get_record sample_client sample_zone (get_request "rec1" true false))
    = stringify (record_output true mail_record).
Proof.
  destruct size_guard_placement as (Hlist & Hget & _).
  split.
  - apply (Hlist _ sample_client sample_zone zeros (list_request 1 50 true false)
             sample_zone); reflexivity.
  - apply (Hget _ sample_client sample_zone (get_request "rec1" true false)
             mail_record).
    reflexivity.
Defined.

End SizeGuardPlacement.

Module QueryWitnesses.
Import Constants Directory RecordFormatter RecordsRead QuerySpec QueryProofs.
Import SampleDirectory SampleRequests.

(** Both flags set: the summary wins. *)
Lemma list_records_mode_witness :
  ∃ o, form_of o = Some SummaryForm
       ∧ cf_dns_list_records sample_client sample_zone zeros
           (list_request 1 50 true true) = ok (stringify o).
Proof.
  destruct (list_records_mode sample_client sample_zone zeros
              (list_request 1 50 true true) sample_zone eq_refl)
    as (o & Hform & _ & Hresp & _).
  exists o. split; [exact Hform|]. exact (proj2 Hresp).
Defined.

(** Page 5 of a zone of three records, two per page: an empty page. *)
Lemma paginated_page_witness :
  isError (cf_dns_list_records sample_client sample_zone zeros
             (list_request 5 2 false false)) = false
  ∧ get (paginated_output (list_request 5 2 false false) true sample_zone) "records"
    = VArr [].
Proof.
  destruct (paginated_page sample_client sample_zone zeros
              (list_request 5 2 false false) sample_zone
              eq_refl eq_refl eq_refl)
    as (_ & Herr & _ & _ & _ & Hbeyond); [simpl; lia | simpl; lia |].
  split; [exact Herr|].
  destruct Hbeyond as (_ & Hrecs & _); [simpl; lia | exact Hrecs].
Defined.

Lemma include_details_overrides_witness :
  cf_dns_get_record sample_client sample_zone (get_request "rec0" true true)
  = ok (stringify [ ("record", VObj address_record) ]).
Proof.
  destruct include_details_overrides as (_ & _ & _ & _ & Hget & _).
  apply (Hget _ sample_client sample_zone (get_request "rec0" true true)
           address_record); reflexivity.
Defined.

End QueryWitnesses.

(** ** Bulk Mutation Engine *)

Module BulkProofs.
Import Errors Directory RecordsBulk BulkSpec SampleDirectory SampleRequests.

Section ReplayFacts.
Context {D X : Type} (call : D → X → D * (thrown + obj)).

Lemma replies_length (d : D) (ops : list X) :
  length (replies call d ops) = length ops.
Proof.
  revert d. induction ops as [|op ops IH]; intros d; simpl; [reflexivity|].
  destruct (call d op) as [d' reply]. simpl. now rewrite IH.
Qed.

Lemma outcomes_length (entry : Z → X → thrown + obj → obj) (i : Z) (d : D)
    (ops : list X) :
  length (outcomes call entry i d ops) = length ops.
Proof.
  revert i d. induction ops as [|op ops IH]; intros i d; simpl; [reflexivity|].
  destruct (call d op) as [d' reply]. simpl. now rewrite IH.
Qed.

(** Entry [n] is built from operation [n] and the reply to it. *)
Lemma outcomes_lookup (entry : Z → X → thrown + obj → obj) (ops : list X) :
  ∀ (i : Z) (d : D) (n : nat) (reply : thrown + obj),
    replies call d ops !! n = Some reply →
    ∃ op, ops !! n = Some op
          ∧ outcomes call entry i d ops !! n = Some (entry (i + Z.of_nat n) op reply).
Proof.
  induction ops as [|op ops IH]; intros i d n reply; simpl.
  - intros H. destruct n; discriminate.
  - destruct (call d op) as [d' r]. destruct n as [|n]; simpl.
    + intros [= ->]. exists op. split; [reflexivity|]. do 2 f_equal. lia.
    + intros H. destruct (IH (i + 1) d' n reply H) as (op' & Hop & Hout).
      exists op'. split; [exact Hop|]. rewrite Hout. do 2 f_equal. lia.
Qed.

Lemma failures_cons (reply : thrown + obj) (rs : list (thrown + obj)) :
  failures (reply :: rs) = (if is_failure reply then 1 else 0) + failures rs.
Proof. unfold failures. simpl. destruct (is_failure reply); simpl; lia. Qed.

Lemma failures_bounds (rs : list (thrown + obj)) :
  0 <= failures rs <= Z.of_nat (length rs).
Proof.
  unfold failures. pose proof (List.filter_length_le is_failure rs). lia.
Qed.
End ReplayFacts.

(** The creation loop, entered at index [i] with tally [t]. *)
Lemma create_loop_replay {D : Type} (client : Client D) (zone : string)
    (recs : list Create.Item) :
  ∀ (i : Z) (d : D) (t : Tally),
    Create.loop client zone recs i d t
    = (final_state (create_call client zone) d recs,
       {| results := results t ++ outcomes (create_call client zone) create_entry i d recs;
          succeeded := succeeded t + (Z.of_nat (length recs)
                                      - failures (replies (create_call client zone) d recs));
          failed := failed t + failures (replies (create_call client zone) d recs) |}).
Proof.
  induction recs as [|rec recs IH]; intros i d t.
  - simpl. rewrite app_nil_r. destruct t. simpl. f_equal. f_equal; unfold failures; simpl; lia.
  - simpl.
    change (records_create client d (Create.request zone rec))
      with (create_call client zone d rec).
    destruct (create_call client zone d rec) as [d' [error|record]];
      rewrite IH; simpl; rewrite failures_cons; simpl; f_equal;
      f_equal; try lia; rewrite <- app_assoc; reflexivity.
Qed.

Lemma update_loop_replay {D : Type} (client : Client D) (zone : string)
    (recs : list Update.Item) :
  ∀ (i : Z) (d : D) (t : Tally),
    Update.loop client zone recs i d t
    = (final_state (update_call client zone) d recs,
       {| results := results t ++ outcomes (update_call client zone) update_entry i d recs;
          succeeded := succeeded t + (Z.of_nat (length recs)
                                      - failures (replies (update_call client zone) d recs));
          failed := failed t + failures (replies (update_call client zone) d recs) |}).
Proof.
  induction recs as [|rec recs IH]; intros i d t.
  - simpl. rewrite app_nil_r. destruct t. simpl. f_equal. f_equal; unfold failures; simpl; lia.
  - simpl.
    change (records_edit client d (Update.record_id rec) (Update.request zone rec))
      with (update_call client zone d rec).
    destruct (update_call client zone d rec) as [d' [error|record]];
      rewrite IH; simpl; rewrite failures_cons; simpl; f_equal;
      f_equal; try lia; rewrite <- app_assoc; reflexivity.
Qed.

Lemma create_entry_describes (i : nat) (rec : Create.Item) (reply : thrown + obj) :
  describes (create_entry (0 + Z.of_nat i) rec reply) i reply.
Proof. unfold describes. destruct reply; simpl; repeat split; reflexivity. Qed.

Lemma update_entry_describes (i : nat) (rec : Update.Item) (reply : thrown + obj) :
  describes (update_entry (0 + Z.of_nat i) rec reply) i reply.
Proof. unfold describes. destruct reply; simpl; repeat split; reflexivity. Qed.

(** C2.  For every list of bulk create operations, and likewise of
    bulk update operations (in particular for up to 100 of them): every
    operation is sent to the Directory, in input order, whatever
    happened to the earlier ones; with [k] the number of calls that
    fail, the result has [failed = k], [created] (or [updated])
    [= length - k] and [total = length]; and [results] holds one entry per
    operation, in input order, entry [i] carrying [index = i], the success
    flag of call [i], and the description of the error when the call
    failed. *)
Theorem bulk_outcomes :
  (∀ {D : Type} (client : Client D) (d : D) (params : Create.BulkCreateInput),
     let ops := Create.records params in
     let call := create_call client (Create.zone_id params) in
     let rs := replies call d ops in
     let t := snd (Create.run client d params) in
     let k := failures rs in
     length rs = length ops
     ∧ fst (Create.run client d params) = final_state call d ops
     ∧ failed t = k
     ∧ succeeded t = Z.of_nat (length ops) - k
     ∧ length (results t) = length ops
     ∧ (∀ (i : nat) (reply : thrown + obj),
          rs !! i = Some reply →
          ∃ entry, results t !! i = Some entry ∧ describes entry i reply)
     ∧ Create.output params t
       = [ ("created", VNum (Z.of_nat (length ops) - k)); ("failed", VNum k);
           ("total", VNum (Z.of_nat (length ops)));
           ("results", VArr (map VObj (results t))) ]
     ∧ snd (Create.cf_dns_bulk_create client d params)
       = ok (stringify (Create.output params t)))
  ∧ (∀ {D : Type} (client : Client D) (d : D) (params : Update.BulkUpdateInput),
       let ops := Update.records params in
       let call := update_call client (Update.zone_id params) in
       let rs := replies call d ops in
       let t := snd (Update.run client d params) in
       let k := failures rs in
       length rs = length ops
       ∧ fst (Update.run client d params) = final_state call d ops
       ∧ failed t = k
       ∧ succeeded t = Z.of_nat (length ops) - k
       ∧ length (results t) = length ops
       ∧ (∀ (i : nat) (reply : thrown + obj),
            rs !! i = Some reply →
            ∃ entry, results t !! i = Some entry ∧ describes entry i reply)
       ∧ Update.output params t
         = [ ("updated", VNum (Z.of_nat (length ops) - k)); ("failed", VNum k);
             ("total", VNum (Z.of_nat (length ops)));
             ("results", VArr (map VObj (results t))) ]
       ∧ snd (Update.cf_dns_bulk_update client d params)
         = ok (stringify (Update.output params t))).
Proof.
  split.
  - intros D client d params ops call rs t k.
    assert (Hrun : Create.run client d params
                   = (final_state call d ops,
                      {| results := outcomes call create_entry 0 d ops;
                         succeeded := Z.of_nat (length ops) - k;
                         failed := k |})).
    { unfold Create.run. rewrite create_loop_replay. reflexivity. }
    unfold t. unfold Create.cf_dns_bulk_create, Create.output. rewrite Hrun. simpl.
    split; [apply replies_length|]. split; [reflexivity|].
    split; [reflexivity|]. split; [reflexivity|].
    split; [apply outcomes_length|]. split; [|split; reflexivity].
    intros i reply Hreply.
    destruct (outcomes_lookup call create_entry ops 0 d i reply Hreply)
      as (op & _ & Hentry).
    eexists. split; [exact Hentry|]. apply create_entry_describes.
  - intros D client d params ops call rs t k.
    assert (Hrun : Update.run client d params
                   = (final_state call d ops,
                      {| results := outcomes call update_entry 0 d ops;
                         succeeded := Z.of_nat (length ops) - k;
                         failed := k |})).
    { unfold Update.run. rewrite update_loop_replay. reflexivity. }
    unfold t. unfold Update.cf_dns_bulk_update, Update.output. rewrite Hrun. simpl.
    split; [apply replies_length|]. split; [reflexivity|].
    split; [reflexivity|]. split; [reflexivity|].
    split; [apply outcomes_length|]. split; [|split; reflexivity].
    intros i reply Hreply.
    destruct (outcomes_lookup call update_entry ops 0 d i reply Hreply)
      as (op & _ & Hentry).
    eexists. split; [exact Hentry|]. apply update_entry_describes.
Qed.

(** Five operations of which the one at index 3 fails: four created, one
    failed, and only entry 3 unsuccessful. *)
Example bulk_create_five :
  let t := snd (Create.run sample_client [] batch_of_five) in
  succeeded t = 4 ∧ failed t = 1
  ∧ map (fun entry => get entry "success") (results t)
    = [ VBool true; VBool true; VBool true; VBool false; VBool true ]
  ∧ map (fun entry => get entry "index") (results t)
    = [ VNum 0; VNum 1; VNum 2; VNum 3; VNum 4 ].
Proof. vm_compute. repeat split; reflexivity. Qed.

Lemma bulk_outcomes_witness :
  ∃ entry,
    results (snd (Create.run sample_client [] batch_of_five)) !! 3%nat = Some entry
    ∧ describes entry 3
        (inl (api_error 400 "content must not be empty")).
Proof.
  destruct bulk_outcomes as [Hcreate _].
  destruct (Hcreate _ sample_client [] batch_of_five) as (_ & _ & _ & _ & _ & Hentry & _).
  apply (Hentry 3%nat). reflexivity.
Defined.

End BulkProofs.

(** ** Sampler *)

Module SamplerProofs.
Import Pagination SamplerSpec SampleRequests.

Section SwapFacts.
Context {A : Type}.
Implicit Types (a : list A) (x y : A).

(** A draw times [m] stays below [m]: the position drawn at [i] is one
    of [0 .. i]. *)
Lemma floor_times_lt (u : draw) (m : nat) : (0 < m)%nat → (floor_times u m < m)%nat.
Proof.
  intros Hm. unfold floor_times. apply Nat.Div0.div_lt_upper_bound. nia.
Qed.

(** Inside the array, [swap] exchanges the two positions. *)
Lemma swap_in_range a (i j : nat) :
  (i < length a)%nat → (j <= i)%nat →
  swap a i j !! i = a !! j ∧ swap a i j !! j = a !! i.
Proof.
  intros Hi Hj. unfold swap.
  destruct (lookup_lt_is_Some_2 a j ltac:(lia)) as [aj Haj].
  destruct (lookup_lt_is_Some_2 a i Hi) as [ai Hai].
  rewrite Haj, Hai.
  destruct (decide (i = j)) as [->|Hne].
  - rewrite list_insert_insert_eq, list_lookup_insert_eq by lia.
    split; congruence.
  - split.
    + rewrite list_lookup_insert_ne by congruence.
      now rewrite list_lookup_insert_eq by lia.
    + now rewrite list_lookup_insert_eq by (rewrite length_insert; lia).
Qed.

Lemma insert_cons_perm a (j : nat) x y :
  a !! j = Some y → y :: <[j := x]> a ≡ₚ x :: a.
Proof.
  revert j. induction a as [|z a IH]; intros [|j] Hj; simpl in *; try discriminate.
  - injection Hj as ->. apply Permutation_swap.
  - rewrite (Permutation_swap z y). rewrite (IH j Hj). apply Permutation_swap.
Qed.

Lemma swap_perm a (i j : nat) : swap a i j ≡ₚ a.
Proof.
  unfold swap.
  destruct (a !! j) as [aj|] eqn:Hj; [|reflexivity].
  destruct (a !! i) as [ai|] eqn:Hi; [|reflexivity].
  revert i j Hi Hj. induction a as [|z a IH]; intros [|i] [|j] Hi Hj;
    simpl in *; try discriminate.
  - injection Hi as ->. reflexivity.
  - injection Hi as ->. now apply insert_cons_perm.
  - injection Hj as ->. now apply insert_cons_perm.
  - f_equiv. now apply IH.
Qed.

Lemma shuffle_loop_perm (rand : nat → draw) (i k : nat) a :
  shuffle_loop rand i k a ≡ₚ a.
Proof.
  revert k a. induction i as [|i IH]; intros k a; simpl; [reflexivity|].
  rewrite IH. apply swap_perm.
Qed.

(** The loop of the source is the backward pass of the specification,
    entered at step [k]. *)
Lemma shuffle_loop_fold (rand : nat → draw) (len : nat) :
  ∀ (i k : nat) a,
    (i + k + 1 = len)%nat →
    shuffle_loop rand i k a = fold_left (swap_step rand len) (seq k i) a.
Proof.
  induction i as [|i IH]; intros k a Hlen; [reflexivity|].
  simpl shuffle_loop. simpl seq. simpl fold_left.
  rewrite IH by lia. f_equal. unfold swap_step.
  replace (len - 1 - k)%nat with (S i) by lia. reflexivity.
Qed.

Lemma slice_prefix a (n : Z) : 0 <= n → slice a 0 n = take (Z.to_nat n) a.
Proof.
  intros Hn. replace n with (0 + n) at 1 by lia.
  rewrite QueryProofs.slice_window by lia. reflexivity.
Qed.

Lemma randomSample_all (rand : nat → draw) a (n : Z) :
  Z.of_nat (length a) <= n → randomSample rand a n = a.
Proof.
  intros H. unfold randomSample.
  destruct (Z.leb_spec (Z.of_nat (length a)) n); [reflexivity | lia].
Qed.

Lemma randomSample_fewer (rand : nat → draw) a (n : nat) :
  (n < length a)%nat →
  randomSample rand a (Z.of_nat n)
  = take n (shuffle_loop rand (length a - 1) 0 a).
Proof.
  intros H. unfold randomSample.
  destruct (Z.leb_spec (Z.of_nat (length a)) (Z.of_nat n)); [lia|].
  rewrite slice_prefix by lia. now rewrite Nat2Z.id.
Qed.

(** The value-level properties of a sample. *)
Lemma randomSample_value (rand : nat → draw) a (n : nat) :
  let out := randomSample rand a (Z.of_nat n) in
  length out = Nat.min n (length a)
  ∧ out ⊆+ a
  ∧ (NoDup a → NoDup out)
  ∧ ((length a <= n)%nat → out = a).
Proof.
  intros out. unfold out.
  destruct (Nat.le_gt_cases (length a) n) as [Hall|Hfew].
  - rewrite randomSample_all by lia.
    split; [lia|]. split; [reflexivity|]. split; auto.
  - rewrite randomSample_fewer by lia.
    pose proof (shuffle_loop_perm rand (length a - 1) 0 a) as Hperm.
    split.
    { rewrite length_take, (Permutation_length Hperm). lia. }
    split.
    { etrans; [apply sublist_submseteq, sublist_take|]. now rewrite Hperm. }
    split; [|lia].
    intros Hnd. apply (sublist_NoDup _ (shuffle_loop rand (length a - 1) 0 a)).
    + now rewrite Hperm.
    + apply sublist_take.
Qed.

(** *** The store *)

Lemma deref_fresh (h : list (list A)) a : deref (h ++ [a]) (length h) = a.
Proof. unfold deref. now rewrite list_lookup_middle. Qed.

Lemma shuffle_loop_in_fresh (rand : nat → draw) (h : list (list A)) :
  ∀ (i k : nat) a,
    shuffle_loop_in rand i k (h ++ [a]) (length h)
    = h ++ [shuffle_loop rand i k a].
Proof.
  induction i as [|i IH]; intros k a; simpl; [reflexivity|].
  unfold swap_in. rewrite deref_fresh.
  rewrite insert_app_r_alt by lia.
  replace (length h - length h)%nat with 0%nat by lia. simpl. apply IH.
Qed.

(** The reference returned holds the sample; every array of the
    store the call started from is as it was. *)
Lemma randomSample_in_value (rand : nat → draw) (h : list (list A)) (items : nat) a
    (n : Z) :
  h !! items = Some a →
  let hr := randomSample_in rand h items n in
  hr.1 !! hr.2 = Some (randomSample rand a n)
  ∧ ∀ r b, h !! r = Some b → hr.1 !! r = Some b.
Proof.
  intros Hitems. unfold randomSample_in, randomSample.
  assert (Hderef : deref h items = a) by (unfold deref; now rewrite Hitems).
  rewrite Hderef.
  destruct (Z.of_nat (length a) <=? n); simpl.
  - split; [exact Hitems | auto].
  - rewrite deref_fresh, shuffle_loop_in_fresh, deref_fresh.
    split.
    + now apply list_lookup_middle.
    + intros r b Hr. rewrite <- app_assoc.
      rewrite lookup_app_l; [exact Hr|]. now apply lookup_lt_Some in Hr.
Qed.
End SwapFacts.

(** The sampler of the specification and [randomSample] disagree on the
    list 1, 2, 3 with [n = 1] when every draw is zero: the procedure of
    the specification returns the first element, the code the second. *)
Lemma partial_fisher_yates_counterexample :
  (1 < length [1; 2; 3])%nat
  ∧ randomSample zeros [1; 2; 3] 1 = [2]
  ∧ partial_fisher_yates zeros [1; 2; 3] 1 = [1]
  ∧ randomSample zeros [1; 2; 3] (Z.of_nat 1) ≠ partial_fisher_yates zeros [1; 2; 3] 1.
Proof.
  split; [simpl; lia|]. split; [reflexivity|]. split; [reflexivity|].
  vm_compute. discriminate.
Qed.

(** C3, as the code has it.  For [n < len(R)] the sample is computed by
    the backward swap pass of the specification run over the whole
    working copy: [len(R) - 1] swaps, one for each position from the last
    down to the second, each with a position drawn among itself and the
    earlier ones; the result is the first [n] positions of the working
    copy. *)
Theorem randomSample_full_shuffle {A : Type} (rand : nat → draw) (R : list A) (n : nat) :
  (n < length R)%nat →
  randomSample rand R (Z.of_nat n) = take n (after_swaps rand R (length R - 1)).
Proof.
  intros Hn. rewrite randomSample_fewer by exact Hn. f_equal.
  unfold after_swaps. apply shuffle_loop_fold. lia.
Qed.

Lemma randomSample_full_shuffle_witness :
  randomSample zeros [1; 2; 3] (Z.of_nat 1)
  = take 1 (after_swaps zeros [1; 2; 3] (length [1; 2; 3] - 1)).
Proof.
  apply (randomSample_full_shuffle zeros [1; 2; 3] 1). simpl. lia.
Defined.

(** C5.  For an array [R] held in the store and every [n], the array
    returned by [randomSample] has [min(n, len(R))] elements, each taken
    from a different position of [R] (so none twice when [R] has no
    duplicates); for [n >= len(R)] it is [R]; and after the call [R], like
    every other array of the store, is what it was before. *)
Theorem randomSample_sound {A : Type} (rand : nat → draw) (h : list (list A))
    (items : nat) (R : list A) (n : nat) :
  h !! items = Some R →
  let hr := randomSample_in rand h items (Z.of_nat n) in
  ∃ out,
    hr.1 !! hr.2 = Some out
    ∧ length out = Nat.min n (length R)
    ∧ out ⊆+ R
    ∧ (NoDup R → NoDup out)
    ∧ ((length R <= n)%nat → out = R)
    ∧ hr.1 !! items = Some R
    ∧ (∀ r a, h !! r = Some a → hr.1 !! r = Some a).
Proof.
  intros Hitems hr.
  destruct (randomSample_in_value rand h items R (Z.of_nat n) Hitems) as [Hout Hkeep].
  fold hr in Hout, Hkeep.
  destruct (randomSample_value rand R n) as (Hlen & Hsub & Hnd & Hall).
  exists (randomSample rand R (Z.of_nat n)).
  split; [exact Hout|]. split; [exact Hlen|]. split; [exact Hsub|].
  split; [exact Hnd|]. split; [exact Hall|]. split; [now apply Hkeep | exact Hkeep].
Qed.

Lemma randomSample_sound_witness :
  let hr := randomSample_in zeros [[10; 20; 30; 40; 50]] 0%nat (Z.of_nat 2) in
  ∃ out,
    hr.1 !! hr.2 = Some out
    ∧ length out = Nat.min 2 (length [10; 20; 30; 40; 50])
    ∧ out ⊆+ [10; 20; 30; 40; 50]
    ∧ (NoDup [10; 20; 30; 40; 50] → NoDup out)
    ∧ ((length [10; 20; 30; 40; 50] <= 2)%nat → out = [10; 20; 30; 40; 50])
    ∧ hr.1 !! 0%nat = Some [10; 20; 30; 40; 50]
    ∧ (∀ r a, [[10; 20; 30; 40; 50]] !! r = Some a → hr.1 !! r = Some a).
Proof.
  apply (randomSample_sound zeros [[10; 20; 30; 40; 50]] 0%nat [10; 20; 30; 40; 50] 2).
  reflexivity.
Defined.

End SamplerProofs.

(** ** The formatter and the summarizer on the sample zone *)

Module RecordWitnesses.
Import RecordFormatter SummarySpec SummaryProofs FormatterProofs SampleDirectory.

(** A record without a type, next to an address record. *)
Lemma buildRecordSummary_counts_witness :
  plain_types [ address_record; [ ("id", VStr "x") ] ]
  ∧ ∃ c, lookup_prop (by_type (buildRecordSummary [ address_record; [ ("id", VStr "x") ] ]))
           "UNKNOWN" = Some (VNum c)
         ∧ 1 <= c.
Proof.
  assert (Hplain : plain_types [ address_record; [ ("id", VStr "x") ] ]).
  { intros r Hr. apply list_elem_of_In in Hr. simpl in Hr.
    destruct Hr as [<-|[<-|[]]]; reflexivity. }
  split; [exact Hplain|].
  destruct (buildRecordSummary_counts [ address_record; [ ("id", VStr "x") ] ] Hplain)
    as (_ & _ & _ & _ & _ & Hmissing & _).
  destruct (Hmissing [ ("id", VStr "x") ]) as [_ H].
  - apply list_elem_of_In. simpl. auto.
  - left. reflexivity.
  - exact H.
Defined.

Lemma formatRecord_concise_fields_witness :
  has_key (formatRecord mail_record true) "priority" = true
  ∧ get (formatRecord mail_record true) "priority"
    = Number_ (get mail_record "priority").
Proof.
  destruct (formatRecord_concise_fields mail_record) as (_ & _ & _ & Hmx & _).
  apply Hmx; [reflexivity | vm_compute; discriminate].
Defined.

Example summary_of_sample_zone :
  buildRecordSummary sample_zone
  = {| total := 3;
       by_type := [ ("A", VNum 1); ("MX", VNum 1); ("TXT", VNum 1) ];
       proxied := 1; dns_only := 2 |}.
Proof. reflexivity. Qed.

Example concise_mail_record :
  formatRecord mail_record true
  = [ ("id", VStr "rec1"); ("type", VStr "MX"); ("name", VStr "example.com");
      ("content", VStr "mail.example.com"); ("ttl", VNum 300);
      ("priority", VNum 10) ].
Proof. reflexivity. Qed.

End RecordWitnesses.

(** * Further properties *)

(** ** The Query Engine: the cap of the fetch and the sample mode *)

Module QueryExtras.
Import Constants Directory RecordFormatter RecordsRead FormatterProofs QueryProofs.

Lemma collect_uncapped (params : ListRecordsInput) (rest : list obj)
    (failure : option Errors.thrown) :
  summary_only params = true ∨ random_sample params = true →
  ∀ records,
    collect params records rest failure
    = match failure with
      | Some error => inl error
      | None => inr (records ++ rest)
      end.
Proof.
  intros Hmode. induction rest as [|record rest IH]; intros records; simpl.
  - now rewrite app_nil_r.
  - replace ((per_page params * 10 <=? Z.of_nat (length (records ++ [record])))
             && negb (summary_only params) && negb (random_sample params))
      with false
      by (destruct Hmode as [-> | ->]; simpl; now rewrite ?andb_false_r).
    rewrite IH, <- app_assoc. reflexivity.
Qed.

Lemma collect_capped (params : ListRecordsInput) (rest : list obj)
    (failure : option Errors.thrown) :
  summary_only params = false → random_sample params = false →
  ∀ records,
    Z.of_nat (length records) < per_page params * 10 →
    collect params records rest failure
    = if per_page params * 10 <=? Z.of_nat (length records + length rest)
      then inr (records
                ++ take (Z.to_nat (per_page params * 10) - length records) rest)
      else match failure with
           | Some error => inl error
           | None => inr (records ++ rest)
           end.
Proof.
  intros Hsum Hsample. induction rest as [|record rest IH]; intros records Hbelow.
  - simpl. destruct (Z.leb_spec (per_page params * 10)
                       (Z.of_nat (length records + 0))); [lia|].
    now rewrite app_nil_r.
  - simpl collect. rewrite Hsum, Hsample. simpl negb. rewrite !andb_true_r.
    rewrite length_app. simpl length.
    destruct (Z.leb_spec (per_page params * 10) (Z.of_nat (length records + 1)))
      as [Hfull|Hroom].
    + destruct (Z.leb_spec (per_page params * 10)
                  (Z.of_nat (length records + S (length rest)))); [|lia].
      replace (Z.to_nat (per_page params * 10) - length records)%nat with 1%nat by lia.
      reflexivity.
    + rewrite IH by (rewrite length_app; simpl; lia).
      rewrite length_app. simpl length.
      replace (length records + 1 + length rest)%nat
        with (length records + S (length rest))%nat by lia.
      destruct (Z.leb_spec (per_page params * 10)
                  (Z.of_nat (length records + S (length rest)))).
      * replace (Z.to_nat (per_page params * 10) - length records)%nat
          with (S (Z.to_nat (per_page params * 10) - (length records + 1)))%nat by lia.
        simpl take. now rewrite <- app_assoc.
      * now rewrite <- app_assoc.
Qed.

(** X1.  The loop that gathers the records of a request.  In summary and
    in sample mode it gathers every record the Directory yields, and
    reports a failure of the listing.  In paginated mode, with
    [per_page >= 1], it stops at [10 * per_page] records: when the
    Directory yields that many, exactly the first [10 * per_page] are kept
    and a later failure of the listing goes unnoticed; otherwise it
    behaves as in the other modes. *)
Theorem collect_defensive_cap (params : ListRecordsInput) (yielded : list obj)
    (failure : option Errors.thrown) :
  (summary_only params = true ∨ random_sample params = true →
     collect params [] yielded failure
     = match failure with
       | Some error => inl error
       | None => inr yielded
       end)
  ∧ (summary_only params = false → random_sample params = false →
     1 <= per_page params →
       (per_page params * 10 <= Z.of_nat (length yielded) →
          collect params [] yielded failure
          = inr (take (Z.to_nat (per_page params * 10)) yielded))
       ∧ (Z.of_nat (length yielded) < per_page params * 10 →
            collect params [] yielded failure
            = match failure with
              | Some error => inl error
              | None => inr yielded
              end)).
Proof.
  split.
  - intros Hmode. now rewrite collect_uncapped.
  - intros Hsum Hsample Hper.
    pose proof (collect_capped params yielded failure Hsum Hsample []) as Hcap.
    simpl in Hcap. rewrite Nat.sub_0_r in Hcap.
    split; intros Hlen; rewrite Hcap by lia.
    + destruct (Z.leb_spec (per_page params * 10) (Z.of_nat (length yielded)));
        [reflexivity | lia].
    + destruct (Z.leb_spec (per_page params * 10) (Z.of_nat (length yielded)));
        [lia | reflexivity].
Qed.

Lemma collect_defensive_cap_witness :
  collect (SampleRequests.list_request 1 1 false false) []
    (repeat SampleDirectory.text_record 12)
    (Some (SampleDirectory.api_error 429 "slow down"))
  = inr (take (Z.to_nat (1 * 10)) (repeat SampleDirectory.text_record 12)).
Proof.
  destruct (collect_defensive_cap (SampleRequests.list_request 1 1 false false)
              (repeat SampleDirectory.text_record 12)
              (Some (SampleDirectory.api_error 429 "slow down"))) as [_ Hcap].
  destruct Hcap as [Hfull _]; [reflexivity | reflexivity | simpl; lia |].
  apply Hfull. simpl. lia.
Defined.

(** The records fetched for a paginated request number at most
    [10 * per_page]. *)
Lemma fetch_capped_length {D : Type} (client : Client D) (d : D)
    (params : ListRecordsInput) (records : list obj) :
  fetch client d params = inr records →
  summary_only params = false → random_sample params = false →
  1 <= per_page params →
  Z.of_nat (length records) <= per_page params * 10.
Proof.
  unfold fetch. intros Hfetch Hsum Hsample Hper.
  destruct (records_list client d _) as [error|page]; [discriminate|].
  destruct (collect_defensive_cap params (yielded page) (failure page))
    as [_ Hcap].
  destruct (Hcap Hsum Hsample Hper) as [Hfull Hshort].
  destruct (Z.le_gt_cases (per_page params * 10) (Z.of_nat (length (yielded page))))
    as [Hlen|Hlen].
  - rewrite Hfull in Hfetch by exact Hlen. injection Hfetch as <-.
    rewrite length_take. lia.
  - rewrite Hshort in Hfetch by lia.
    destruct (failure page); [discriminate|]. injection Hfetch as <-. lia.
Qed.

(** X2.  In paginated mode every page after the tenth is empty, however
    many records the zone holds: the records fetched stop at
    [10 * per_page], so for [page >= 11] the response has no records,
    [count = 0] and [has_more = false]. *)
Theorem pages_after_tenth_empty {D : Type} (client : Client D) (d : D)
    (params : ListRecordsInput) (records : list obj) :
  fetch client d params = inr records →
  summary_only params = false → random_sample params = false →
  1 <= per_page params → 11 <= page params →
  let concise := resolve_concise (include_details params) (RecordsRead.concise params) in
  let o := paginated_output params concise records in
  get o "records" = VArr []
  ∧ get o "pagination"
    = VObj [ ("total", VNum (Z.of_nat (length records)));
             ("count", VNum 0);
             ("page", VNum (page params));
             ("per_page", VNum (per_page params));
             ("has_more", VBool false) ].
Proof.
  intros Hfetch Hsum Hsample Hper Hpage concise o.
  pose proof (fetch_capped_length client d params records Hfetch Hsum Hsample Hper)
    as Hcap.
  destruct (paginated_fields params concise records) as [Hmeta Hrecs].
  fold o in Hmeta, Hrecs.
  assert (Hpaged : paged params records = []).
  { rewrite paged_window by lia. rewrite drop_ge by nia. apply take_nil. }
  rewrite Hpaged in Hmeta, Hrecs.
  split; [exact Hrecs|]. rewrite Hmeta.
  unfold pagination_value, Pagination.buildPaginationMeta. simpl.
  destruct (Z.ltb_spec (page params * per_page params) (Z.of_nat (length records)));
    [nia | reflexivity].
Qed.

Lemma pages_after_tenth_empty_witness :
  get (paginated_output (SampleRequests.list_request 11 1 false false) true
         SampleDirectory.sample_zone) "records" = VArr [].
Proof.
  apply (pages_after_tenth_empty SampleDirectory.sample_client
           SampleDirectory.sample_zone
           (SampleRequests.list_request 11 1 false false)
           SampleDirectory.sample_zone);
    [reflexivity | reflexivity | reflexivity | simpl; lia | simpl; lia].
Defined.

Lemma map_submseteq {A B : Type} (f : A → B) (l k : list A) :
  l ⊆+ k → map f l ⊆+ map f k.
Proof.
  induction 1; simpl.
  - constructor.
  - now constructor.
  - apply submseteq_swap.
  - now apply submseteq_cons.
  - etrans; eassumption.
Qed.

(** X3.  The sample mode, for a sample size that is not negative: the
    response holds [min(sample_size, total)] records, each the formatted
    form of a different fetched record, and reports that number as
    [sample_size] beside [total_in_zone]; with [sample_size <= 50], as the
    schema has it, at most 50 records. *)
Theorem sample_mode_size (rand : nat → Pagination.draw) (params : ListRecordsInput)
    (concise : bool) (records : list obj) :
  0 <= sample_size params →
  let total := Z.of_nat (length records) in
  let o := sample_output rand params concise records in
  get o "sample"
  = VObj [ ("total_in_zone", VNum total);
           ("sample_size", VNum (Z.min (sample_size params) total)) ]
  ∧ ∃ sampled,
      get o "records" = array sampled
      ∧ Z.of_nat (length sampled) = Z.min (sample_size params) total
      ∧ sampled ⊆+ formatRecords records concise
      ∧ (sample_size params <= 50 → (length sampled <= 50)%nat).
Proof.
  intros Hsize total o.
  destruct (SamplerProofs.randomSample_value rand records (Z.to_nat (sample_size params)))
    as (Hlen & Hsub & _ & _).
  rewrite Z2Nat.id in Hlen, Hsub by exact Hsize.
  assert (Hcount :
    Z.of_nat (length (formatRecords
                        (Pagination.randomSample rand records (sample_size params))
                        concise))
    = Z.min (sample_size params) total).
  { rewrite formatRecords_length, Hlen. unfold total. lia. }
  split.
  - unfold o, sample_output. fold total. simpl. rewrite Hcount. reflexivity.
  - exists (formatRecords (Pagination.randomSample rand records (sample_size params))
              concise).
    split; [reflexivity|]. split; [exact Hcount|].
    split; [now apply map_submseteq | lia].
Qed.

Lemma sample_mode_size_witness :
  get (sample_output SampleRequests.zeros (SampleRequests.list_request 1 50 false true)
         true SampleDirectory.sample_zone) "sample"
  = VObj [ ("total_in_zone", VNum (Z.of_nat (length SampleDirectory.sample_zone)));
           ("sample_size",
            VNum (Z.min (sample_size (SampleRequests.list_request 1 50 false true))
                    (Z.of_nat (length SampleDirectory.sample_zone)))) ].
Proof.
  apply (sample_mode_size SampleRequests.zeros
           (SampleRequests.list_request 1 50 false true) true
           SampleDirectory.sample_zone).
  simpl. lia.
Defined.

End QueryExtras.


(** ** The formatter and the error texts *)

Module FormatterExtras.
Import Errors RecordFormatter FormatterProofs ExtraSpec.

Lemma keys_set_prop_plain {V : Type} (o : list (string * V)) (k : string) (v : V) :
  array_index k = None →
  map fst (set_prop o k v)
  = if has_key o k then map fst o else map fst o ++ [k].
Proof.
  intros Hplain. unfold set_prop. destruct (has_key o k).
  - apply keys_update_prop.
  - rewrite Hplain, map_app. reflexivity.
Qed.

Ltac sublist_of_keys :=
  repeat first [ apply sublist_nil | apply sublist_skip | apply sublist_cons ].

Ltac distinct_keys :=
  repeat (constructor; [ rewrite list_elem_of_In; simpl; intuition discriminate | ]);
  constructor.

Lemma has_key_keys {V : Type} (o : list (string * V)) (k : string) :
  has_key o k = existsb (fun k' => String.eqb k' k) (map fst o).
Proof. unfold has_key. induction o as [|[k0 v0] o IH]; simpl; congruence. Qed.

(** The keys of [o] after [o[k] = v], for a key that is not an array
    index, from the keys of [o]. *)
Lemma keys_after_set {V : Type} (o : list (string * V)) (k : string) (v : V)
    (K : list string) :
  array_index k = None → map fst o = K →
  map fst (set_prop o k v)
  = if existsb (fun k' => String.eqb k' k) K then K else K ++ [k].
Proof.
  intros Hplain <-. rewrite keys_set_prop_plain by exact Hplain.
  now rewrite has_key_keys.
Qed.

Ltac keys_of_chain :=
  lazymatch goal with
  | |- map fst (set_prop ?o ?k ?v) = _ =>
      eapply eq_trans;
      [ apply (keys_after_set o k v); [ reflexivity | keys_of_chain ]
      | simpl; reflexivity ]
  | |- map fst _ = _ => eassumption
  end.

(** The keys of an object built as [formatRecord] builds its result,
    whatever the values stored and the outcome of each test. *)
Lemma keys_chain (base : obj) (c1 c2 c3 c4 c5 c6 : bool)
    (v1 v2 v3 v4 v5 v6 v7 v8 : value) :
  map fst base = CONCISE_CORE →
  let built :=
    let result := if c1 then set_prop base "proxied" v1 else base in
    let result := if c2 then set_prop result "comment" v2 else result in
    let result := if c3 then set_prop result "created_on" v3 else result in
    let result := if c4 then set_prop result "modified_on" v4 else result in
    let result := if c5 then set_prop result "priority" v5 else result in
    let result :=
      if c6 then
        let result := set_prop result "priority" v6 in
        let result := set_prop result "weight" v7 in
        set_prop result "port" v8
      else result in
    result in
  ∃ optional,
    map fst built = CONCISE_CORE ++ optional
    ∧ optional `sublist_of` CONCISE_OPTIONAL
    ∧ NoDup (map fst built).
Proof.
  intros Hbase built. unfold built.
  destruct c1, c2, c3, c4, c5, c6; cbv zeta iota.
  all: match goal with
       | |- ∃ _, map fst ?o = _ ∧ _ ∧ _ =>
           let K := fresh "K" in
           evar (K : list string);
           assert (Hkeys : map fst o = K) by (unfold K; keys_of_chain);
           unfold K in Hkeys; rewrite Hkeys; clear Hkeys
       end.
  all: eexists; split; [reflexivity|]; split;
      [ unfold CONCISE_OPTIONAL; sublist_of_keys | distinct_keys ].
Qed.

Lemma concise_keys (r : obj) :
  ∃ optional,
    map fst (formatRecord r true) = CONCISE_CORE ++ optional
    ∧ optional `sublist_of` CONCISE_OPTIONAL
    ∧ NoDup (map fst (formatRecord r true)).
Proof.
  exact (keys_chain
    [ ("id", VStr (String_ (nullish (get r "id") (VStr ""))));
      ("type", VStr (type_of r));
      ("name", VStr (String_ (nullish (get r "name") (VStr ""))));
      ("content", VStr (String_ (nullish (get r "content") (VStr ""))));
      ("ttl", if strict_equals_number (get r "ttl") 1
              then VStr "auto"
              else Number_ (nullish (get r "ttl") (VNum 0))) ]
    (includes ["A"; "AAAA"; "CNAME"] (type_of r))
    (truthy (get r "comment")) (truthy (get r "created_on"))
    (truthy (get r "modified_on"))
    (String.eqb (type_of r) "MX" && negb (is_undefined (get r "priority")))
    (String.eqb (type_of r) "SRV" && truthy (get r "data"))
    (VBool (truthy (get r "proxied")))
    (VStr (String_ (get r "comment")))
    (VStr (String_ (get r "created_on")))
    (VStr (String_ (get r "modified_on")))
    (Number_ (get r "priority"))
    (member (get r "data") "priority")
    (member (get r "data") "weight")
    (member (get r "data") "port")
    eq_refl).
Qed.

(** X4.  The concise projection of a record has the fields [id], [type],
    [name], [content], [ttl] first, in this order, each once; after them
    come only fields among [proxied], [comment], [created_on],
    [modified_on], [priority], [weight], [port], in this order.  No other
    field of the record ([zone_id], [meta], [tags], [data], ...) is ever
    part of it. *)
Theorem formatRecord_concise_keys (r : obj) :
  (∃ optional,
     map fst (formatRecord r true) = CONCISE_CORE ++ optional
     ∧ optional `sublist_of` CONCISE_OPTIONAL)
  ∧ NoDup (map fst (formatRecord r true))
  ∧ (∀ k, has_key (formatRecord r true) k = true →
          k ∈ CONCISE_CORE ++ CONCISE_OPTIONAL).
Proof.
  destruct (concise_keys r) as (optional & Hkeys & Hsub & Hnd).
  split; [exists optional; split; assumption|]. split; [exact Hnd|].
  intros k Hk. apply has_key_elem in Hk. rewrite Hkeys in Hk.
  apply elem_of_app in Hk as [Hcore|Hopt]; apply elem_of_app; [now left|].
  right. eapply elem_of_sublist; eassumption.
Qed.

Lemma prefix_app (p s : string) : String.prefix p (p +:+ s) = true.
Proof.
  induction p as [|c p IH]; [destruct s; reflexivity|].
  rewrite str_app_cons. simpl. destruct (ascii_dec c c); [exact IH | congruence].
Qed.

(** X5.  Whatever is thrown, the text [handleApiError] makes of it
    begins with [Error (] when it is an API error, the status following,
    and with [Error: ] when it is anything else. *)
Theorem handleApiError_prefix (error : thrown) :
  String.prefix (if is_APIError error then "Error (" else "Error: ")
    (handleApiError error) = true.
Proof.
  unfold handleApiError.
  destruct (is_APIError error).
  - destruct (status_is error 400), (status_is error 401), (status_is error 403),
      (status_is error 404), (status_is error 409), (status_is error 429);
      first [ reflexivity | apply prefix_app ].
  - destruct (is_APIConnectionError error), (is_RateLimitError error),
      (is_AuthenticationError error), (is_Error error);
      first [ reflexivity | apply prefix_app ].
Qed.

End FormatterExtras.

(** ** The write tools *)

Module WriteExtras.
Import Errors Directory RecordFormatter RecordsBulk RecordsWrite ExtraSpec.

Lemma update_payload_item (params : UpdateRecordInput) :
  update_payload params = Update.payload (as_update_item params).
Proof. reflexivity. Qed.

Lemma create_payload_item (params : CreateRecordInput) :
  create_payload params = Create.payload (as_item params).
Proof. reflexivity. Qed.

Lemma update_payload_empty (params : UpdateRecordInput) :
  (length (update_payload params) =? 0)%nat = no_fields params.
Proof.
  destruct params as [zone id c n t p m g a].
  unfold update_payload, no_fields; cbn [new_content new_name new_ttl new_proxied
    new_comment new_tags new_data].
  destruct c, n, t, p, m, g, a; reflexivity.
Qed.

(** X6.  The update tool refuses, with its own message and without a
    call on the Directory, the requests that give none of the seven
    fields, and only those: every other request makes one [edit] call
    whose request carries a field besides [zone_id], leaves the Directory
    as that call leaves it, and is an error exactly when the call is
    rejected. *)
Theorem update_needs_a_field {D : Type} (client : Client D) (d : D)
    (params : UpdateRecordInput) :
  let request := ("zone_id", VStr (update_zone_id params)) :: update_payload params in
  let after := records_edit client d (update_record_id params) request in
  (no_fields params = true →
     cf_dns_update_record client d params
     = (d, {| text := NO_FIELDS; isError := true |}))
  ∧ (no_fields params = false →
     (2 <= length request)%nat
     ∧ cf_dns_update_record client d params
       = (fst after,
          match snd after with
          | inr record =>
              ok (stringify [ ("updated", VBool true);
                              ("record", VObj (formatRecord record true)) ])
          | inl error => caught error
          end)
     ∧ isError (snd (cf_dns_update_record client d params)) = rejected (snd after)).
Proof.
  intros request after. unfold cf_dns_update_record.
  rewrite update_payload_empty. split; intros Hno; rewrite Hno; [reflexivity|].
  split.
  { pose proof (update_payload_empty params) as Hlen. rewrite Hno in Hlen.
    apply Nat.eqb_neq in Hlen. unfold request. cbn [length]. lia. }
  fold request. fold after.
  destruct after as [d' [error|record]]; cbn [fst snd]; split; reflexivity.
Qed.

Lemma update_needs_a_field_witness :
  no_fields (SampleClients.update_request "rec1" (Some "mx2.example.com")) = false
  ∧ fst (cf_dns_update_record SampleDirectory.sample_client SampleDirectory.sample_zone
           (SampleClients.update_request "rec1" (Some "mx2.example.com")))
    ≠ SampleDirectory.sample_zone
  ∧ cf_dns_update_record SampleDirectory.sample_client SampleDirectory.sample_zone
      (SampleClients.update_request "rec1" None)
    = (SampleDirectory.sample_zone, {| text := NO_FIELDS; isError := true |}).
Proof.
  split; [reflexivity|]. split.
  - destruct (update_needs_a_field SampleDirectory.sample_client
                SampleDirectory.sample_zone
                (SampleClients.update_request "rec1" (Some "mx2.example.com")))
      as [_ Hsome].
    destruct (Hsome eq_refl) as (_ & Hcall & _). rewrite Hcall.
    vm_compute. discriminate.
  - exact (proj1 (update_needs_a_field SampleDirectory.sample_client
                    SampleDirectory.sample_zone
                    (SampleClients.update_request "rec1" None)) eq_refl).
Defined.

(** X7.  A single update that gives a field is the bulk update of that
    one operation: the two make the same call, leave the Directory in the
    same state, and the answer of the single tool is the outcome recorded
    in the one entry of the bulk result. *)
Theorem update_is_bulk_of_one {D : Type} (client : Client D) (d : D)
    (params : UpdateRecordInput) :
  no_fields params = false →
  ∃ entry,
    results (snd (Update.run client d
                    {| Update.zone_id := update_zone_id params;
                       Update.records := [as_update_item params] |})) = [entry]
    ∧ cf_dns_update_record client d params
      = (fst (Update.run client d
                {| Update.zone_id := update_zone_id params;
                   Update.records := [as_update_item params] |}),
         single_response "updated" entry).
Proof.
  intros Hno. unfold cf_dns_update_record, Update.run.
  rewrite update_payload_empty, Hno.
  cbn [Update.loop Update.zone_id Update.records Update.request].
  rewrite update_payload_item.
  change (Update.record_id (as_update_item params)) with (update_record_id params).
  destruct (records_edit client d (update_record_id params) _) as [d' [error|record]];
    cbn [fst snd results app]; eexists; (split; [reflexivity|]); reflexivity.
Qed.

Lemma update_is_bulk_of_one_witness :
  no_fields (SampleClients.update_request "rec1" (Some "mx2.example.com")) = false
  ∧ ∃ entry,
      results (snd (Update.run SampleDirectory.sample_client SampleDirectory.sample_zone
                      {| Update.zone_id := "zone1";
                         Update.records :=
                           [as_update_item
                              (SampleClients.update_request "rec1"
                                 (Some "mx2.example.com"))] |})) = [entry]
      ∧ cf_dns_update_record SampleDirectory.sample_client SampleDirectory.sample_zone
          (SampleClients.update_request "rec1" (Some "mx2.example.com"))
        = (fst (Update.run SampleDirectory.sample_client SampleDirectory.sample_zone
                  {| Update.zone_id := "zone1";
                     Update.records :=
                       [as_update_item
                          (SampleClients.update_request "rec1"
                             (Some "mx2.example.com"))] |}),
           single_response "updated" entry).
Proof.
  split; [reflexivity|].
  exact (update_is_bulk_of_one SampleDirectory.sample_client SampleDirectory.sample_zone
           (SampleClients.update_request "rec1" (Some "mx2.example.com")) eq_refl).
Defined.

(** X8.  A single creation is the bulk creation of that one operation:
    same call, same state of the Directory afterwards, and the answer of
    the single tool is the outcome recorded in the one entry of the bulk
    result. *)
Theorem create_is_bulk_of_one {D : Type} (client : Client D) (d : D)
    (params : CreateRecordInput) :
  ∃ entry,
    results (snd (Create.run client d
                    {| Create.zone_id := create_zone_id params;
                       Create.records := [as_item params] |})) = [entry]
    ∧ cf_dns_create_record client d params
      = (fst (Create.run client d
                {| Create.zone_id := create_zone_id params;
                   Create.records := [as_item params] |}),
         single_response "created" entry).
Proof.
  unfold cf_dns_create_record, Create.run.
  cbn [Create.loop Create.zone_id Create.records Create.request].
  rewrite create_payload_item.
  destruct (records_create client d _) as [d' [error|record]];
    cbn [fst snd results app]; eexists; (split; [reflexivity|]); reflexivity.
Qed.

(** X9.  Without [confirm] the delete tool answers with its refusal and
    makes no call.  With [confirm] it makes the [delete] call whatever
    the preliminary [get] returned, leaves the Directory as [delete]
    leaves it, and is an error exactly when [delete] is rejected; when
    the [get] was rejected and the [delete] was not, the answer names the
    record by its identifier. *)
Theorem delete_needs_confirmation {D : Type} (client : WriteClient D) (d : D)
    (params : DeleteRecordInput) :
  let query := [ ("zone_id", VStr (delete_zone_id params)) ] in
  let after := records_delete client d (delete_record_id params) query in
  (confirm params = false →
     cf_dns_delete_record client d params
     = (d, {| text := DELETE_ABORTED; isError := true |}))
  ∧ (confirm params = true →
     fst (cf_dns_delete_record client d params) = fst after
     ∧ isError (snd (cf_dns_delete_record client d params)) = rejected (snd after)
     ∧ (∀ error, snd after = inl error →
          snd (cf_dns_delete_record client d params) = caught error)
     ∧ (rejected (snd after) = false →
        rejected (records_get (records client) d (delete_record_id params) query) = true →
        snd (cf_dns_delete_record client d params)
        = ok (stringify [ ("deleted", VBool true);
                          ("record_id", VStr (delete_record_id params));
                          ("was", VStr (delete_record_id params)) ]))).
Proof.
  intros query after. unfold cf_dns_delete_record.
  split; intros Hconfirm; rewrite Hconfirm; cbn [negb]; [reflexivity|].
  fold query. fold after.
  destruct after as [d' [error|result]]; cbn [fst snd rejected].
  - split; [reflexivity|]. split; [reflexivity|]. split; [|discriminate].
    intros e He. now inversion He.
  - split; [reflexivity|]. split; [reflexivity|]. split; [discriminate|].
    intros _ Hget.
    destruct (records_get (records client) d (delete_record_id params) query);
      [reflexivity | discriminate Hget].
Qed.

Lemma delete_needs_confirmation_witness :
  confirm (SampleClients.delete_request "rec1" false) = false
  ∧ cf_dns_delete_record SampleClients.sample_write_client SampleDirectory.sample_zone
      (SampleClients.delete_request "rec1" false)
    = (SampleDirectory.sample_zone, {| text := DELETE_ABORTED; isError := true |})
  ∧ confirm (SampleClients.delete_request "rec1" true) = true
  ∧ fst (cf_dns_delete_record SampleClients.sample_write_client
           SampleDirectory.sample_zone (SampleClients.delete_request "rec1" true))
    = [ SampleDirectory.address_record; SampleDirectory.text_record ].
Proof.
  split; [reflexivity|]. split.
  - exact (proj1 (delete_needs_confirmation SampleClients.sample_write_client
                    SampleDirectory.sample_zone
                    (SampleClients.delete_request "rec1" false)) eq_refl).
  - split; [reflexivity|].
    destruct (delete_needs_confirmation SampleClients.sample_write_client
                SampleDirectory.sample_zone
                (SampleClients.delete_request "rec1" true)) as [_ Hyes].
    destruct (Hyes eq_refl) as (Hstate & _). rewrite Hstate. reflexivity.
Defined.

(** *** Bulk loops over a batch in two parts *)

Lemma create_loop_app {D : Type} (client : Client D) (zone : string)
    (a b : list Create.Item) (i : Z) (d : D) (t : Tally) :
  Create.loop client zone (a ++ b) i d t
  = Create.loop client zone b (i + Z.of_nat (length a))
      (fst (Create.loop client zone a i d t))
      (snd (Create.loop client zone a i d t)).
Proof.
  revert i d t. induction a as [|rec a IH]; intros i d t.
  - cbn [app Create.loop length fst snd]. f_equal. lia.
  - cbn [app Create.loop length].
    destruct (records_create client d (Create.request zone rec)) as [d' [error|record]];
      rewrite IH; f_equal; lia.
Qed.

Lemma update_loop_app {D : Type} (client : Client D) (zone : string)
    (a b : list Update.Item) (i : Z) (d : D) (t : Tally) :
  Update.loop client zone (a ++ b) i d t
  = Update.loop client zone b (i + Z.of_nat (length a))
      (fst (Update.loop client zone a i d t))
      (snd (Update.loop client zone a i d t)).
Proof.
  revert i d t. induction a as [|rec a IH]; intros i d t.
  - cbn [app Update.loop length fst snd]. f_equal. lia.
  - cbn [app Update.loop length].
    destruct (records_edit client d (Update.record_id rec) (Update.request zone rec))
      as [d' [error|record]]; rewrite IH; f_equal; lia.
Qed.

(** X10.  A bulk run over a batch is the run over its first part followed
    by the loop over the rest, entered at the index where the first part
    ends, from the state of the Directory and with the entries and counts
    that the first part left; for creations and for updates. *)
Theorem bulk_run_in_two_parts {D : Type} (client : Client D) (d : D) (zone : string) :
  (∀ a b : list Create.Item,
     Create.run client d {| Create.zone_id := zone; Create.records := a ++ b |}
     = Create.loop client zone b (Z.of_nat (length a))
         (fst (Create.run client d {| Create.zone_id := zone; Create.records := a |}))
         (snd (Create.run client d {| Create.zone_id := zone; Create.records := a |})))
  ∧ (∀ a b : list Update.Item,
     Update.run client d {| Update.zone_id := zone; Update.records := a ++ b |}
     = Update.loop client zone b (Z.of_nat (length a))
         (fst (Update.run client d {| Update.zone_id := zone; Update.records := a |}))
         (snd (Update.run client d {| Update.zone_id := zone; Update.records := a |}))).
Proof.
  split; intros a b.
  - unfold Create.run. cbn [Create.zone_id Create.records].
    now rewrite create_loop_app.
  - unfold Update.run. cbn [Update.zone_id Update.records].
    now rewrite update_loop_app.
Qed.

End WriteExtras.

(** ** The zone tools *)

Module ZoneExtras.
Import Errors Directory ZoneFormatter Zones ExtraSpec.

(** X11.  The concise projection of a zone has the fields [id], [name],
    [status], [name_servers] in this order, followed only by
    [created_on] and [modified_on], each at most once and in this order;
    [name_servers] is always an array, the empty one when the zone has
    none; the three first fields are strings.  Without [concise] the zone
    is returned as it is. *)
Theorem formatZone_concise_shape (zone : obj) :
  (∃ optional,
     map fst (formatZone zone true) = ZONE_CORE ++ optional
     ∧ optional `sublist_of` ZONE_OPTIONAL)
  ∧ NoDup (map fst (formatZone zone true))
  ∧ is_array (get (formatZone zone true) "name_servers") = true
  ∧ (is_array (get zone "name_servers") = false →
     get (formatZone zone true) "name_servers" = VArr [])
  ∧ (∀ k, k ∈ [ "id"; "name"; "status" ] →
       ∃ s, get (formatZone zone true) k = VStr s)
  ∧ formatZone zone false = zone.
Proof.
  unfold formatZone, spread_if_truthy, ZONE_CORE, ZONE_OPTIONAL. cbn [negb].
  split.
  { destruct (truthy (get zone "created_on")), (truthy (get zone "modified_on"));
      cbn [app map fst]; eexists; (split; [reflexivity|]);
      repeat first [ apply sublist_nil | apply sublist_skip | apply sublist_cons ]. }
  split.
  { destruct (truthy (get zone "created_on")), (truthy (get zone "modified_on"));
      cbn [app map fst];
      repeat (constructor; [ rewrite list_elem_of_In; simpl; intuition discriminate | ]);
      constructor. }
  split.
  { destruct (is_array (get zone "name_servers")) eqn:Harr; [exact Harr | reflexivity]. }
  split.
  { intros Harr. cbn. now rewrite Harr. }
  split; [|reflexivity].
  intros k Hk. rewrite list_elem_of_In in Hk. simpl in Hk.
  destruct Hk as [<-|[<-|[<-|[]]]]; eexists; reflexivity.
Qed.

Lemma formatZone_concise_shape_witness :
  is_array (get SampleClients.other_zone "name_servers") = false
  ∧ get (formatZone SampleClients.other_zone true) "name_servers" = VArr []
  ∧ map fst (formatZone SampleClients.example_zone true)
    = [ "id"; "name"; "status"; "name_servers"; "created_on" ].
Proof.
  split; [reflexivity|]. split.
  - destruct (formatZone_concise_shape SampleClients.other_zone)
      as (_ & _ & _ & Hnone & _).
    exact (Hnone eq_refl).
  - reflexivity.
Defined.

Lemma gather_all (zones rest : list obj) (failure : option thrown) :
  gather zones rest failure
  = match failure with
    | Some error => inl error
    | None => inr (zones ++ rest)
    end.
Proof.
  revert zones. induction rest as [|zone rest IH]; intros zones; cbn [gather].
  - now rewrite app_nil_r.
  - rewrite IH. now rewrite <- app_assoc.
Qed.

Lemma formatZones_length (zones : list obj) (concise : bool) :
  length (formatZones zones concise) = length zones.
Proof. unfold formatZones. apply length_map. Qed.

(** X12.  The zone listing gathers every zone the Directory yields, with
    no cap; a failure while gathering makes the whole answer that error.
    Otherwise, with [page >= 1] and [per_page >= 1], the answer is the
    window of [per_page] zones at offset [(page-1)*per_page], each
    formatted, under the size guard; [total] is the number of zones
    gathered, [count] the number in the window, and [has_more] is
    [page*per_page < total]. *)
Theorem list_zones_page {D : Type} (client : ZoneClient D) (d : D)
    (params : ListZonesInput) (response : PageIterator) :
  zones_list client d (queryParams params) = inr response →
  1 <= page params → 1 <= per_page params →
  match failure response with
  | Some error => cf_dns_list_zones client d params = caught error
  | None =>
      let zones := yielded response in
      let concise := RecordsRead.resolve_concise (include_details params) (concise params) in
      let total := Z.of_nat (length zones) in
      let start := (page params - 1) * per_page params in
      let window := take (Z.to_nat (per_page params)) (drop (Z.to_nat start) zones) in
      let o := zones_output params zones in
      cf_dns_list_zones client d params = ok (Pagination.truncateIfNeeded (stringify o))
      ∧ o = [ ("pagination",
               VObj [ ("total", VNum total);
                      ("count", VNum (Z.of_nat (length window)));
                      ("page", VNum (page params));
                      ("per_page", VNum (per_page params));
                      ("has_more", VBool (page params * per_page params <? total)) ]);
              ("zones", RecordsRead.array (formatZones window concise)) ]
  end.
Proof.
  intros Hlist Hpage Hper.
  assert (Hrun : cf_dns_list_zones client d params
                 = match failure response with
                   | Some error => caught error
                   | None => ok (Pagination.truncateIfNeeded
                                   (stringify (zones_output params (yielded response))))
                   end).
  { unfold cf_dns_list_zones. rewrite Hlist, gather_all.
    destruct (failure response); reflexivity. }
  destruct (failure response) as [error|]; [exact Hrun|].
  intros zones concise total start window o. split; [exact Hrun|].
  unfold o, zones_output. fold concise. fold start.
  rewrite QueryProofs.slice_window by nia.
  assert (Hwin : take (Z.to_nat (per_page params))
                   (drop (Z.to_nat start) (formatZones zones concise))
                 = formatZones window concise).
  { unfold window, formatZones. now rewrite List.skipn_map, List.firstn_map. }
  rewrite Hwin, formatZones_length. reflexivity.
Qed.

Lemma list_zones_page_witness :
  1 <= 2 ∧ 1 <= 1
  ∧ cf_dns_list_zones SampleClients.sample_zone_client SampleClients.sample_zones
      (SampleClients.list_zones_request 2 1)
    = ok (Pagination.truncateIfNeeded
            (stringify (zones_output (SampleClients.list_zones_request 2 1)
                          SampleClients.sample_zones))).
Proof.
  split; [lia|]. split; [lia|].
  exact (proj1 (list_zones_page SampleClients.sample_zone_client
                  SampleClients.sample_zones (SampleClients.list_zones_request 2 1)
                  {| yielded := SampleClients.sample_zones; failure := None |}
                  eq_refl ltac:(simpl; lia) ltac:(simpl; lia))).
Defined.

(** X13.  How the zone of [cf_dns_get_zone] is settled.  A non-empty
    [zone_id] is used as it is, whatever [zone_name] says and without a
    listing.  With neither, the answer is the error asking for one.  With
    a [zone_name] only, the zones of that name are listed: none gives the
    error naming the domain; otherwise the identifier of the first one is
    used, and the others are ignored. *)
Theorem get_zone_resolution {D : Type} (client : ZoneClient D) (d : D)
    (params : GetZoneInput) :
  let concise :=
    RecordsRead.resolve_concise (get_include_details params) (get_concise params) in
  let by_id := fun id : string =>
    match zones_get client d [ ("zone_id", VStr id) ] with
    | inl error => caught error
    | inr zone => ok (stringify [ ("zone", VObj (formatZone zone concise)) ])
    end in
  (∀ id, zone_id params = Some id → id ≠ "" →
     cf_dns_get_zone client d params = by_id id)
  ∧ (given (zone_id params) = false → given (zone_name params) = false →
     cf_dns_get_zone client d params = {| text := NO_IDENTIFIER; isError := true |})
  ∧ (∀ name search,
       given (zone_id params) = false → zone_name params = Some name → name ≠ "" →
       zones_list client d [ ("name", VStr name) ] = inr search →
       match failure search, yielded search with
       | Some error, _ => cf_dns_get_zone client d params = caught error
       | None, [] =>
           cf_dns_get_zone client d params
           = {| text := not_found name; isError := true |}
       | None, first :: _ =>
           cf_dns_get_zone client d params
           = if String.eqb (String_ (get first "id")) ""
             then {| text := NO_IDENTIFIER; isError := true |}
             else by_id (String_ (get first "id"))
       end).
Proof.
  intros concise by_id. unfold cf_dns_get_zone. fold concise.
  split; [|split].
  - intros id Hid Hne. rewrite Hid. cbn [given].
    apply String.eqb_neq in Hne. rewrite Hne. cbn [negb andb].
    unfold get_by_id. cbn [given]. rewrite Hne. reflexivity.
  - intros Hid Hname. rewrite Hid, Hname. cbn [negb andb].
    unfold get_by_id. rewrite Hid. reflexivity.
  - intros name search Hid Hname Hne Hlist. rewrite Hid, Hname. cbn [given negb andb].
    apply String.eqb_neq in Hne. rewrite Hne. cbn [negb default].
    change (id name) with name. rewrite Hlist, gather_all. cbn [app].
    destruct (failure search) as [error|]; [destruct (yielded search); reflexivity|].
    destruct (yielded search) as [|first rest]; [reflexivity|].
    unfold get_by_id. cbn [given default].
    destruct (String.eqb (String_ (get first "id")) ""); reflexivity.
Qed.

Lemma get_zone_resolution_witness :
  given (Some "zone2") = true
  ∧ cf_dns_get_zone SampleClients.sample_zone_client SampleClients.sample_zones
      (SampleClients.get_zone_request (Some "zone2") (Some "example.com"))
    = ok (stringify [ ("zone", VObj (formatZone SampleClients.other_zone true)) ])
  ∧ cf_dns_get_zone SampleClients.sample_zone_client SampleClients.sample_zones
      (SampleClients.get_zone_request None (Some "example.net"))
    = {| text := not_found "example.net"; isError := true |}.
Proof.
  split; [reflexivity|].
  destruct (get_zone_resolution SampleClients.sample_zone_client
              SampleClients.sample_zones
              (SampleClients.get_zone_request (Some "zone2") (Some "example.com")))
    as (Hid & _ & _).
  destruct (get_zone_resolution SampleClients.sample_zone_client
              SampleClients.sample_zones
              (SampleClients.get_zone_request None (Some "example.net")))
    as (_ & _ & Hname).
  split.
  - rewrite (Hid "zone2" eq_refl ltac:(discriminate)). reflexivity.
  - exact (Hname "example.net" {| yielded := []; failure := None |}
             eq_refl eq_refl ltac:(discriminate) eq_refl).
Defined.

End ZoneExtras.

(** ** The export tool and the size guard *)

Module ExportExtras.
Import Constants Errors Directory RecordsExport.

(** X14.  The export tool returns a text that the Directory gives as a
    string as it is, not serialized again, when it is within the budget;
    whatever the Directory gives, an answer that is not an error is no
    longer than the budget and the notice together.  The zone listing is
    bounded in the same way. *)
Theorem guarded_answers_bounded :
  (∀ (D : Type) (records_export : D → obj → thrown + value) (d : D) (zone_id : string),
     let response := cf_dns_export_records records_export d zone_id in
     (isError response = false →
      str_length (text response)
      <= CHARACTER_LIMIT + str_length Pagination.TRUNCATION_NOTICE)
     ∧ (∀ s, records_export d [ ("zone_id", VStr zone_id) ] = inr (VStr s) →
          str_length s <= CHARACTER_LIMIT → response = ok s)
     ∧ (∀ error, records_export d [ ("zone_id", VStr zone_id) ] = inl error →
          response = caught error))
  ∧ (∀ (D : Type) (client : Zones.ZoneClient D) (d : D) (params : Zones.ListZonesInput),
       isError (Zones.cf_dns_list_zones client d params) = false →
       str_length (text (Zones.cf_dns_list_zones client d params))
       <= CHARACTER_LIMIT + str_length Pagination.TRUNCATION_NOTICE).
Proof.
  split.
  - intros D records_export d zone_id response. unfold response, cf_dns_export_records.
    destruct (records_export d [ ("zone_id", VStr zone_id) ]) as [error|result].
    + split; [discriminate|]. split; [discriminate|]. now intros e [= <-].
    + split; [|split; [|discriminate]].
      * destruct (match result with VStr s => Some s | _ => serialize_compact result end);
          [|discriminate].
        intros _. apply SizeGuardProofs.truncate_bound.
      * intros s [= ->] Hshort. now rewrite SizeGuardProofs.truncate_short.
  - intros D client d params. unfold Zones.cf_dns_list_zones.
    destruct (Zones.zones_list client d (Zones.queryParams params)) as [error|response];
      [discriminate|].
    destruct (Zones.gather [] (yielded response) (failure response)) as [error|zones];
      [discriminate|].
    intros _. apply SizeGuardProofs.truncate_bound.
Qed.

Lemma guarded_answers_bounded_witness :
  isError (cf_dns_export_records SampleClients.sample_export
             SampleDirectory.sample_zone "zone1") = false
  ∧ str_length (text (cf_dns_export_records SampleClients.sample_export
                        SampleDirectory.sample_zone "zone1"))
    <= CHARACTER_LIMIT + str_length Pagination.TRUNCATION_NOTICE.
Proof.
  split; [reflexivity|].
  exact (proj1 (proj1 guarded_answers_bounded (list obj) SampleClients.sample_export
                  SampleDirectory.sample_zone "zone1") eq_refl).
Defined.

End ExportExtras.

(** ** Authentication of the HTTP transport *)

Module AuthExtras.
Import Auth.

Lemma present_spec (s : option string) :
  present s = true ↔ ∃ t, s = Some t ∧ t ≠ "".
Proof.
  destruct s as [t|]; cbn [present].
  - rewrite negb_true_iff, String.eqb_neq. split.
    + intros Hne. exists t. split; [reflexivity | exact Hne].
    + now intros (t' & [= <-] & Hne).
  - split; [discriminate | now intros (t & Habs & _)].
Qed.

Lemma charCodeAt_cons (a : ascii) (s : string) (i : nat) :
  charCodeAt (String a s) (S i) = charCodeAt s i.
Proof. reflexivity. Qed.

Lemma mismatch_loop_cons (a b : ascii) (p e : string) (i steps : nat) (m : Z) :
  mismatch_loop (String a p) (String b e) (S i) steps m = mismatch_loop p e i steps m.
Proof.
  revert i m. induction steps as [|steps IH]; intros i m; cbn [mismatch_loop].
  - reflexivity.
  - rewrite IH, !charCodeAt_cons. reflexivity.
Qed.

Lemma code_eq (a b : ascii) :
  Z.lxor (Z.of_nat (nat_of_ascii a)) (Z.of_nat (nat_of_ascii b)) = 0 ↔ a = b.
Proof.
  rewrite Z.lxor_eq_0_iff. split; [|now intros ->].
  intros Heq. apply Nat2Z.inj in Heq.
  rewrite <- (ascii_nat_embedding a), <- (ascii_nat_embedding b). now rewrite Heq.
Qed.

(** The loop leaves 0 exactly when it was entered with 0 and the two
    strings are the same. *)
Lemma mismatch_loop_zero (p e : string) (m : Z) :
  String.length p = String.length e →
  mismatch_loop p e 0 (String.length p) m = 0 ↔ m = 0 ∧ p = e.
Proof.
  revert e m. induction p as [|a p IH]; intros [|b e] m Hlen; try discriminate Hlen.
  - cbn [String.length mismatch_loop]. intuition.
  - cbn [String.length mismatch_loop]. rewrite mismatch_loop_cons.
    injection Hlen as Hlen. rewrite (IH e _ Hlen).
    change (charCodeAt (String a p) 0) with (Z.of_nat (nat_of_ascii a)).
    change (charCodeAt (String b e) 0) with (Z.of_nat (nat_of_ascii b)).
    rewrite Z.lor_eq_0_iff, code_eq. split.
    + intros [[Hm ->] ->]. now split.
    + intros [Hm [= -> ->]]. now repeat split.
Qed.

Lemma hex_length (bytes : list Byte.byte) :
  String.length (to_hex bytes) = (2 * length bytes)%nat.
Proof.
  induction bytes as [|b bytes IH]; [reflexivity|].
  cbn [to_hex length]. unfold hex_of_byte.
  rewrite !str_app_cons, str_app_nil. cbn [String.length]. lia.
Qed.

(** X15.  The key of the HTTP transport.  A cached key is returned as it
    is.  Without one, an environment key of 16 characters or more is the
    key; with no environment key, or one of fewer than 16 characters, the
    key is the 32 random bytes written in hexadecimal, 64 characters.
    Either way the key has at least 16 characters, is cached, and every
    later call returns it again, whatever the environment and the
    generator then are. *)
Theorem getOrCreateApiKey_fixed (randomBytes : nat → list Byte.byte)
    (_apiKey envKey : option string) :
  length (randomBytes 32%nat) = 32%nat →
  let key := snd (getOrCreateApiKey randomBytes _apiKey envKey) in
  let cached := fst (getOrCreateApiKey randomBytes _apiKey envKey) in
  (present _apiKey = true → cached = _apiKey ∧ _apiKey = Some key)
  ∧ (present _apiKey = false →
     cached = Some key
     ∧ 16 <= str_length key
     ∧ (∀ e, envKey = Some e → 16 <= str_length e → key = e)
     ∧ ((envKey = None ∨ ∃ e, envKey = Some e ∧ str_length e < 16) →
        key = to_hex (randomBytes 32%nat) ∧ str_length key = 64))
  ∧ present cached = true
  ∧ (∀ randomBytes' envKey',
       getOrCreateApiKey randomBytes' cached envKey' = (cached, key)).
Proof.
  intros Hrandom key cached.
  assert (Hhex : str_length (to_hex (randomBytes 32%nat)) = 64).
  { unfold str_length. rewrite hex_length, Hrandom. reflexivity. }
  assert (Hagain : ∀ k, present (Some k) = true →
            ∀ randomBytes' envKey',
              getOrCreateApiKey randomBytes' (Some k) envKey' = (Some k, k)).
  { intros k Hk randomBytes' envKey'. unfold getOrCreateApiKey. now rewrite Hk. }
  assert (Hlong : ∀ k, 16 <= str_length k → present (Some k) = true).
  { intros [|c k] Hk; [unfold str_length in Hk; simpl in Hk; lia | reflexivity]. }
  unfold key, cached, getOrCreateApiKey.
  destruct (present _apiKey) eqn:Hcached; cbn [fst snd].
  - destruct _apiKey as [k|]; [|discriminate Hcached]. cbn [default].
    split; [now split|]. split; [discriminate|]. split; [exact Hcached|].
    apply Hagain, Hcached.
  - split; [discriminate|].
    destruct (present envKey && (16 <=? str_length (default "" envKey))) eqn:Henv;
      cbn [fst snd].
    + apply andb_true_iff in Henv as [_ Hlen]. apply Z.leb_le in Hlen.
      split; [|split; [apply Hlong, Hlen | apply Hagain, Hlong, Hlen]].
      intros _. split; [reflexivity|]. split; [exact Hlen|]. split.
      * now intros e ->.
      * intros [Hnone | (e & He & Hshort)].
        -- rewrite Hnone in Hlen. unfold str_length in Hlen. simpl in Hlen. lia.
        -- rewrite He in Hlen. cbn [default] in Hlen. change (id e) with e in Hlen. lia.
    + split; [|split; [apply Hlong; lia | apply Hagain, Hlong; lia]].
      intros _. split; [reflexivity|]. split; [lia|]. split; [|now intros _].
      intros e He Hlen. rewrite He in Henv. cbn [default] in Henv.
      change (id e) with e in Henv. rewrite (Hlong e Hlen) in Henv.
      apply Z.leb_le in Hlen. rewrite Hlen in Henv. discriminate Henv.
Qed.

Lemma getOrCreateApiKey_fixed_witness :
  length (repeat Byte.x2a 32) = 32%nat
  ∧ snd (getOrCreateApiKey (fun n => repeat Byte.x2a n) None (Some "short"))
    = to_hex (repeat Byte.x2a 32)
  ∧ snd (getOrCreateApiKey (fun n => repeat Byte.x2a n) None (Some "0123456789abcdef"))
    = "0123456789abcdef".
Proof.
  split; [reflexivity|]. split.
  - destruct (getOrCreateApiKey_fixed (fun n => repeat Byte.x2a n) None (Some "short")
                eq_refl) as (_ & Hnew & _).
    destruct (Hnew eq_refl) as (_ & _ & _ & Hgen).
    apply Hgen. right. exists "short". split; [reflexivity | reflexivity].
  - destruct (getOrCreateApiKey_fixed (fun n => repeat Byte.x2a n) None
                (Some "0123456789abcdef") eq_refl) as (_ & Hnew & _).
    destruct (Hnew eq_refl) as (_ & _ & Henv & _).
    apply (Henv "0123456789abcdef" eq_refl). vm_compute. discriminate.
Defined.

(** X16.  The key check of [auth.ts] accepts exactly the requests whose
    key, taken from the header when the header has one and from the query
    otherwise, is the key of the transport: the loop over the character
    codes decides equality.  A query key is not looked at when a header
    key is given, and the check caches the key as [getOrCreateApiKey]
    does. *)
Theorem validateApiKey_decides (randomBytes : nat → list Byte.byte)
    (_apiKey envKey headerValue queryValue : option string) :
  let expected := snd (getOrCreateApiKey randomBytes _apiKey envKey) in
  let provided := if present headerValue then headerValue else queryValue in
  fst (validateApiKey randomBytes _apiKey envKey headerValue queryValue)
  = fst (getOrCreateApiKey randomBytes _apiKey envKey)
  ∧ (snd (validateApiKey randomBytes _apiKey envKey headerValue queryValue) = true
     ↔ present provided = true ∧ provided = Some expected)
  ∧ (present headerValue = true →
     ∀ queryValue',
       validateApiKey randomBytes _apiKey envKey headerValue queryValue'
       = validateApiKey randomBytes _apiKey envKey headerValue queryValue).
Proof.
  intros expected provided. unfold validateApiKey.
  fold (or_else headerValue queryValue) in provided.
  destruct (getOrCreateApiKey randomBytes _apiKey envKey) as [cached key] eqn:Hkey.
  cbn [snd] in expected. fold provided.
  split; [|split].
  - destruct (negb (present provided)); [reflexivity|].
    destruct (negb (String.length (default "" provided) =? String.length key)%nat);
      reflexivity.
  - destruct (present provided) eqn:Hp; cbn [negb snd].
    + apply present_spec in Hp as (p & Hsome & Hne). rewrite Hsome. cbn [default].
      change (id p) with p.
      destruct (Nat.eqb_spec (String.length p) (String.length key)) as [Hlen|Hlen];
        cbn [negb snd].
      * rewrite Z.eqb_eq, (mismatch_loop_zero p key 0 Hlen). unfold expected.
        split; [intros [_ ->]; split; reflexivity | intros [_ [= Heq]]; split; [reflexivity | exact Heq]].
      * split; [discriminate|]. intros [_ [= ->]]. now contradiction Hlen.
    + split; [discriminate | now intros [Habs _]].
  - intros Hheader queryValue'. unfold provided, or_else. now rewrite Hheader.
Qed.

Lemma validateApiKey_decides_witness :
  present (Some "wrong-key-wrong-key") = true
  ∧ validateApiKey (fun n => repeat Byte.x2a n) None (Some "0123456789abcdef")
      (Some "wrong-key-wrong-key") (Some "0123456789abcdef")
    = validateApiKey (fun n => repeat Byte.x2a n) None (Some "0123456789abcdef")
        (Some "wrong-key-wrong-key") None.
Proof.
  split; [reflexivity|].
  destruct (validateApiKey_decides (fun n => repeat Byte.x2a n) None
              (Some "0123456789abcdef") (Some "wrong-key-wrong-key") None)
    as (_ & _ & Hheader).
  exact (Hheader eq_refl (Some "0123456789abcdef")).
Defined.

End AuthExtras.

Module BearerExtras.
Import Auth BearerAuth.

Lemma bytes_equal_refl (a : list nat) : bytes_equal a a = true.
Proof.
  induction a as [|x a IH]; [reflexivity|]. cbn [bytes_equal].
  now rewrite Nat.eqb_refl, IH.
Qed.

Lemma code_lt_256 (c : ascii) : (nat_of_ascii c < 256)%nat.
Proof. apply nat_ascii_bounded. Qed.

(** The encoding tells the strings of the same length apart. *)
Lemma utf8_inj (a b : string) :
  String.length a = String.length b →
  bytes_equal (utf8 a) (utf8 b) = true → a = b.
Proof.
  revert b. induction a as [|x a IH]; intros [|y b] Hlen Heq; try discriminate Hlen.
  - reflexivity.
  - injection Hlen as Hlen. cbn [utf8] in Heq.
    pose proof (code_lt_256 x) as Hx. pose proof (code_lt_256 y) as Hy.
    assert (Hcode : nat_of_ascii x = nat_of_ascii y → x = y).
    { intros Hc. rewrite <- (ascii_nat_embedding x), <- (ascii_nat_embedding y).
      now rewrite Hc. }
    destruct (Nat.ltb_spec (nat_of_ascii x) 128) as [Hxs|Hxl],
             (Nat.ltb_spec (nat_of_ascii y) 128) as [Hys|Hyl];
      cbn [bytes_equal] in Heq.
    + apply andb_true_iff in Heq as [Hc Hrest]. apply Nat.eqb_eq in Hc.
      f_equal; [now apply Hcode | now apply IH].
    + apply andb_true_iff in Heq as [Hc _]. apply Nat.eqb_eq in Hc. lia.
    + apply andb_true_iff in Heq as [Hc _]. apply Nat.eqb_eq in Hc. lia.
    + apply andb_true_iff in Heq as [Hhi Heq].
      apply andb_true_iff in Heq as [Hlo Hrest].
      apply Nat.eqb_eq in Hhi, Hlo.
      f_equal; [|now apply IH]. apply Hcode.
      rewrite (Nat.div_mod_eq (nat_of_ascii x) 64), (Nat.div_mod_eq (nat_of_ascii y) 64).
      lia.
Qed.

Lemma safeCompare_eq (a b : string) : safeCompare a b = true ↔ a = b.
Proof.
  unfold safeCompare, timingSafeEqual. split.
  - destruct (Nat.eqb_spec (String.length a) (String.length b)) as [Hlen|Hlen];
      cbn [negb]; [|discriminate].
    destruct (length (utf8 a) =? length (utf8 b))%nat; [|discriminate].
    now apply utf8_inj.
  - intros ->. rewrite !Nat.eqb_refl. cbn [negb]. apply bytes_equal_refl.
Qed.

(** X17.  [safeCompare] is true exactly on equal strings.  Two strings
    of the same length can have encodings of different lengths; the
    comparison then raises, and the answer is [false].  So the key check
    of the bearer unit decides what the key check of [auth.ts] decides,
    on every request and in every state. *)
Theorem safeCompare_decides :
  (∀ a b, safeCompare a b = true ↔ a = b)
  ∧ (∃ a b, String.length a = String.length b
            ∧ timingSafeEqual (utf8 a) (utf8 b) = None
            ∧ safeCompare a b = false)
  ∧ (∀ randomBytes _apiKey envKey headerValue queryValue,
       BearerAuth.validateApiKey randomBytes _apiKey envKey headerValue queryValue
       = Auth.validateApiKey randomBytes _apiKey envKey headerValue queryValue).
Proof.
  split; [exact safeCompare_eq|]. split.
  { exists (String (ascii_of_nat 233) ""), "e". repeat split. }
  intros randomBytes _apiKey envKey headerValue queryValue.
  unfold BearerAuth.validateApiKey, Auth.validateApiKey.
  destruct (getOrCreateApiKey randomBytes _apiKey envKey) as [cached key].
  destruct (present (or_else headerValue queryValue)) eqn:Hp; cbn [negb]; [|reflexivity].
  set (p := default "" (or_else headerValue queryValue)).
  destruct (Nat.eqb_spec (String.length p) (String.length key)) as [Hlen|Hlen];
    cbn [negb].
  - f_equal. apply eq_true_iff_eq. rewrite safeCompare_eq, Z.eqb_eq.
    rewrite (AuthExtras.mismatch_loop_zero p key 0 Hlen). intuition.
  - unfold safeCompare. apply Nat.eqb_neq in Hlen. now rewrite Hlen.
Qed.

End BearerExtras.

Module BearerHeaderExtras.
Import Auth BearerAuth ExtraSpec.

Lemma letters_split (pattern s rest : string) :
  letters pattern s = Some rest →
  ∃ word, s = word +:+ rest ∧ letters pattern word = Some "".
Proof.
  revert s. induction pattern as [|p pattern IH]; intros s Hs; cbn [letters] in Hs.
  - injection Hs as <-. exists "". split; [now rewrite str_app_nil | reflexivity].
  - destruct s as [|c s]; [discriminate Hs|].
    destruct (Ascii.eqb (lower c) p) eqn:Hc; [|discriminate Hs].
    destruct (IH s Hs) as (word & -> & Hword). exists (String c word).
    split; [now rewrite str_app_cons|]. cbn [letters]. now rewrite Hc.
Qed.

Lemma letters_app (pattern word rest : string) :
  letters pattern word = Some "" → letters pattern (word +:+ rest) = Some rest.
Proof.
  revert word. induction pattern as [|p pattern IH]; intros word Hword;
    cbn [letters] in Hword.
  - injection Hword as ->. now rewrite str_app_nil.
  - destruct word as [|c word]; [discriminate Hword|].
    rewrite str_app_cons. cbn [letters].
    destruct (Ascii.eqb (lower c) p); [now apply IH | discriminate Hword].
Qed.

Lemma all_space_take (k : nat) (s : string) :
  (k <= space_run s)%nat → all_space (str_take k s) = true.
Proof.
  revert s. induction k as [|k IH]; intros s Hk; [reflexivity|].
  destruct s as [|c s]; cbn [space_run] in Hk; [lia|].
  destruct (is_space c) eqn:Hc; [|lia].
  cbn [str_take all_space]. rewrite Hc. apply IH. lia.
Qed.

Lemma space_run_app (ws g : string) :
  all_space ws = true → space_run (ws +:+ g) = (String.length ws + space_run g)%nat.
Proof.
  induction ws as [|c ws IH]; intros Hws.
  - now rewrite str_app_nil.
  - cbn [all_space] in Hws. apply andb_true_iff in Hws as [Hc Hws].
    rewrite str_app_cons. cbn [space_run String.length]. rewrite Hc, IH by exact Hws.
    reflexivity.
Qed.

Lemma str_drop_app (ws g : string) : str_drop (String.length ws) (ws +:+ g) = g.
Proof.
  induction ws as [|c ws IH]; [rewrite str_app_nil; now destruct g|].
  rewrite str_app_cons. exact IH.
Qed.

Lemma spaces_then_rest_sound (k : nat) (s g : string) :
  (k <= space_run s)%nat → spaces_then_rest k s = Some g →
  ∃ ws, s = ws +:+ g ∧ ws ≠ "" ∧ all_space ws = true ∧ dot_plus g = true.
Proof.
  induction k as [|k IH]; intros Hk Hg; cbn [spaces_then_rest] in Hg; [discriminate Hg|].
  destruct (dot_plus (str_drop (S k) s)) eqn:Hdot; [|apply IH; [lia | exact Hg]].
  injection Hg as <-. exists (str_take (S k) s).
  split; [now rewrite str_take_drop|]. split; [|split].
  - destruct s as [|c s]; [cbn [space_run] in Hk; lia | discriminate].
  - now apply all_space_take.
  - exact Hdot.
Qed.

Lemma spaces_then_rest_complete (ws g : string) :
  ws ≠ "" → all_space ws = true → space_run g = 0%nat → dot_plus g = true →
  spaces_then_rest (space_run (ws +:+ g)) (ws +:+ g) = Some g.
Proof.
  intros Hne Hws Hhead Hdot. rewrite space_run_app, Hhead, Nat.add_0_r by exact Hws.
  destruct ws as [|c ws]; [contradiction|].
  change (String.length (String c ws)) with (S (String.length ws)).
  cbn [spaces_then_rest].
  change (S (String.length ws)) with (String.length (String c ws)).
  now rewrite str_drop_app, Hdot.
Qed.

Lemma dot_plus_spec (g : string) :
  dot_plus g = true ↔ g ≠ "" ∧ no_line_terminator g = true.
Proof.
  unfold dot_plus. now rewrite andb_true_iff, negb_true_iff, String.eqb_neq.
Qed.

Lemma match_bearer_sound (header token : string) :
  match_bearer header = Some token →
  bearer_header header token ∧ token ≠ "" ∧ no_line_terminator token = true.
Proof.
  unfold match_bearer.
  destruct (letters "bearer" header) as [rest|] eqn:Hword; [|discriminate].
  intros Hrest.
  destruct (letters_split _ _ _ Hword) as (word & -> & Hletters).
  destruct (spaces_then_rest_sound _ _ _ (Nat.le_refl _) Hrest)
    as (ws & -> & Hne & Hws & Hdot).
  apply dot_plus_spec in Hdot as [Htoken Hline].
  split; [|now split]. exists word, ws. now repeat split.
Qed.

Lemma match_bearer_complete (header token : string) :
  bearer_header header token → token ≠ "" → no_line_terminator token = true →
  space_run token = 0%nat →
  match_bearer header = Some token.
Proof.
  unfold match_bearer.
  intros (word & ws & -> & Hletters & Hne & Hws) Htoken Hline Hhead.
  rewrite (letters_app _ _ _ Hletters).
  apply spaces_then_rest_complete; [exact Hne | exact Hws | exact Hhead |].
  apply dot_plus_spec. now split.
Qed.

(** X18.  What the pattern of the [Authorization] header accepts.  A
    header that matches is the word [bearer], in any case, then white
    space, then the captured token, which is not empty and has no line
    break.  Conversely such a header, with a token that does not begin
    with white space, matches, and the token captured is that one. *)
Theorem match_bearer_spec (header token : string) :
  (match_bearer header = Some token →
   bearer_header header token ∧ token ≠ "" ∧ no_line_terminator token = true)
  ∧ (bearer_header header token → token ≠ "" → no_line_terminator token = true →
     space_run token = 0%nat →
     match_bearer header = Some token).
Proof.
  unfold match_bearer. split.
  - destruct (letters "bearer" header) as [rest|] eqn:Hword; [|discriminate].
    intros Hrest.
    destruct (letters_split _ _ _ Hword) as (word & -> & Hletters).
    destruct (spaces_then_rest_sound _ _ _ (Nat.le_refl _) Hrest)
      as (ws & -> & Hne & Hws & Hdot).
    apply dot_plus_spec in Hdot as [Htoken Hline].
    split; [|now split]. exists word, ws. now repeat split.
  - intros (word & ws & -> & Hletters & Hne & Hws) Htoken Hline Hhead.
    rewrite (letters_app _ _ _ Hletters).
    apply spaces_then_rest_complete; [exact Hne | exact Hws | exact Hhead |].
    apply dot_plus_spec. now split.
Qed.

Lemma match_bearer_spec_witness :
  bearer_header "BEARER  s3cret" "s3cret"
  ∧ match_bearer "BEARER  s3cret" = Some "s3cret".
Proof.
  assert (Hheader : bearer_header "BEARER  s3cret" "s3cret").
  { exists "BEARER", "  ". repeat split. discriminate. }
  split; [exact Hheader|].
  exact (proj2 (match_bearer_spec "BEARER  s3cret" "s3cret") Hheader
           ltac:(discriminate) eq_refl eq_refl).
Defined.

Lemma ltrim_head (s : string) : space_run (ltrim s) = 0%nat.
Proof.
  induction s as [|c s IH]; [reflexivity|]. cbn [ltrim].
  destruct (is_space c) eqn:Hc; [exact IH|]. cbn [space_run]. now rewrite Hc.
Qed.

Lemma rtrim_head (t : string) : space_run t = 0%nat → space_run (rtrim t) = 0%nat.
Proof.
  destruct t as [|c r]; [reflexivity|]. cbn [space_run rtrim].
  destruct (is_space c) eqn:Hc; [discriminate|]. intros _.
  destruct (rtrim r); cbn [space_run]; now rewrite Hc.
Qed.

Lemma trim_head (s : string) : space_run (trim s) = 0%nat.
Proof. unfold trim. apply rtrim_head, ltrim_head. Qed.

Lemma bearer_header_nonempty (header token : string) :
  bearer_header header token → present (Some header) = true.
Proof.
  intros (word & ws & -> & Hletters & _).
  destruct word as [|c word]; [discriminate Hletters|]. reflexivity.
Qed.

Lemma validateBearerToken_fresh (MCP_API_TOKEN authHeader : option string) :
  validateBearerToken None MCP_API_TOKEN authHeader
  = (Some (if String.eqb (trim (default "" MCP_API_TOKEN)) "" then None
           else Some (trim (default "" MCP_API_TOKEN))),
     if String.eqb (trim (default "" MCP_API_TOKEN)) "" then None
     else Some (header_check (trim (default "" MCP_API_TOKEN)) authHeader)).
Proof.
  unfold validateBearerToken, getBearerToken, header_check.
  destruct (String.eqb_spec (trim (default "" MCP_API_TOKEN)) "") as [Hempty|Hne];
    [reflexivity|].
  assert (Hp : present (Some (trim (default "" MCP_API_TOKEN))) = true).
  { cbn [present]. now apply negb_true_iff, String.eqb_neq. }
  rewrite Hp. cbn [negb default].
  destruct (negb (present authHeader)); [reflexivity|].
  destruct (match_bearer _); reflexivity.
Qed.

Lemma validateBearerToken_cached (token : string) (MCP_API_TOKEN authHeader : option string) :
  token ≠ "" →
  validateBearerToken (Some (Some token)) MCP_API_TOKEN authHeader
  = (Some (Some token), Some (header_check token authHeader)).
Proof.
  intros Hne. unfold validateBearerToken, getBearerToken, header_check.
  assert (Hp : present (Some token) = true).
  { cbn [present]. now apply negb_true_iff, String.eqb_neq. }
  rewrite Hp. cbn [negb default].
  destruct (negb (present authHeader)); [reflexivity|].
  destruct (match_bearer _); reflexivity.
Qed.

Lemma header_check_spec (token : string) (authHeader : option string) :
  token ≠ "" → no_line_terminator token = true → space_run token = 0%nat →
  header_check token authHeader = true
  ↔ ∃ header, authHeader = Some header ∧ bearer_header header token.
Proof.
  intros Hne Hline Hhead. unfold header_check. split.
  - destruct (present authHeader) eqn:Hp; cbn [negb]; [|discriminate].
    apply AuthExtras.present_spec in Hp as (header & -> & _). cbn [default].
    change (id header) with header.
    destruct (match_bearer header) as [provided|] eqn:Hmatch; [|discriminate].
    intros Hsame. apply BearerExtras.safeCompare_eq in Hsame as ->.
    exists header. split; [reflexivity|].
    exact (proj1 (match_bearer_sound header token Hmatch)).
  - intros (header & -> & Hheader).
    rewrite (bearer_header_nonempty _ _ Hheader). cbn [negb default].
    change (id header) with header.
    rewrite (match_bearer_complete header token Hheader Hne Hline Hhead).
    now apply BearerExtras.safeCompare_eq.
Qed.

Lemma header_check_line_break (token : string) (authHeader : option string) :
  no_line_terminator token = false → header_check token authHeader = false.
Proof.
  intros Hline. unfold header_check.
  destruct (negb (present authHeader)); [reflexivity|].
  destruct (match_bearer (default "" authHeader)) as [provided|] eqn:Hmatch;
    [|reflexivity].
  apply not_true_is_false. intros Hsame.
  apply BearerExtras.safeCompare_eq in Hsame as ->.
  destruct (match_bearer_sound _ _ Hmatch) as (_ & _ & Hok).
  rewrite Hline in Hok. discriminate Hok.
Qed.

(** X19.  The bearer check, from the state in which the token has not
    been read.  The token is [MCP_API_TOKEN] trimmed; when that is empty
    the check is not configured and answers [null].  Otherwise it
    answers [true] exactly for the headers that are the word [bearer],
    white space and the token, and [false] for all others; a token with
    a line break inside is accepted from no header.  The token read is
    cached: later checks answer from it, whatever the environment then
    is. *)
Theorem validateBearerToken_decides (MCP_API_TOKEN authHeader : option string) :
  let token := trim (default "" MCP_API_TOKEN) in
  let cached := fst (validateBearerToken None MCP_API_TOKEN authHeader) in
  let result := snd (validateBearerToken None MCP_API_TOKEN authHeader) in
  cached = Some (if String.eqb token "" then None else Some token)
  ∧ (token = "" → result = None)
  ∧ (token ≠ "" →
     (result = Some true ∨ result = Some false)
     ∧ (no_line_terminator token = true →
        (result = Some true ↔ ∃ header, authHeader = Some header ∧ bearer_header header token))
     ∧ (no_line_terminator token = false → result = Some false))
  ∧ (∀ MCP_API_TOKEN' authHeader',
       validateBearerToken cached MCP_API_TOKEN' authHeader'
       = validateBearerToken None MCP_API_TOKEN authHeader').
Proof.
  intros token cached result.
  pose proof (validateBearerToken_fresh MCP_API_TOKEN) as Hrun. fold token in Hrun.
  unfold cached, result. rewrite (Hrun authHeader). cbn [fst snd].
  split; [reflexivity|]. split; [intros ->; reflexivity|]. split.
  - intros Hne. apply String.eqb_neq in Hne as Hneb. rewrite Hneb.
    split; [destruct (header_check token authHeader); [now left | now right]|].
    split.
    + intros Hline.
      rewrite <- (header_check_spec token authHeader Hne Hline (trim_head _)).
      split; [now intros [= ->] | now intros ->].
    + intros Hline. now rewrite header_check_line_break.
  - intros env' header'. rewrite (Hrun header').
    destruct (String.eqb_spec token "") as [Hempty|Hne]; [reflexivity|].
    now apply validateBearerToken_cached.
Qed.

Lemma validateBearerToken_decides_witness :
  trim (default "" (Some " s3cret ")) ≠ ""
  ∧ no_line_terminator (trim (default "" (Some " s3cret "))) = true
  ∧ snd (validateBearerToken None (Some " s3cret ") (Some "bearer s3cret")) = Some true.
Proof.
  split; [discriminate|]. split; [reflexivity|].
  destruct (validateBearerToken_decides (Some " s3cret ") (Some "bearer s3cret"))
    as (_ & _ & Hset & _).
  destruct (Hset ltac:(discriminate)) as (_ & Hline & _).
  apply (proj2 (Hline eq_refl)).
  exists "bearer s3cret". split; [reflexivity|].
  exists "bearer", " ". repeat split. discriminate.
Defined.

End BearerHeaderExtras.

(** ** The client singleton and the token check *)

Module ServiceExtras.
Import Errors Auth CloudflareService.

(** X20.  [getClient] builds the client once.  A call that returns a
    client caches it, and every later call returns that client, whatever
    [CLOUDFLARE_API_TOKEN] then is.  A call fails exactly when no client
    is cached and the variable is unset or empty; the failure is the
    error naming the variable, and it caches nothing, so that a later
    call made with the variable set succeeds.  After [resetClient] the
    variable is read again. *)
Theorem getClient_singleton (_client apiToken : option string) :
  let cached := fst (getClient _client apiToken) in
  (∀ client, snd (getClient _client apiToken) = inr client →
     cached = Some client
     ∧ ∀ apiToken', getClient cached apiToken' = (cached, inr client))
  ∧ (∀ error, snd (getClient _client apiToken) = inl error →
     _client = None ∧ present apiToken = false
     ∧ error = Error_ TOKEN_REQUIRED ∧ cached = None
     ∧ ∀ token, token ≠ "" →
         getClient cached (Some token) = (Some token, inr token))
  ∧ (_client = None → present apiToken = false →
     snd (getClient _client apiToken) = inl (Error_ TOKEN_REQUIRED))
  ∧ (∀ token, token ≠ "" →
     getClient (resetClient cached) (Some token) = (Some token, inr token)).
Proof.
  assert (Hfresh : ∀ token, token ≠ "" →
            getClient None (Some token) = (Some token, inr token)).
  { intros token Hne. unfold getClient. cbn [present].
    apply String.eqb_neq in Hne. now rewrite Hne. }
  intros cached. unfold cached, getClient.
  destruct _client as [client|]; cbn [fst snd].
  - split; [intros c [= <-]; now split|]. split; [discriminate|].
    split; [discriminate|]. exact Hfresh.
  - destruct (present apiToken) eqn:Hp; cbn [fst snd].
    + split; [intros c [= <-]; now split|]. split; [discriminate|].
      split; [discriminate|]. exact Hfresh.
    + split; [discriminate|]. split; [|split; [reflexivity | exact Hfresh]].
      intros error [= <-]. repeat split; try reflexivity. exact Hfresh.
Qed.

Lemma getClient_singleton_witness :
  snd (getClient None (Some "token-a")) = inr "token-a"
  ∧ getClient (fst (getClient None (Some "token-a"))) (Some "token-b")
    = (Some "token-a", inr "token-a").
Proof.
  split; [reflexivity|].
  destruct (getClient_singleton None (Some "token-a")) as (Hok & _).
  destruct (Hok "token-a" eq_refl) as (Hcached & Hlater).
  rewrite (Hlater (Some "token-b")), Hcached. reflexivity.
Defined.

Lemma includes_not_active (status : value) :
  includes (not_active status) "not active" = true.
Proof. reflexivity. Qed.

Lemma rethrow_is_Error (error : thrown) :
  is_Error (rethrow error) = true.
Proof.
  unfold rethrow. destruct (is_Error error) eqn:He; cbn [andb]; [|reflexivity].
  destruct (includes (message error) "not active"); [exact He | reflexivity].
Qed.

(** X21.  The outcomes of [validateToken].  It succeeds exactly when a
    client is to be had and the verification returns the status
    [active]; the result is then that status and the identifier.  Every
    failure is an [Error]: the one of [getClient] when there is no
    client; for a verification returning another status, the error
    saying the token is not active, with that status, not wrapped; for a
    verification that fails with an [Error] whose message has
    [not active] in it, that error as it is; for a verification that
    fails with anything else, a new error whose message begins with
    [Failed to verify API token: ] and goes on with the message of the
    failure, or with its text when it is not an [Error].  The client
    stays cached when the verification fails. *)
Theorem validateToken_outcomes (verify : string → thrown + obj)
    (_client apiToken : option string) :
  let outcome := snd (validateToken verify _client apiToken) in
  fst (validateToken verify _client apiToken) = fst (getClient _client apiToken)
  ∧ (∀ error, snd (getClient _client apiToken) = inl error → outcome = inl error)
  ∧ (∀ client result,
       snd (getClient _client apiToken) = inr client → verify client = inr result →
       (get result "status" = VStr "active" →
        outcome = inr [ ("status", VStr "active"); ("id", get result "id") ])
       ∧ (get result "status" ≠ VStr "active" →
          outcome = inl (Error_ (not_active (get result "status")))))
  ∧ (∀ client error,
       snd (getClient _client apiToken) = inr client → verify client = inl error →
       (is_Error error = true → includes (message error) "not active" = true →
        outcome = inl error)
       ∧ (is_Error error = true → includes (message error) "not active" = false →
          outcome = inl (Error_ (failed_to_verify error))
          ∧ failed_to_verify error
            = "Failed to verify API token: " +:+ message error +:+
              ". Ensure CLOUDFLARE_API_TOKEN is a valid API token (not a global API key).")
       ∧ (is_Error error = false →
          outcome = inl (Error_ (failed_to_verify error))
          ∧ failed_to_verify error
            = "Failed to verify API token: " +:+ as_string error +:+
              ". Ensure CLOUDFLARE_API_TOKEN is a valid API token (not a global API key)."))
  ∧ (∀ error, outcome = inl error → is_Error error = true).
Proof.
  intros outcome. unfold outcome, validateToken.
  destruct (getClient _client apiToken) as [cached [failure|client]] eqn:Hclient;
    cbn [fst snd].
  { split; [reflexivity|]. split; [now intros e [= <-]|].
    split; [discriminate|]. split; [discriminate|].
    intros e [= <-]. unfold getClient in Hclient.
    destruct _client; [discriminate Hclient|].
    destruct (present apiToken); [discriminate Hclient|].
    now injection Hclient as _ <-. }
  assert (Hstate : fst (match verify client with
                        | inr result =>
                            if negb (strict_equals_string (get result "status") "active")
                            then (cached,
                                  inl (rethrow (Error_ (not_active (get result "status")))))
                            else (cached,
                                  inr [ ("status", get result "status");
                                        ("id", get result "id") ])
                        | inl error => (cached, inl (rethrow error))
                        end) = cached).
  { destruct (verify client) as [e|r]; [reflexivity|].
    destruct (negb (strict_equals_string (get r "status") "active")); reflexivity. }
  split; [exact Hstate|]. split; [discriminate|]. split; [|split].
  - intros c result [= <-] Hverify. rewrite Hverify. split.
    + intros Hactive. rewrite Hactive. reflexivity.
    + intros Hother.
      assert (Hneq : strict_equals_string (get result "status") "active" = false).
      { destruct (get result "status") as [| | | | |s| |]; try reflexivity.
        cbn [strict_equals_string]. apply String.eqb_neq. congruence. }
      rewrite Hneq. cbn [negb snd]. unfold rethrow.
      cbn [is_Error message Error_ andb]. rewrite includes_not_active. reflexivity.
  - intros c error [= <-] Hverify. rewrite Hverify. cbn [snd]. unfold rethrow.
    split; [|split].
    + intros He Hi. now rewrite He, Hi.
    + intros He Hi. rewrite He, Hi. cbn [andb]. split; [reflexivity|].
      unfold failed_to_verify. now rewrite He.
    + intros He. rewrite He. cbn [andb]. split; [reflexivity|].
      unfold failed_to_verify. now rewrite He.
  - intros error. destruct (verify client) as [e|r].
    + intros [= <-]. apply rethrow_is_Error.
    + destruct (negb (strict_equals_string (get r "status") "active"));
        [|discriminate].
      intros [= <-]. apply rethrow_is_Error.
Qed.

Lemma validateToken_outcomes_witness :
  snd (getClient None (Some "token-a")) = inr "token-a"
  ∧ snd (validateToken (fun _ => inr [ ("id", VStr "t1"); ("status", VStr "disabled") ])
           None (Some "token-a"))
    = inl (Error_ (not_active (VStr "disabled")))
  ∧ snd (validateToken
           (fun _ => inl (SampleDirectory.api_error 403 "token is not active yet"))
           None (Some "token-a"))
    = inl (SampleDirectory.api_error 403 "token is not active yet").
Proof.
  split; [reflexivity|]. split.
  - destruct (validateToken_outcomes
                (fun _ => inr [ ("id", VStr "t1"); ("status", VStr "disabled") ])
                None (Some "token-a")) as (_ & _ & Hverified & _).
    exact (proj2 (Hverified "token-a" [ ("id", VStr "t1"); ("status", VStr "disabled") ]
                    eq_refl eq_refl) ltac:(discriminate)).
  - destruct (validateToken_outcomes
                (fun _ => inl (SampleDirectory.api_error 403 "token is not active yet"))
                None (Some "token-a")) as (_ & _ & _ & Hfailed & _).
    exact (proj1 (Hfailed "token-a"
                    (SampleDirectory.api_error 403 "token is not active yet")
                    eq_refl eq_refl) eq_refl eq_refl).
Defined.

End ServiceExtras.

(** ** The request of a listing *)

Module RequestExtras.
Import Errors Directory RecordsRead ExtraSpec.

Lemma get_with_string_other (o : obj) (k k' : string) (s : option string) :
  String.eqb k k' = false → get (with_string o k s) k' = get o k'.
Proof.
  intros Hk. unfold with_string. destruct s as [t|]; [|reflexivity].
  destruct (String.eqb t ""); [reflexivity|]. now rewrite get_set_prop, Hk.
Qed.

Lemma get_with_string_same (o : obj) (k : string) (s : option string) :
  get o k = VUndefined → get (with_string o k s) k = filter_value s.
Proof.
  intros Hk. unfold with_string, filter_value. destruct s as [t|]; [|exact Hk].
  destruct (String.eqb t ""); [exact Hk|]. now rewrite get_set_prop, String.eqb_refl.
Qed.

Ltac field_of_request :=
  repeat first
    [ rewrite get_with_string_other by reflexivity
    | rewrite get_with_string_same; [reflexivity|]
    | rewrite get_set_prop; cbn [String.eqb Ascii.eqb Bool.eqb]
    | reflexivity ].

(** X22.  What a record listing asks of the Directory: the zone, the
    [page] and [per_page] of the caller as they are, each text filter
    that is given and not empty under its key, and [proxied] whenever it
    is given, also when it is [false].  The request is the same in the
    three modes: it does not depend on [summary_only], [random_sample],
    [sample_size], [concise] or [include_details]. *)
Theorem list_request_fields (params : ListRecordsInput) :
  let request := ("zone_id", VStr (zone_id params)) :: queryParams params in
  (∀ (D : Type) (client : Client D) (d : D),
     fetch client d params
     = match records_list client d request with
       | inl error => inl error
       | inr page => collect params [] (yielded page) (failure page)
       end)
  ∧ get request "zone_id" = VStr (zone_id params)
  ∧ get request "page" = VNum (page params)
  ∧ get request "per_page" = VNum (per_page params)
  ∧ get request "type" = filter_value (filter_type params)
  ∧ get request "name.contains" = filter_value (filter_name params)
  ∧ get request "content.contains" = filter_value (filter_content params)
  ∧ get request "proxied" = match filter_proxied params with
                            | Some b => VBool b
                            | None => VUndefined
                            end
  ∧ get request "comment.contains" = filter_value (filter_comment params)
  ∧ get request "tag" = filter_value (filter_tag params)
  ∧ get request "order" = filter_value (order params)
  ∧ (∀ summary sample size concise details,
       queryParams
         {| zone_id := zone_id params; concise := concise; include_details := details;
            page := page params; per_page := per_page params;
            random_sample := sample; sample_size := size;
            filter_type := filter_type params; filter_name := filter_name params;
            filter_content := filter_content params;
            filter_proxied := filter_proxied params;
            filter_comment := filter_comment params; filter_tag := filter_tag params;
            order := order params; summary_only := summary |}
       = queryParams params).
Proof.
  intros request. split; [reflexivity|]. split; [reflexivity|].
  assert (Hskip : ∀ k, String.eqb "zone_id" k = false →
            get request k = get (queryParams params) k).
  { intros k Hk. unfold request, get. cbn [lookup_prop]. now rewrite Hk. }
  rewrite !Hskip by reflexivity. unfold queryParams.
  repeat split.
  all: try (destruct (filter_proxied params); field_of_request).
Qed.

End RequestExtras.

(** ** Access to the HTTP transport *)

Module AccessExtras.
Import Auth BearerAuth EntryPoint ExtraSpec.

Lemma getOrCreateApiKey_caches (randomBytes : nat → list Byte.byte)
    (_apiKey envKey : option string) :
  fst (getOrCreateApiKey randomBytes _apiKey envKey)
  = Some (snd (getOrCreateApiKey randomBytes _apiKey envKey)).
Proof.
  unfold getOrCreateApiKey. destruct (present _apiKey) eqn:Hp.
  - apply AuthExtras.present_spec in Hp as (k & -> & _). reflexivity.
  - destruct (present envKey && (16 <=? str_length (default "" envKey))); reflexivity.
Qed.

Lemma validateApiKey_safe (randomBytes : nat → list Byte.byte)
    (_apiKey envKey headerValue queryValue : option string) :
  fst (BearerAuth.validateApiKey randomBytes _apiKey envKey headerValue queryValue)
  = fst (getOrCreateApiKey randomBytes _apiKey envKey)
  ∧ (snd (BearerAuth.validateApiKey randomBytes _apiKey envKey headerValue queryValue)
     = true
     ↔ present (given_key headerValue queryValue) = true
       ∧ given_key headerValue queryValue
         = Some (snd (getOrCreateApiKey randomBytes _apiKey envKey))).
Proof.
  unfold BearerAuth.validateApiKey. fold (given_key headerValue queryValue).
  change (or_else headerValue queryValue) with (given_key headerValue queryValue).
  destruct (getOrCreateApiKey randomBytes _apiKey envKey) as [cached key].
  destruct (present (given_key headerValue queryValue)) eqn:Hp; cbn [negb fst snd].
  - split; [reflexivity|].
    apply AuthExtras.present_spec in Hp as (p & -> & _). cbn [default].
    change (id p) with p. rewrite BearerExtras.safeCompare_eq.
    split; [intros ->; now split | now intros [_ [= ->]]].
  - split; [reflexivity|]. split; [discriminate | now intros [Habs _]].
Qed.

(** X23.  Who is served at [POST /mcp], from the state in which the
    bearer token has not been read.  When [MCP_API_TOKEN], trimmed, is
    not empty, only the [Authorization] header counts: the request is
    served exactly when the header is the word [bearer], white space and
    the token, it is answered 401 [Unauthorized] otherwise, and the API
    key is neither read nor generated.  When it is empty, only the API
    key counts: the request is served exactly when the key it gives, in
    the header or else in the query, is the key of the transport, and
    that key is cached. *)
Theorem mcp_access (randomBytes : nat → list Byte.byte) (env : Environment)
    (st : AuthState) (req : Request) :
  _bearerToken st = None →
  let token := trim (default "" (MCP_API_TOKEN env)) in
  let key :=
    snd (getOrCreateApiKey randomBytes (_apiKey st) (CLOUDFLARE_DNS_MCP_API_KEY env)) in
  let provided := given_key (x_api_key req) (api_key req) in
  let after := fst (post_mcp randomBytes env st req) in
  let response := snd (post_mcp randomBytes env st req) in
  (token ≠ "" →
   (response = Served ∨ response = Json 401 "Unauthorized")
   ∧ _apiKey after = _apiKey st
   ∧ (no_line_terminator token = true →
      (response = Served
       ↔ ∃ header, authorization req = Some header ∧ bearer_header header token))
   ∧ (no_line_terminator token = false → response = Json 401 "Unauthorized"))
  ∧ (token = "" →
     (response = Served ↔ present provided = true ∧ provided = Some key)
     ∧ (response = Served
        ∨ response
          = Json 401
              "Unauthorized. Provide X-API-Key header or ?api_key= query parameter.")
     ∧ _apiKey after = Some key).
Proof.
  intros Hfresh token key provided after response.
  assert (Hrun : post_mcp randomBytes env st req
                 = if String.eqb token "" then
                     mcp_route randomBytes env
                       {| _bearerToken := Some None; _apiKey := _apiKey st |} req
                   else if header_check token (authorization req) then
                     mcp_route randomBytes env
                       {| _bearerToken := Some (Some token); _apiKey := _apiKey st |} req
                   else ({| _bearerToken := Some (Some token); _apiKey := _apiKey st |},
                         Json 401 "Unauthorized")).
  { unfold post_mcp, bearer_middleware.
    rewrite Hfresh, BearerHeaderExtras.validateBearerToken_fresh. fold token.
    destruct (String.eqb token ""); [reflexivity|].
    destruct (header_check token (authorization req)); reflexivity. }
  unfold after, response. rewrite Hrun. split.
  - intros Hne. apply String.eqb_neq in Hne as Hneb. rewrite Hneb.
    assert (Hroute : mcp_route randomBytes env
                       {| _bearerToken := Some (Some token); _apiKey := _apiKey st |} req
                     = ({| _bearerToken := Some (Some token); _apiKey := _apiKey st |},
                        Served)).
    { unfold mcp_route, getBearerToken. cbn [_bearerToken present EntryPoint._apiKey].
      now rewrite Hneb. }
    rewrite Hroute.
    destruct (header_check token (authorization req)) eqn:Hcheck; cbn [fst snd].
    + split; [now left|]. split; [reflexivity|]. split.
      * intros Hline. split; [intros _|reflexivity].
        now apply (BearerHeaderExtras.header_check_spec token (authorization req) Hne
                     Hline (BearerHeaderExtras.trim_head _)).
      * intros Hline.
        rewrite BearerHeaderExtras.header_check_line_break in Hcheck by exact Hline.
        discriminate Hcheck.
    + split; [now right|]. split; [reflexivity|]. split; [|reflexivity].
      intros Hline. split; [discriminate|]. intros Hheader.
      apply (BearerHeaderExtras.header_check_spec token (authorization req) Hne
               Hline (BearerHeaderExtras.trim_head _)) in Hheader.
      rewrite Hheader in Hcheck. discriminate Hcheck.
  - intros Hempty. rewrite Hempty. cbn [String.eqb].
    unfold mcp_route, getBearerToken. cbn [_bearerToken present negb EntryPoint._apiKey].
    destruct (validateApiKey_safe randomBytes (_apiKey st)
                (CLOUDFLARE_DNS_MCP_API_KEY env) (x_api_key req) (api_key req))
      as [Hstate Hvalid].
    fold key provided in Hvalid.
    rewrite getOrCreateApiKey_caches in Hstate. fold key in Hstate.
    destruct (BearerAuth.validateApiKey randomBytes (_apiKey st)
                (CLOUDFLARE_DNS_MCP_API_KEY env) (x_api_key req) (api_key req))
      as [cached valid].
    cbn [fst snd] in Hstate, Hvalid. subst cached.
    destruct valid; cbn [negb fst snd EntryPoint._apiKey].
    + split; [|split; [now left | reflexivity]].
      split; [intros _; now apply Hvalid | reflexivity].
    + split; [|split; [now right | reflexivity]].
      split; [discriminate|]. intros Hkey. apply Hvalid in Hkey. discriminate Hkey.
Qed.

Lemma mcp_access_witness :
  _bearerToken {| _bearerToken := None; _apiKey := None |} = None
  ∧ trim (default "" (MCP_API_TOKEN
                        {| MCP_API_TOKEN := Some "s3cret";
                           CLOUDFLARE_DNS_MCP_API_KEY := None |})) ≠ ""
  ∧ _apiKey (fst (post_mcp (fun n => repeat Byte.x2a n)
                    {| MCP_API_TOKEN := Some "s3cret";
                       CLOUDFLARE_DNS_MCP_API_KEY := None |}
                    {| _bearerToken := None; _apiKey := None |}
                    {| authorization := Some "Bearer s3cret";
                       x_api_key := None; api_key := None |})) = None.
Proof.
  split; [reflexivity|]. split; [discriminate|].
  destruct (mcp_access (fun n => repeat Byte.x2a n)
              {| MCP_API_TOKEN := Some "s3cret"; CLOUDFLARE_DNS_MCP_API_KEY := None |}
              {| _bearerToken := None; _apiKey := None |}
              {| authorization := Some "Bearer s3cret";
                 x_api_key := None; api_key := None |} eq_refl) as [Hbearer _].
  destruct (Hbearer ltac:(discriminate)) as (_ & Hkey & _). exact Hkey.
Defined.

End AccessExtras.
